(** * lognowrap: the ANSI tokenizer, the slicer, the key decoder and the
      line buffer of the no-wrap log viewer (src/lognowrap.py).

    Conventions of the embedding.
    - A Python [str] is a list of code points ([N], the value of [ord]); a
      Python [bytes] is a list of [Byte.byte].
    - An index is a [nat]; [line[a:b]] is [substr line a b].
    - A [while] loop is a [Fixpoint] on a fuel that bounds the iterations
      left ([len - i]); at fuel [0] the loop guard is false, so the branch
      for [0] is the code after the loop.
    - The Unicode tables behind [unicodedata] and the optional [wcwidth]
      module are not part of the repository: they are a record
      [unicode_db] the width functions take as an argument. *)

From Stdlib Require Import Strings.String Strings.Byte.
From Stdlib Require Import List ZArith NArith Lia Bool.
Import ListNotations.

Set Implicit Arguments.

(* ------------------------------------------------------------------ *)
(** ** Strings *)

Definition char := N.
Definition str := list char.

Definition ESC : char := 0x1b%N.
Definition BEL : char := 0x07%N.

(** [line[a:b]] and [line[a:]] for [0 <= a], [0 <= b]. *)
Definition substr (line : str) (a b : nat) : str := firstn (b - a) (skipn a line).
Definition substr_from (line : str) (a : nat) : str := skipn a line.

(** [line[i]] as a code point; Python raises IndexError for
    [i >= len(line)], and every use below is guarded by [i < len(line)]. *)
Definition char_at (line : str) (i : nat) : char := nth i line 0%N.

(** ["@" <= c <= "~"] *)
Definition is_csi_final (c : char) : bool := ((0x40 <=? c) && (c <=? 0x7e))%N.

(** [nxt in "()#%"] for a one-character [nxt]. *)
Definition is_charset_intro (c : char) : bool :=
  ((c =? 0x28) || (c =? 0x29) || (c =? 0x23) || (c =? 0x25))%N.

(* ------------------------------------------------------------------ *)
(** ** The tokenizer: [_consume_ansi] and [_iter_tokens] *)

Module Tokenizer.

(** The CSI loop of [_consume_ansi] (lines 83-90), entered with [i = start + 2]. *)
Fixpoint csi_loop (fuel : nat) (line : str) (start i : nat) : str * nat :=
  match fuel with
  | O => (substr_from line start, length line)
  | S fuel' =>
      if i <? length line then
        if is_csi_final (char_at line i)
        then (substr line start (i + 1), i + 1)
        else csi_loop fuel' line start (i + 1)
      else (substr_from line start, length line)
  end.

(** The OSC loop of [_consume_ansi] (lines 92-101). *)
Fixpoint osc_loop (fuel : nat) (line : str) (start i : nat) : str * nat :=
  match fuel with
  | O => (substr_from line start, length line)
  | S fuel' =>
      if i <? length line then
        if (char_at line i =? BEL)%N
        then (substr line start (i + 1), i + 1)
        else if ((char_at line i =? ESC)%N && (i + 1 <? length line)
                 && (char_at line (i + 1) =? 0x5c)%N)
        then (substr line start (i + 2), i + 2)
        else osc_loop fuel' line start (i + 1)
      else (substr_from line start, length line)
  end.

Definition _consume_ansi (line : str) (start : nat) : str * nat :=
  if length line <=? start + 1 then (substr line start (start + 1), start + 1)
  else
    let nxt := char_at line (start + 1) in
    if (nxt =? 0x5b)%N then
      csi_loop (length line - (start + 2)) line start (start + 2)
    else if (nxt =? 0x5d)%N then
      osc_loop (length line - (start + 2)) line start (start + 2)
    else if is_charset_intro nxt then
      if start + 2 <? length line
      then (substr line start (start + 3), start + 3)
      else (substr_from line start, length line)
    else (substr line start (start + 2), start + 2).

(** A token as the generator yields it: [(is_ansi, text)]. *)
Definition token := (bool * str)%type.

Fixpoint iter_tokens_from (fuel : nat) (line : str) (i : nat) : list token :=
  match fuel with
  | O => []
  | S fuel' =>
      if i <? length line then
        if (char_at line i =? ESC)%N then
          let '(seq, j) := _consume_ansi line i in
          (true, seq) :: iter_tokens_from fuel' line j
        else
          (false, [char_at line i]) :: iter_tokens_from fuel' line (i + 1)
      else []
  end.

(** The generator run to its end: at most [len(line)] tokens, since every
    token takes at least one character. *)
Definition _iter_tokens (line : str) : list token :=
  iter_tokens_from (length line) line 0.

(** The raw text of a sequence of tokens, in order. *)
Definition raw_text (toks : list token) : str := concat (map snd toks).

End Tokenizer.

(* ------------------------------------------------------------------ *)
(** ** Display widths: [_char_width] and [visible_width] *)

Module Width.
Import Tokenizer.

(** What the width functions read from outside the repository: the
    optional [wcwidth] module ([None] when its import failed) and three
    tables of [unicodedata], each indexed by code point. *)
Record unicode_db := {
  wcwidth : option (char -> Z);
  combining : char -> N;
  category : char -> string;
  east_asian_width : char -> string
}.

(** [ord(ch)]: the code point of a one-character string. Python raises
    TypeError on any other length; a non-escape token is one character. *)
Definition ord (ch : str) : char := hd 0%N ch.

Definition _char_width (db : unicode_db) (ch : str) : Z :=
  match wcwidth db with
  | None =>
      let code := ord ch in
      if ((code <? 0x20) || ((0x7f <=? code) && (code <? 0xa0)))%N then 0%Z
      else if negb (combining db code =? 0)%N
                || String.eqb (category db code) "Cf" then 0%Z
      else
        let east := east_asian_width db code in
        if String.eqb east "W" || String.eqb east "F" then 2%Z else 1%Z
  | Some wc =>
      let width := wc (ord ch) in
      if (width <? 0)%Z then 0%Z else width
  end.

(** The [for] loop of [visible_width] over the tokens left. *)
Fixpoint visible_width_loop (db : unicode_db) (toks : list token) (width : Z) : Z :=
  match toks with
  | [] => width
  | (is_ansi, tok) :: rest =>
      if is_ansi then visible_width_loop db rest width
      else visible_width_loop db rest (width + _char_width db tok)%Z
  end.

Definition visible_width (db : unicode_db) (line : str) : Z :=
  visible_width_loop db (_iter_tokens line) 0%Z.

End Width.

(* ------------------------------------------------------------------ *)
(** ** The slicer: [slice_ansi] *)

Module Slicer.
Import Tokenizer Width.

(** [ESC + "[0m"] *)
Definition RESET : str := [ESC; 0x5b; 0x30; 0x6d]%N.

(** The local variables of [slice_ansi]. *)
Record slice_state := {
  pos : Z;
  visible : Z;
  started : bool;
  prefix : str;
  out : list str
}.

Definition slice_init : slice_state :=
  {| pos := 0; visible := 0; started := false; prefix := []; out := [] |}.

(** [if not started: started = True; if prefix: out.append(prefix)] *)
Definition start_window (st : slice_state) : slice_state :=
  if negb (started st) then
    {| pos := pos st; visible := visible st; started := true;
       prefix := prefix st;
       out := match prefix st with
              | [] => out st
              | _ :: _ => out st ++ [prefix st]
              end |}
  else st.

(** The [for] loop of [slice_ansi] (lines 150-177) over the tokens left;
    [break] ends the recursion. *)
Fixpoint slice_loop (db : unicode_db) (start_col width : Z)
    (toks : list token) (st : slice_state) : slice_state :=
  match toks with
  | [] => st
  | (is_ansi, tok) :: rest =>
      if is_ansi then
        if negb (started st) then
          slice_loop db start_col width rest
            {| pos := pos st; visible := visible st; started := started st;
               prefix := prefix st ++ tok; out := out st |}
        else
          slice_loop db start_col width rest
            {| pos := pos st; visible := visible st; started := started st;
               prefix := prefix st; out := out st ++ [tok] |}
      else
        let w := _char_width db tok in
        if (w <=? 0)%Z then
          if started st then
            slice_loop db start_col width rest
              {| pos := pos st; visible := visible st; started := started st;
                 prefix := prefix st; out := out st ++ [tok] |}
          else slice_loop db start_col width rest st
        else if (pos st + w <=? start_col)%Z then
          slice_loop db start_col width rest
            {| pos := (pos st + w)%Z; visible := visible st;
               started := started st; prefix := prefix st; out := out st |}
        else
          let st1 := start_window st in
          let st2 :=
            {| pos := (pos st1 + w)%Z; visible := (visible st1 + w)%Z;
               started := started st1; prefix := prefix st1;
               out := out st1 ++ [tok] |} in
          if (width <=? visible st2)%Z then st2
          else slice_loop db start_col width rest st2
  end.

Definition slice_ansi (db : unicode_db) (line : str) (start_col width : Z) : str :=
  if (width <=? 0)%Z then []
  else
    let st := slice_loop db start_col width (_iter_tokens line) slice_init in
    if negb (started st) then []
    else concat (out st ++ [RESET]).

End Slicer.

(* ------------------------------------------------------------------ *)
(** ** The key decoder: [parse_keys] *)

Definition bytes := list byte.

Fixpoint bytes_eqb (a b : bytes) : bool :=
  match a, b with
  | [], [] => true
  | x :: a', y :: b' => Byte.eqb x y && bytes_eqb a' b'
  | _, _ => false
  end.

(** [0x40 <= b <= 0x7e]: the final byte of a CSI sequence. *)
Definition is_final_byte (b : byte) : bool :=
  ((0x40 <=? Byte.to_N b)%N && (Byte.to_N b <=? 0x7e)%N).

Module Keys.

(** [buf[i]] as an integer, for [i < len(buf)]. *)
Definition byte_at (buf : bytes) (i : nat) : N := Byte.to_N (nth i buf x00).

(** [buf.startswith(prefix, i)] for [i <= len(buf)]. *)
Definition startswith (buf prefix : bytes) (i : nat) : bool :=
  bytes_eqb (firstn (length prefix) (skipn i buf)) prefix.

(** [while j < len(buf) and not (0x40 <= buf[j] <= 0x7e): j += 1] *)
Fixpoint skip_params (fuel : nat) (buf : bytes) (j : nat) : nat :=
  match fuel with
  | O => j
  | S fuel' =>
      if (j <? length buf)
         && negb ((0x40 <=? byte_at buf j)%N && (byte_at buf j <=? 0x7e)%N)
      then skip_params fuel' buf (j + 1)
      else j
  end.

(** The outer [while] of [parse_keys]; the result is [actions] and the
    index [i] the loop was left with. *)
Fixpoint parse_loop (fuel : nat) (buf : bytes) (i : nat) (actions : list string)
    : list string * nat :=
  match fuel with
  | O => (actions, i)
  | S fuel' =>
      if i <? length buf then
        if negb (byte_at buf i =? 0x1b)%N then
          parse_loop fuel' buf (i + 1)
            (if (byte_at buf i =? 0x03)%N then actions ++ ["quit"%string]
             else actions)
        else if startswith buf [x1b; x5b; x43] i then
          parse_loop fuel' buf (i + 3) (actions ++ ["right"%string])
        else if startswith buf [x1b; x5b; x44] i then
          parse_loop fuel' buf (i + 3) (actions ++ ["left"%string])
        else if startswith buf [x1b; x4f; x43] i then
          parse_loop fuel' buf (i + 3) (actions ++ ["right"%string])
        else if startswith buf [x1b; x4f; x44] i then
          parse_loop fuel' buf (i + 3) (actions ++ ["left"%string])
        else if (i + 1 <? length buf) && (byte_at buf (i + 1) =? 0x5b)%N then
          let j := skip_params (length buf - (i + 2)) buf (i + 2) in
          if j <? length buf then
            let final := firstn 1 (skipn j buf) in
            parse_loop fuel' buf (j + 1)
              (if bytes_eqb final [x43] then actions ++ ["right"%string]
               else if bytes_eqb final [x44] then actions ++ ["left"%string]
               else actions)
          else (actions, i)
        else parse_loop fuel' buf (i + 1) actions
      else (actions, i)
  end.

Definition parse_keys (buf : bytes) : list string * bytes :=
  let '(actions, i) := parse_loop (length buf) buf 0 [] in
  (actions, skipn i buf).

End Keys.

(* ------------------------------------------------------------------ *)
(** ** The line buffer: [collections.deque(maxlen=...)] *)

Module Deque.
Section Deque.
Variable A : Type.

(** A bounded deque as [main] uses it: its entries, oldest first, and
    its [maxlen]. *)
Record deque := { items : list A; maxlen : Z }.

(** [d.append(x)]: the entry goes to the right end, and a deque longer
    than [maxlen] drops its leftmost entry. *)
Definition append (d : deque) (x : A) : deque :=
  let items' := items d ++ [x] in
  {| items := if (maxlen d <? Z.of_nat (length items'))%Z then tl items' else items';
     maxlen := maxlen d |}.

Definition extend (d : deque) (xs : list A) : deque := fold_left append xs d.

(** [collections.deque(iterable, maxlen=n)]; ValueError ([None]) for a
    negative [n]. *)
Definition new (iterable : list A) (n : Z) : option deque :=
  if (n <? 0)%Z then None
  else Some (extend {| items := []; maxlen := n |} iterable).

(** [list(lines)] *)
Definition snapshot (d : deque) : list A := items d.

(** A deque never holds more than [maxlen] entries. *)
Definition bounded (d : deque) : Prop :=
  (0 <= maxlen d)%Z /\ (Z.of_nat (length (items d)) <= maxlen d)%Z.

End Deque.
End Deque.

(* ------------------------------------------------------------------ *)
(** ** The event loop of [main]: resize, input chunks, keys *)

Module Main.
Import Tokenizer Width Slicer Keys.

Definition NL : byte := x0a.
Definition CR : byte := x0d.

(** [MAX_LINE_BYTES = 1024 * 1024] *)
Definition MAX_LINE_BYTES : nat := 1024 * 1024.

(** [b.split(sep)] for a one-byte separator: never an empty list. *)
Fixpoint split (sep : byte) (b : bytes) : list bytes :=
  match b with
  | [] => [[]]
  | c :: r =>
      if Byte.eqb c sep then [] :: split sep r
      else match split sep r with
           | h :: t => (c :: h) :: t
           | [] => [[c]]
           end
  end.

(** [b.rfind(sep)] for a one-byte separator: the highest index, or [-1]. *)
Fixpoint rfind (sep : byte) (b : bytes) : Z :=
  match b with
  | [] => (-1)%Z
  | c :: r =>
      let k := rfind sep r in
      if (0 <=? k)%Z then (k + 1)%Z
      else if Byte.eqb c sep then 0%Z else (-1)%Z
  end.

(** [b.rstrip(ch)] for a one-byte [ch]. *)
Fixpoint rstrip (ch : byte) (b : bytes) : bytes :=
  match b with
  | [] => []
  | c :: r =>
      match rstrip ch r with
      | [] => if Byte.eqb c ch then [] else [c]
      | r' => c :: r'
      end
  end.

(** [get_term_size()]; [os_size] is what [os.get_terminal_size] gave,
    [None] for OSError. *)
Definition get_term_size (os_size : option (Z * Z)) : Z * Z :=
  match os_size with
  | None => (80, 24)%Z
  | Some (columns, rows) => (Z.max 1 columns, Z.max 1 rows)
  end.

(** The variables of the loop of [main]. *)
Record viewer := {
  term_width : Z;
  term_height : Z;
  lines : Deque.deque str;
  xoff : Z;
  inbuf : bytes;
  keybuf : bytes;
  dirty : bool
}.

Section Loop.
(** [raw.decode("utf-8", "replace")] *)
Variable decode : bytes -> str.
(** The cap on the retained fragment; [main] runs with [MAX_LINE_BYTES]. *)
Variable cap : nat.
Variable db : unicode_db.

(** [line = raw.rstrip(b"\r"); lines.append(line.decode("utf-8", "replace"))] *)
Definition append_raw (ls : Deque.deque str) (raw : bytes) : Deque.deque str :=
  Deque.append ls (decode (rstrip CR raw)).

(** Lines 313-319. *)
Definition start (os_size : option (Z * Z)) : option viewer :=
  let '(w, h) := get_term_size os_size in
  match Deque.new [] h with
  | None => None
  | Some ls =>
      Some {| term_width := w; term_height := h; lines := ls; xoff := 0;
              inbuf := []; keybuf := []; dirty := true |}
  end.

(** Lines 324-328: the resize of the line buffer; [None] is an exception. *)
Definition resize (v : viewer) (os_size : option (Z * Z)) : option viewer :=
  let '(w, h) := get_term_size os_size in
  match Deque.new (Deque.items (lines v)) h with
  | None => None
  | Some ls =>
      Some {| term_width := w; term_height := h; lines := ls; xoff := xoff v;
              inbuf := inbuf v; keybuf := keybuf v; dirty := true |}
  end.

(** Lines 351-364: [while len(inbuf) > MAX_LINE_BYTES]. The result is
    [(inbuf, lines, dirty)]. *)
Fixpoint flush_oversized (fuel : nat) (buf : bytes) (ls : Deque.deque str)
    (d : bool) : bytes * Deque.deque str * bool :=
  match fuel with
  | O => (buf, ls, d)
  | S fuel' =>
      if cap <? length buf then
        let prefix := firstn cap buf in
        let newline := rfind NL prefix in
        if negb (newline =? -1)%Z then
          flush_oversized fuel'
            (skipn (Z.to_nat newline + 1) buf)
            (fold_left append_raw (split NL (firstn (Z.to_nat newline) prefix)) ls)
            true
        else
          flush_oversized fuel' (skipn cap buf) (append_raw ls prefix) true
      else (buf, ls, d)
  end.

(** Lines 350-370: one non-empty chunk read from standard input. *)
Definition feed_chunk (v : viewer) (chunk : bytes) : viewer :=
  let buf0 := inbuf v ++ chunk in
  let '(buf, ls, d) := flush_oversized (length buf0) buf0 (lines v) (dirty v) in
  let parts := split NL buf in
  {| term_width := term_width v; term_height := term_height v;
     lines := fold_left append_raw (removelast parts) ls;
     xoff := xoff v;
     inbuf := last parts [];
     keybuf := keybuf v;
     dirty := match removelast parts with [] => d | _ :: _ => true end |}.

(** The chunks of a stream, in order. *)
Definition feed_chunks (v : viewer) (chunks : list bytes) : viewer :=
  fold_left feed_chunk chunks v.

(** What the loop holds after the unterminated input [seen] (no newline
    in it), fed in chunks to the viewer [v0] that retained nothing: up
    to the cap the input is retained; past it, its first [cap] bytes are
    a line of the buffer and the rest is retained. *)
Definition unterminated (v0 v : viewer) (seen : bytes) : Prop :=
  if length seen <=? cap then
    lines v = lines v0 /\ inbuf v = seen
  else
    lines v = append_raw (lines v0) (firstn cap seen) /\
    inbuf v = skipn cap seen.

(** Lines 339-343: the flush at end of input. *)
Definition eof_flush (v : viewer) : viewer :=
  match inbuf v with
  | [] => v
  | _ :: _ =>
      {| term_width := term_width v; term_height := term_height v;
         lines := append_raw (lines v) (inbuf v);
         xoff := xoff v; inbuf := []; keybuf := keybuf v; dirty := true |}
  end.

(** [max((visible_width(l) for l in lines), default=0)] *)
Definition max_width (ls : list str) : Z :=
  match ls with
  | [] => 0%Z
  | l :: rest => fold_left (fun m x => Z.max m (visible_width db x)) rest (visible_width db l)
  end.

(** One action of lines 380-390; [None] is [return 0]. *)
Definition apply_action (v : viewer) (action : string) : option viewer :=
  if String.eqb action "left" then
    Some {| term_width := term_width v; term_height := term_height v;
            lines := lines v; xoff := Z.max 0 (xoff v - 1);
            inbuf := inbuf v; keybuf := keybuf v; dirty := true |}
  else if String.eqb action "right" then
    let max_xoff := Z.max 0 (max_width (Deque.items (lines v)) - term_width v) in
    Some {| term_width := term_width v; term_height := term_height v;
            lines := lines v; xoff := Z.min (xoff v + 1) max_xoff;
            inbuf := inbuf v; keybuf := keybuf v; dirty := true |}
  else if String.eqb action "quit" then None
  else Some v.

Fixpoint apply_actions (v : viewer) (actions : list string) : option viewer :=
  match actions with
  | [] => Some v
  | a :: rest =>
      match apply_action v a with
      | None => None
      | Some v' => apply_actions v' rest
      end
  end.

(** Lines 372-390: the bytes read from the terminal, [[]] when the read
    gave nothing (also on BlockingIOError); [None] is [return 0]. *)
Definition on_keys (v : viewer) (data : bytes) : option viewer :=
  match data with
  | [] => None
  | _ :: _ =>
      let '(actions, rest) := parse_keys (keybuf v ++ data) in
      apply_actions
        {| term_width := term_width v; term_height := term_height v;
           lines := lines v; xoff := xoff v; inbuf := inbuf v;
           keybuf := rest; dirty := dirty v |}
        actions
  end.

End Loop.
End Main.

(* ------------------------------------------------------------------ *)
(** ** A fragment of the Unicode character database

    The entries of [unicodedata] for ASCII, the C1 controls, U+00AD (soft
    hyphen), U+0301 (combining acute accent) and U+4E2D (a CJK ideograph),
    with [wcwidth] not installed. Other code points get the values of an
    unassigned one. It instantiates [unicode_db] in the examples. *)

Module UnicodeRef.
Import Width.

Definition in_range (lo hi c : N) : bool := ((lo <=? c) && (c <=? hi))%N.

Definition mem (c : N) (l : list N) : bool := existsb (N.eqb c) l.

Definition ref_combining (c : char) : N :=
  if (c =? 0x301)%N then 230%N else 0%N.

Definition ref_category (c : char) : string :=
  if in_range 0x00 0x1f c || in_range 0x7f 0x9f c then "Cc"
  else if (c =? 0x20)%N then "Zs"
  else if in_range 0x30 0x39 c then "Nd"
  else if in_range 0x41 0x5a c then "Lu"
  else if in_range 0x61 0x7a c then "Ll"
  else if (c =? 0x5f)%N then "Pc"
  else if (c =? 0x2d)%N then "Pd"
  else if mem c [0x28; 0x5b; 0x7b]%N then "Ps"
  else if mem c [0x29; 0x5d; 0x7d]%N then "Pe"
  else if (c =? 0x24)%N then "Sc"
  else if mem c [0x2b; 0x3c; 0x3d; 0x3e; 0x7c; 0x7e]%N then "Sm"
  else if mem c [0x5e; 0x60]%N then "Sk"
  else if in_range 0x21 0x7e c then "Po"
  else if (c =? 0xad)%N then "Cf"
  else if (c =? 0x301)%N then "Mn"
  else if (c =? 0x4e2d)%N then "Lo"
  else "Cn".

Definition ref_east_asian_width (c : char) : string :=
  if in_range 0x20 0x7e c then "Na"
  else if (c =? 0x301)%N then "A"
  else if (c =? 0x4e2d)%N then "W"
  else "N".

Definition unicode_ref : unicode_db :=
  {| wcwidth := None;
     combining := ref_combining;
     category := ref_category;
     east_asian_width := ref_east_asian_width |}.

(** The same tables with a [wcwidth] module installed that agrees with
    them on these code points. *)
Definition ref_wcwidth (c : char) : Z :=
  if in_range 0x00 0x00 c then 0%Z
  else if in_range 0x01 0x1f c || in_range 0x7f 0x9f c then (-1)%Z
  else if (c =? 0x301)%N then 0%Z
  else if (c =? 0x4e2d)%N then 2%Z
  else 1%Z.

Definition unicode_ref_wc : unicode_db :=
  {| wcwidth := Some ref_wcwidth;
     combining := ref_combining;
     category := ref_category;
     east_asian_width := ref_east_asian_width |}.

End UnicodeRef.

(* ------------------------------------------------------------------ *)
(** ** The escape forms of the tokenizer's contract

    The four forms the contract lists, each complete with its terminator;
    stated from the contract's words, to compare the tokenizer with. *)

Module EscapeForms.

(** An adjacent [ESC \] pair inside [s]. *)
Fixpoint has_st (s : str) : bool :=
  match s with
  | a :: (b :: _) as r => ((a =? ESC)%N && (b =? 0x5c)%N) || has_st r
  | _ => false
  end.

(** The body of an OSC sequence: what stands before its first terminator. *)
Definition osc_body (body : str) : Prop :=
  Forall (fun c => c <> BEL) body /\ has_st body = false.

Inductive full_escape : str -> Prop :=
| FE_csi : forall params final,
    Forall (fun c => is_csi_final c = false) params ->
    is_csi_final final = true ->
    full_escape (ESC :: 0x5b%N :: params ++ [final])
| FE_osc_bel : forall body,
    osc_body body ->
    full_escape (ESC :: 0x5d%N :: body ++ [BEL])
| FE_osc_st : forall body,
    osc_body body ->
    full_escape (ESC :: 0x5d%N :: body ++ [ESC; 0x5c%N])
| FE_charset : forall d x,
    is_charset_intro d = true ->
    full_escape [ESC; d; x]
| FE_other : forall x,
    x <> 0x5b%N -> x <> 0x5d%N -> is_charset_intro x = false ->
    full_escape [ESC; x].

(** How far the CSI and OSC loops go in the text [rest] they have left:
    the number of characters up to and including the terminator, [None]
    when there is none. *)
Fixpoint csi_len (rest : str) : option nat :=
  match rest with
  | [] => None
  | c :: r => if is_csi_final c then Some 1 else option_map S (csi_len r)
  end.

Fixpoint osc_len (rest : str) : option nat :=
  match rest with
  | [] => None
  | c :: r =>
      if (c =? BEL)%N then Some 1
      else if (c =? ESC)%N && match r with d :: _ => (d =? 0x5c)%N | [] => false end
      then Some 2
      else option_map S (osc_len r)
  end.

End EscapeForms.

(* ------------------------------------------------------------------ *)
(** ** Columns, windows and printable ASCII

    The vocabulary of the slicer's contract: the column a visible
    character starts at, the window of a slice, and what the Unicode
    tables say of printable ASCII. *)

Module Columns.
Import Tokenizer Width Slicer.

(** A visible character of a token list: its text, the column it starts
    at and its width. [p] is the column reached so far. *)
Definition cell := (str * Z * Z)%type.

Fixpoint columns_from (db : unicode_db) (toks : list token) (p : Z) : list cell :=
  match toks with
  | [] => []
  | (is_ansi, tok) :: rest =>
      if is_ansi then columns_from db rest p
      else
        let w := _char_width db tok in
        if (0 <? w)%Z then (tok, p, w) :: columns_from db rest (p + w)%Z
        else columns_from db rest p
  end.

Definition columns (db : unicode_db) (line : str) : list cell :=
  columns_from db (_iter_tokens line) 0%Z.

(** The character occupies a column of [[start_col, start_col + width)]. *)
Definition in_window (start_col width : Z) (e : cell) : Prop :=
  let '(_, p, w) := e in (p < start_col + width /\ start_col < p + w)%Z.

(** The character ends at or before [start_col]: it lies left of the window. *)
Definition left_of (start_col : Z) (e : cell) : Prop :=
  let '(_, p, w) := e in (p + w <= start_col)%Z.

(** The first visible character whose column is at least [start_col]. *)
Fixpoint first_at_or_after (start_col : Z) (cells : list cell) : option str :=
  match cells with
  | [] => None
  | (tok, p, _) :: rest =>
      if (start_col <=? p)%Z then Some tok else first_at_or_after start_col rest
  end.

(** The escape sequences of a token list, concatenated in order. *)
Definition escapes (toks : list token) : str :=
  raw_text (filter (fun t => fst t) toks).

(** [slice_ansi] after the tokenizer: the slice of a token list. *)
Definition slice_tokens (db : unicode_db) (toks : list token)
    (start_col width : Z) : str :=
  if (width <=? 0)%Z then []
  else
    let st := slice_loop db start_col width toks slice_init in
    if negb (started st) then []
    else concat (out st ++ [RESET]).

Definition printable_ascii (c : char) : Prop := (0x20 <= c <= 0x7e)%N.

(** The tables hold the Unicode data of printable ASCII: not combining,
    not a format character, narrow; and [wcwidth], where installed,
    gives these characters one column. *)
Definition ascii_db (db : unicode_db) : Prop :=
  match wcwidth db with
  | Some wc => forall c, printable_ascii c -> wc c = 1%Z
  | None =>
      forall c, printable_ascii c ->
        combining db c = 0%N /\
        category db c <> "Cf"%string /\
        east_asian_width db c = "Na"%string
  end.

End Columns.

(* ------------------------------------------------------------------ *)
(** ** Lines used in the examples *)

Module Examples.
Import Tokenizer.

(** ["\x1b[31mHELLO\x1b[0m WORLD"] *)
Definition hello_world : str :=
  [ESC; 0x5b; 0x33; 0x31; 0x6d; 0x48; 0x45; 0x4c; 0x4c; 0x4f;
   ESC; 0x5b; 0x30; 0x6d; 0x20; 0x57; 0x4f; 0x52; 0x4c; 0x44]%N.

(** ["\x1b[31m"], ["HELLO"], ["WORLD"] *)
Definition sgr_red : str := [ESC; 0x5b; 0x33; 0x31; 0x6d]%N.
Definition hello : str := [0x48; 0x45; 0x4c; 0x4c; 0x4f]%N.
Definition world : str := [0x57; 0x4f; 0x52; 0x4c; 0x44]%N.

(** ["a中b"]: a wide character between two narrow ones. *)
Definition wide_line : str := [0x61; 0x4e2d; 0x62]%N.

(** ["áb"]: a combining acute accent on the first letter. *)
Definition accent_line : str := [0x61; 0x301; 0x62]%N.

(** A token that is an escape sequence or one printable ASCII character. *)
Definition ascii_token (t : token) : bool :=
  fst t ||
  match snd t with
  | [c] => ((0x20 <=? c) && (c <=? 0x7e))%N
  | _ => false
  end.

End Examples.

(* ------------------------------------------------------------------ *)
(** ** The most recent entries of a list *)

(** The last [n] entries of [l], all of [l] when it has fewer. *)
Definition lastn {A : Type} (n : nat) (l : list A) : list A :=
  skipn (length l - n) l.

(* ------------------------------------------------------------------ *)
(** ** The tokenizer on the text it has left *)

Module TokenizerSuffix.
Import EscapeForms.

(** The length of the escape token [_consume_ansi] takes at the head of
    [rest], the text from the escape character on. *)
Definition consume_suffix (rest : str) : nat :=
  match rest with
  | [] => 1
  | [_] => 1
  | _ :: nxt :: tl =>
      if (nxt =? 0x5b)%N then
        match csi_len tl with Some n => 2 + n | None => 2 + length tl end
      else if (nxt =? 0x5d)%N then
        match osc_len tl with Some n => 2 + n | None => 2 + length tl end
      else if is_charset_intro nxt then
        match tl with [] => 2 | _ :: _ => 3 end
      else 2
  end.

(** The shape of a token: an escape token starts with [ESC]; any other
    token is one character, which is not [ESC]. *)
Definition well_formed_token (t : Tokenizer.token) : Prop :=
  match t with
  | (true, seq) => exists tl, seq = ESC :: tl
  | (false, ch) => exists c, ch = [c] /\ c <> ESC
  end.

(** An escape sequence a line ends before finishing: a CSI without
    final byte, an OSC without terminator, a charset designator without
    its byte, a lone [ESC]. *)
Inductive unfinished_escape : str -> Prop :=
| UE_csi : forall params,
    Forall (fun c => is_csi_final c = false) params ->
    unfinished_escape (ESC :: 0x5b%N :: params)
| UE_osc : forall body,
    osc_body body ->
    unfinished_escape (ESC :: 0x5d%N :: body)
| UE_charset : forall d,
    is_charset_intro d = true ->
    unfinished_escape [ESC; d]
| UE_esc : unfinished_escape [ESC].

End TokenizerSuffix.

(* ------------------------------------------------------------------ *)
(** ** What a slice is made of *)

(** [kept] takes entries of [l], in the order of [l]. *)
Inductive subseq {A : Type} : list A -> list A -> Prop :=
| subseq_nil : subseq [] []
| subseq_skip : forall x l1 l2, subseq l1 l2 -> subseq l1 (x :: l2)
| subseq_keep : forall x l1 l2, subseq l1 l2 -> subseq (x :: l1) (x :: l2).

Module SlicerState.
Import Tokenizer Width Slicer.

(** The text [slice_ansi] holds at a point of its loop: what it has
    emitted and, before the window starts, the prefix it has buffered. *)
Definition emitted_text (st : slice_state) : str :=
  concat (out st) ++ (if started st then [] else prefix st).

(** No token of [toks] is a zero-width character. *)
Definition no_zero_width (db : unicode_db) (toks : list token) : Prop :=
  Forall (fun t : token => fst t = true \/ (0 < _char_width db (snd t))%Z) toks.

End SlicerState.

(* ------------------------------------------------------------------ *)
(** ** The key decoder on the bytes it has left *)

Module KeysSuffix.

(** The number of leading bytes of [rest] that are not final bytes: how
    far the inner loop of [parse_keys] goes. *)
Fixpoint param_run (rest : bytes) : nat :=
  match rest with
  | [] => 0
  | b :: tl => if is_final_byte b then 0 else S (param_run tl)
  end.

(** The action of a CSI sequence, by its final byte. *)
Definition csi_action (final : byte) : list string :=
  if bytes_eqb [final] [x43] then ["right"%string]
  else if bytes_eqb [final] [x44] then ["left"%string]
  else [].

(** The loop of [parse_keys] read on [rest], the bytes from index [i]
    on; the result is the actions and the bytes left. *)
Fixpoint decode_rest (fuel : nat) (rest : bytes) (actions : list string)
    : list string * bytes :=
  match fuel with
  | O => (actions, rest)
  | S fuel' =>
      match rest with
      | [] => (actions, [])
      | b :: tl =>
          if negb (Byte.to_N b =? 0x1b)%N then
            decode_rest fuel' tl
              (if (Byte.to_N b =? 0x03)%N then actions ++ ["quit"%string]
               else actions)
          else if bytes_eqb (firstn 3 rest) [x1b; x5b; x43] then
            decode_rest fuel' (skipn 3 rest) (actions ++ ["right"%string])
          else if bytes_eqb (firstn 3 rest) [x1b; x5b; x44] then
            decode_rest fuel' (skipn 3 rest) (actions ++ ["left"%string])
          else if bytes_eqb (firstn 3 rest) [x1b; x4f; x43] then
            decode_rest fuel' (skipn 3 rest) (actions ++ ["right"%string])
          else if bytes_eqb (firstn 3 rest) [x1b; x4f; x44] then
            decode_rest fuel' (skipn 3 rest) (actions ++ ["left"%string])
          else
            match tl with
            | c :: tl2 =>
                if (Byte.to_N c =? 0x5b)%N then
                  match skipn (param_run tl2) tl2 with
                  | final :: tl3 =>
                      decode_rest fuel' tl3 (actions ++ csi_action final)
                  | [] => (actions, rest)
                  end
                else decode_rest fuel' tl actions
            | [] => decode_rest fuel' tl actions
            end
      end
  end.

(** An unfinished CSI sequence: [ESC [] and parameter bytes. *)
Definition partial_csi (rest : bytes) : Prop :=
  exists params,
    rest = x1b :: x5b :: params /\
    forallb (fun b => negb (is_final_byte b)) params = true.

(** The three actions of the viewer. *)
Definition is_action (a : string) : Prop :=
  a = "left"%string \/ a = "right"%string \/ a = "quit"%string.

End KeysSuffix.

(* ------------------------------------------------------------------ *)
(** ** Painting: [render] and the repaint at the end of a loop round *)

Module Paint.
Import Tokenizer Width Slicer Main.

(** [ESC + "[2J"], [ESC + "[H"], [ESC + "[2K"], ["\r\n"] *)
Definition CLEAR_SCREEN : str := [ESC; 0x5b; 0x32; 0x4a]%N.
Definition HOME : str := [ESC; 0x5b; 0x48]%N.
Definition CLEAR_LINE : str := [ESC; 0x5b; 0x32; 0x4b]%N.
Definition CRLF : str := [0x0d; 0x0a]%N.

(** What one round of the [for] loop of [render] writes, for the row [idx]. *)
Definition render_row (db : unicode_db) (lines : list str)
    (term_width term_height xoff : Z) (idx : nat) : str :=
  RESET ++ CLEAR_LINE
  ++ (if idx <? length lines
      then slice_ansi db (nth idx lines []) xoff term_width
      else [])
  ++ (if (Z.of_nat idx <? term_height - 1)%Z then CRLF else []).

(** [render(lines, term_width, term_height, xoff, first)]: the text
    written to standard output, in order. *)
Definition render (db : unicode_db) (lines : list str)
    (term_width term_height xoff : Z) (first : bool) : str :=
  (if first then CLEAR_SCREEN else [])
  ++ HOME
  ++ concat (map (render_row db lines term_width term_height xoff)
               (seq 0 (Z.to_nat term_height))).

(** Lines 398-404: the end of a round of the loop. The result is the
    viewer, the value of [first] and the text written. *)
Definition repaint (db : unicode_db) (v : viewer) (first : bool)
    : viewer * bool * str :=
  if dirty v then
    let max_xoff :=
      Z.max 0 (max_width db (Deque.items (lines v)) - term_width v) in
    let xoff' := Z.min (xoff v) max_xoff in
    ({| term_width := term_width v; term_height := term_height v;
        lines := lines v; xoff := xoff'; inbuf := inbuf v;
        keybuf := keybuf v; dirty := false |},
     false,
     render db (Deque.items (lines v)) (term_width v) (term_height v) xoff' first)
  else (v, first, []).

(** What the loop keeps true of its variables: the buffer holds at most
    as many lines as the terminal has rows, its capacity is the number of
    rows, the terminal has at least one row and one column, and the
    offset is not negative. *)
Definition viewer_ok (v : viewer) : Prop :=
  Deque.bounded (lines v) /\
  Deque.maxlen (lines v) = term_height v /\
  (1 <= term_height v)%Z /\
  (1 <= term_width v)%Z /\
  (0 <= xoff v)%Z.

(** The records of an input: its parts between newlines, without the
    empty part after a final newline. *)
Definition records (data : bytes) : list bytes :=
  removelast (split NL data)
  ++ match last (split NL data) [] with
     | [] => []
     | _ :: _ => [last (split NL data) []]
     end.

End Paint.

(* ================================================================== *)
(* ================================================================== *)
(** * Theorems *)

Unset Implicit Arguments.

(* ================================================================== *)
(** * Facts about the tokenizer *)

Section TokenizerFacts.
Import Tokenizer EscapeForms.

Lemma skipn_char_at (line : str) (i : nat) :
  i < length line -> skipn i line = char_at line i :: skipn (i + 1) line.
Proof.
  revert i; induction line as [|c l IH]; intros i Hi; simpl in Hi; [lia|].
  destruct i as [|i]; [reflexivity|].
  simpl. apply IH. lia.
Qed.

Lemma substr_skipn (line : str) (a b : nat) :
  a <= b -> substr line a b ++ skipn b line = skipn a line.
Proof.
  intros Hab. unfold substr.
  replace b with ((b - a) + a) at 2 by lia.
  rewrite <- skipn_skipn. apply firstn_skipn.
Qed.

Lemma substr_to_end (line : str) (a : nat) :
  substr line a (length line) = skipn a line.
Proof.
  unfold substr. apply firstn_all2. rewrite length_skipn. lia.
Qed.

Lemma substr_of_app (line s rest : str) (a : nat) :
  skipn a line = s ++ rest -> substr line a (a + length s) = s.
Proof.
  intros H. unfold substr. rewrite H.
  replace (a + length s - a) with (length s + 0) by lia.
  rewrite firstn_app_2. simpl. apply app_nil_r.
Qed.

(** The CSI loop, read on the text it has left. *)
Lemma csi_loop_suffix (line : str) (start : nat) :
  forall fuel i, length line - i <= fuel -> i <= length line ->
    csi_loop fuel line start i =
    match csi_len (skipn i line) with
    | Some n => (substr line start (i + n), i + n)
    | None => (substr_from line start, length line)
    end.
Proof.
  induction fuel as [|fuel IH]; intros i Hf Hi.
  - assert (i = length line) by lia. subst i.
    rewrite skipn_all. reflexivity.
  - simpl. destruct (Nat.ltb_spec i (length line)) as [Hlt|Hge].
    + rewrite (skipn_char_at line i Hlt). simpl.
      destruct (is_csi_final (char_at line i)); [reflexivity|].
      rewrite IH by lia.
      destruct (csi_len (skipn (i + 1) line)); simpl; [|reflexivity].
      replace (i + 1 + n) with (i + S n) by lia. reflexivity.
    + assert (i = length line) by lia. subst i.
      rewrite skipn_all. reflexivity.
Qed.

Lemma osc_loop_suffix (line : str) (start : nat) :
  forall fuel i, length line - i <= fuel -> i <= length line ->
    osc_loop fuel line start i =
    match osc_len (skipn i line) with
    | Some n => (substr line start (i + n), i + n)
    | None => (substr_from line start, length line)
    end.
Proof.
  induction fuel as [|fuel IH]; intros i Hf Hi.
  - assert (i = length line) by lia. subst i.
    rewrite skipn_all. reflexivity.
  - simpl. destruct (Nat.ltb_spec i (length line)) as [Hlt|Hge].
    + rewrite (skipn_char_at line i Hlt). simpl.
      destruct (char_at line i =? BEL)%N; [reflexivity|].
      assert (Hnext : ((i + 1 <? length line) && (char_at line (i + 1) =? 0x5c)%N) =
                      match skipn (i + 1) line with
                      | d :: _ => (d =? 0x5c)%N
                      | [] => false
                      end).
      { destruct (Nat.ltb_spec (i + 1) (length line)) as [H1|H1].
        - rewrite (skipn_char_at line (i + 1) H1). reflexivity.
        - rewrite skipn_all2 by lia. reflexivity. }
      rewrite <- andb_assoc, Hnext.
      destruct ((char_at line i =? ESC)%N && _); [reflexivity|].
      rewrite IH by lia.
      destruct (osc_len (skipn (i + 1) line)); simpl; [|reflexivity].
      replace (i + 1 + n) with (i + S n) by lia. reflexivity.
    + assert (i = length line) by lia. subst i.
      rewrite skipn_all. reflexivity.
Qed.

Lemma csi_len_bound (rest : str) (n : nat) :
  csi_len rest = Some n -> 1 <= n <= length rest.
Proof.
  revert n; induction rest as [|c r IH]; intros n; simpl; [discriminate|].
  destruct (is_csi_final c).
  - intros [= <-]. lia.
  - destruct (csi_len r) as [m|]; simpl; [|discriminate].
    intros [= <-]. specialize (IH m eq_refl). lia.
Qed.

Lemma osc_len_bound (rest : str) (n : nat) :
  osc_len rest = Some n -> 1 <= n <= length rest.
Proof.
  revert n; induction rest as [|c r IH]; intros n; simpl; [discriminate|].
  destruct (c =? BEL)%N.
  - intros [= <-]. lia.
  - destruct ((c =? ESC)%N && _) eqn:E.
    + intros [= <-]. destruct r; simpl.
      * rewrite andb_false_r in E. discriminate.
      * lia.
    + destruct (osc_len r) as [m|]; simpl; [|discriminate].
      intros [= <-]. specialize (IH m eq_refl). lia.
Qed.

(** What [_consume_ansi] returns is [line[start:j]] for the index [j] it
    returns, and [j] is past [start] and inside the line. *)
Lemma consume_ansi_spec (line : str) (start : nat) :
  start < length line ->
  forall seq j, _consume_ansi line start = (seq, j) ->
    start < j <= length line /\ seq = substr line start j.
Proof.
  intros Hs seq j. unfold _consume_ansi.
  destruct (Nat.leb_spec (length line) (start + 1)) as [H1|H1].
  - intros [= <- <-]. split; [lia|reflexivity].
  - destruct (char_at line (start + 1) =? 0x5b)%N.
    { rewrite csi_loop_suffix by lia.
      destruct (csi_len (skipn (start + 2) line)) as [n|] eqn:E.
      - apply csi_len_bound in E. rewrite length_skipn in E.
        intros [= <- <-]. split; [lia|reflexivity].
      - intros [= <- <-]. split; [lia|]. symmetry. apply substr_to_end. }
    destruct (char_at line (start + 1) =? 0x5d)%N.
    { rewrite osc_loop_suffix by lia.
      destruct (osc_len (skipn (start + 2) line)) as [n|] eqn:E.
      - apply osc_len_bound in E. rewrite length_skipn in E.
        intros [= <- <-]. split; [lia|reflexivity].
      - intros [= <- <-]. split; [lia|]. symmetry. apply substr_to_end. }
    destruct (is_charset_intro (char_at line (start + 1))).
    { destruct (Nat.ltb_spec (start + 2) (length line)).
      - intros [= <- <-]. split; [lia|reflexivity].
      - intros [= <- <-]. split; [lia|]. symmetry. apply substr_to_end. }
    intros [= <- <-]. split; [lia|reflexivity].
Qed.

(** The tokens from index [i] on spell [line[i:]]; any fuel that covers
    the characters left gives the same tokens. *)
Lemma iter_tokens_from_raw (line : str) :
  forall fuel i, length line - i <= fuel ->
    raw_text (iter_tokens_from fuel line i) = skipn i line.
Proof.
  induction fuel as [|fuel IH]; intros i Hf.
  - simpl. rewrite skipn_all2 by lia. reflexivity.
  - simpl. destruct (Nat.ltb_spec i (length line)) as [Hlt|Hge].
    + destruct (char_at line i =? ESC)%N.
      * destruct (_consume_ansi line i) as [seq j] eqn:E.
        destruct (consume_ansi_spec line i Hlt _ _ E) as [Hj ->].
        unfold raw_text in *. simpl. rewrite IH by lia.
        apply substr_skipn. lia.
      * unfold raw_text in *. simpl. rewrite IH by lia.
        symmetry. apply skipn_char_at. exact Hlt.
    + rewrite skipn_all2 by lia. reflexivity.
Qed.

Lemma iter_tokens_from_fuel (line : str) :
  forall fuel fuel' i, length line - i <= fuel -> length line - i <= fuel' ->
    iter_tokens_from fuel line i = iter_tokens_from fuel' line i.
Proof.
  induction fuel as [|fuel IH]; intros fuel' i Hf Hf'.
  - destruct fuel'; simpl; [reflexivity|].
    destruct (Nat.ltb_spec i (length line)); [lia|reflexivity].
  - destruct fuel' as [|fuel']; simpl.
    + destruct (Nat.ltb_spec i (length line)); [lia|reflexivity].
    + destruct (Nat.ltb_spec i (length line)) as [Hlt|Hge]; [|reflexivity].
      destruct (char_at line i =? ESC)%N.
      * destruct (_consume_ansi line i) as [seq j] eqn:E.
        destruct (consume_ansi_spec line i Hlt _ _ E) as [Hj _].
        f_equal. apply IH; lia.
      * f_equal. apply IH; lia.
Qed.


Lemma skipn_cons_inv (line : str) (k : nat) (a : char) (r : str) :
  skipn k line = a :: r ->
  k < length line /\ char_at line k = a /\ skipn (k + 1) line = r.
Proof.
  intros H.
  assert (Hk : k < length line).
  { destruct (Nat.ltb_spec k (length line)) as [Hlt|Hge]; [exact Hlt|].
    rewrite skipn_all2 in H by lia. discriminate. }
  rewrite (skipn_char_at line k Hk) in H. injection H as H1 H2.
  auto.
Qed.

Lemma csi_len_full (params : str) (final : char) (rest : str) :
  Forall (fun c => is_csi_final c = false) params ->
  is_csi_final final = true ->
  csi_len (params ++ final :: rest) = Some (length params + 1).
Proof.
  intros Hp Hf. induction Hp as [|c l Hc Hl IH]; simpl.
  - rewrite Hf. reflexivity.
  - rewrite Hc, IH. reflexivity.
Qed.

Lemma has_st_cons (c d : char) (l : str) :
  has_st (c :: d :: l) = false ->
  ((c =? ESC)%N && (d =? 0x5c)%N) = false /\ has_st (d :: l) = false.
Proof.
  simpl. intros H. apply orb_false_iff in H. exact H.
Qed.

Lemma osc_len_bel (body rest : str) :
  osc_body body -> osc_len (body ++ BEL :: rest) = Some (length body + 1).
Proof.
  intros [Hb Hs]. induction body as [|c l IH]; simpl.
  - reflexivity.
  - inversion Hb as [|? ? Hc Hl]; subst.
    apply N.eqb_neq in Hc. rewrite Hc.
    destruct l as [|d l'].
    + simpl. rewrite andb_false_r. reflexivity.
    + destruct (has_st_cons c d l' Hs) as [Hp Hs'].
      change ((d :: l') ++ BEL :: rest) with (d :: (l' ++ BEL :: rest)) at 1.
      cbv iota beta. rewrite Hp, (IH Hl Hs'). reflexivity.
Qed.

Lemma osc_len_st (body rest : str) :
  osc_body body ->
  osc_len (body ++ ESC :: 0x5c%N :: rest) = Some (length body + 2).
Proof.
  intros [Hb Hs]. induction body as [|c l IH]; simpl.
  - reflexivity.
  - inversion Hb as [|? ? Hc Hl]; subst.
    apply N.eqb_neq in Hc. rewrite Hc.
    destruct l as [|d l'].
    + simpl. rewrite andb_false_r. reflexivity.
    + destruct (has_st_cons c d l' Hs) as [Hp Hs'].
      change ((d :: l') ++ ESC :: 0x5c%N :: rest)
        with (d :: (l' ++ ESC :: 0x5c%N :: rest)) at 1.
      cbv iota beta. rewrite Hp, (IH Hl Hs'). reflexivity.
Qed.

Lemma charset_intro_not_bracket (d : char) :
  is_charset_intro d = true -> (d =? 0x5b)%N = false /\ (d =? 0x5d)%N = false.
Proof.
  unfold is_charset_intro. intros H.
  repeat (apply orb_true_iff in H; destruct H as [H|H]);
    apply N.eqb_eq in H; subst d; split; reflexivity.
Qed.

(** Where the line holds a complete escape form at [k], [_consume_ansi]
    returns exactly that form. *)
Lemma consume_ansi_full (line : str) (k : nat) (s rest : str) :
  skipn k line = s ++ rest -> full_escape s ->
  _consume_ansi line k = (s, k + length s).
Proof.
  intros Hsk Hfull.
  assert (Hsub : substr line k (k + length s) = s)
    by (apply substr_of_app with (rest := rest); exact Hsk).
  assert (Hlen := f_equal (@length _) Hsk).
  rewrite length_skipn, length_app in Hlen.
  destruct Hfull as [params final Hp Hf | body Hb | body Hb | d x Hd | x H1 H2 H3];
    simpl in Hsk;
    destruct (skipn_cons_inv line k _ _ Hsk) as (Hk & _ & Hsk1);
    destruct (skipn_cons_inv line (k + 1) _ _ Hsk1) as (Hk1 & Hnxt & Hsk2);
    replace (k + 1 + 1) with (k + 2) in Hsk2 by lia;
    unfold _consume_ansi;
    (destruct (Nat.leb_spec (length line) (k + 1)); [lia|]);
    rewrite Hnxt.
  - change (0x5b =? 0x5b)%N with true. cbv iota.
    rewrite csi_loop_suffix by lia.
    rewrite Hsk2, <- app_assoc. simpl app.
    rewrite (csi_len_full params final rest Hp Hf).
    simpl length in *. rewrite length_app in *. simpl length in *.
    replace (k + 2 + (length params + 1)) with (k + S (S (length params + 1))) by lia.
    rewrite Hsub. reflexivity.
  - change (0x5d =? 0x5b)%N with false. change (0x5d =? 0x5d)%N with true. cbv iota.
    rewrite osc_loop_suffix by lia.
    rewrite Hsk2, <- app_assoc. simpl app.
    rewrite (osc_len_bel body rest Hb).
    simpl length in *. rewrite length_app in *. simpl length in *.
    replace (k + 2 + (length body + 1)) with (k + S (S (length body + 1))) by lia.
    rewrite Hsub. reflexivity.
  - change (0x5d =? 0x5b)%N with false. change (0x5d =? 0x5d)%N with true. cbv iota.
    rewrite osc_loop_suffix by lia.
    rewrite Hsk2, <- app_assoc. simpl app.
    change (osc_len _) with (osc_len (body ++ ESC :: 0x5c%N :: rest)).
    rewrite (osc_len_st body rest Hb).
    simpl length in *. rewrite length_app in *. simpl length in *.
    replace (k + 2 + (length body + 2)) with (k + S (S (length body + 2))) by lia.
    rewrite Hsub. reflexivity.
  - destruct (charset_intro_not_bracket d Hd) as [-> ->]. rewrite Hd.
    simpl length in *.
    destruct (Nat.ltb_spec (k + 2) (length line)); [|lia].
    rewrite Hsub. reflexivity.
  - apply N.eqb_neq in H1, H2. rewrite H1, H2, H3.
    simpl length in *. rewrite Hsub. reflexivity.
Qed.

(** An escape token of the line is what [_consume_ansi] returned at the
    index the token starts at, and the tokens after it spell the text
    from the index it returned. *)
Lemma iter_tokens_from_escape (line : str) :
  forall fuel i pre seq post, length line - i <= fuel ->
    iter_tokens_from fuel line i = pre ++ (true, seq) :: post ->
    exists k j, k < length line /\ _consume_ansi line k = (seq, j) /\
                raw_text post = skipn j line.
Proof.
  induction fuel as [|fuel IH]; intros i pre seq post Hf H.
  - destruct pre; discriminate.
  - simpl in H. destruct (Nat.ltb_spec i (length line)) as [Hlt|Hge];
      [|destruct pre; discriminate].
    destruct (char_at line i =? ESC)%N.
    + destruct (_consume_ansi line i) as [seq0 j] eqn:E.
      destruct (consume_ansi_spec line i Hlt _ _ E) as [Hj _].
      destruct pre as [|t pre].
      * simpl in H. injection H as -> <-.
        exists i, j. repeat split; auto.
        apply iter_tokens_from_raw. lia.
      * simpl in H. injection H as _ H.
        apply (IH j pre seq post); [lia|exact H].
    + destruct pre as [|t pre]; [discriminate|].
      simpl in H. injection H as _ H.
      apply (IH (i + 1) pre seq post); [lia|exact H].
Qed.

End TokenizerFacts.

(* ================================================================== *)
(** * Facts about widths and the slicer *)

Section WidthFacts.
Import Tokenizer Width Columns.

Lemma char_width_nonneg (db : unicode_db) (ch : str) : (0 <= _char_width db ch)%Z.
Proof.
  unfold _char_width. destruct (wcwidth db) as [wc|].
  - destruct (Z.ltb_spec (wc (ord ch)) 0); lia.
  - repeat match goal with |- context [if ?b then _ else _] => destruct b end; lia.
Qed.

Lemma char_width_ascii (db : unicode_db) (c : char) :
  ascii_db db -> printable_ascii c -> _char_width db [c] = 1%Z.
Proof.
  unfold ascii_db, printable_ascii, _char_width. intros Hdb Hc.
  destruct (wcwidth db) as [wc|]; simpl.
  - rewrite (Hdb c Hc). reflexivity.
  - destruct (Hdb c Hc) as (H1 & H2 & H3).
    destruct (N.ltb_spec c 0x20); [lia|].
    destruct (N.leb_spec 0x7f c); [lia|]. simpl.
    rewrite H1. simpl.
    apply String.eqb_neq in H2. rewrite H2, H3. reflexivity.
Qed.

End WidthFacts.

Section SlicerFacts.
Import Tokenizer Width Slicer Columns.

Variable db : unicode_db.
Variables start_col width : Z.

Local Abbreviation loop := (slice_loop db start_col width).

(** Once the window has started it stays started. *)
Lemma slice_loop_started (toks : list token) :
  forall st, started st = true -> started (loop toks st) = true.
Proof.
  induction toks as [|[is_ansi tok] rest IH]; intros st Hst; simpl; [exact Hst|].
  destruct is_ansi.
  - rewrite Hst. simpl. apply IH; simpl; auto.
  - destruct (_char_width db tok <=? 0)%Z.
    + rewrite Hst. apply IH; simpl; auto.
    + destruct (pos st + _char_width db tok <=? start_col)%Z.
      * apply IH; simpl; auto.
      * unfold start_window. rewrite Hst. simpl.
        destruct (width <=? visible st + _char_width db tok)%Z; [exact Hst|].
        apply IH; simpl; auto.
Qed.

(** Before the window starts: the tokens of [pre], whose visible
    characters all lie left of the window, leave in the state only the
    column reached and the escape sequences, buffered in [prefix]. *)
Lemma slice_loop_skip (pre post : list token) :
  forall st, started st = false ->
    Forall (left_of start_col) (columns_from db pre (pos st)) ->
    loop (pre ++ post) st =
    loop post {| pos := visible_width_loop db pre (pos st);
                 visible := visible st; started := false;
                 prefix := prefix st ++ escapes pre; out := out st |}.
Proof.
  induction pre as [|[is_ansi tok] rest IH]; intros st Hst Hleft.
  - simpl. unfold escapes. simpl. rewrite app_nil_r.
    destruct st; simpl in *; subst; reflexivity.
  - simpl in Hleft |- *. destruct is_ansi.
    + rewrite Hst. simpl. rewrite IH by (simpl; auto). simpl.
      unfold escapes, raw_text. simpl. rewrite app_assoc. reflexivity.
    + pose proof (char_width_nonneg db tok) as Hw.
      destruct (Z.leb_spec (_char_width db tok) 0) as [H0|H0].
      * rewrite Hst.
        destruct (Z.ltb_spec 0 (_char_width db tok)); [lia|].
        rewrite IH by auto.
        replace (pos st + _char_width db tok)%Z with (pos st) by lia.
        reflexivity.
      * destruct (Z.ltb_spec 0 (_char_width db tok)); [|lia].
        inversion Hleft as [|? ? Hhd Htl]; subst. simpl in Hhd.
        destruct (Z.leb_spec (pos st + _char_width db tok) start_col); [|lia].
        rewrite IH by (simpl; auto). reflexivity.
Qed.

(** Inside the window every token is emitted, up to the [break]. *)
Lemma slice_loop_emit (toks : list token) :
  forall st, started st = true -> (start_col < pos st)%Z ->
    exists emitted later,
      toks = emitted ++ later /\
      out (loop toks st) = out st ++ map snd emitted.
Proof.
  induction toks as [|[is_ansi tok] rest IH]; intros st Hst Hpos.
  - exists [], []. simpl. rewrite app_nil_r. auto.
  - simpl. destruct is_ansi.
    + rewrite Hst. simpl.
      edestruct IH as (em & lt & -> & Hout); [| |exists ((true, tok) :: em), lt; split;
        [reflexivity|rewrite Hout; simpl; rewrite <- app_assoc; reflexivity]]; simpl; auto.
    + pose proof (char_width_nonneg db tok) as Hw.
      destruct (Z.leb_spec (_char_width db tok) 0) as [H0|H0].
      * rewrite Hst.
        edestruct IH as (em & lt & -> & Hout); [| |exists ((false, tok) :: em), lt; split;
          [reflexivity|rewrite Hout; simpl; rewrite <- app_assoc; reflexivity]]; simpl; auto.
      * destruct (Z.leb_spec (pos st + _char_width db tok) start_col); [lia|].
        unfold start_window. rewrite Hst. simpl.
        destruct (width <=? visible st + _char_width db tok)%Z.
        -- exists [(false, tok)], rest. simpl. auto.
        -- edestruct IH as (em & lt & -> & Hout); [| |exists ((false, tok) :: em), lt; split;
             [reflexivity|rewrite Hout; simpl; rewrite <- app_assoc; reflexivity]];
             simpl; auto; lia.
Qed.

(** Whether the window starts: some visible character ends right of
    [start_col]. *)
Lemma slice_loop_started_iff (toks : list token) :
  forall st, started st = false ->
    started (loop toks st) =
    existsb (fun e : cell => let '(_, p, w) := e in (start_col <? p + w)%Z)
            (columns_from db toks (pos st)).
Proof.
  induction toks as [|[is_ansi tok] rest IH]; intros st Hst; simpl; [exact Hst|].
  destruct is_ansi.
  - rewrite Hst. simpl. rewrite IH by auto. reflexivity.
  - pose proof (char_width_nonneg db tok) as Hw.
    destruct (Z.leb_spec (_char_width db tok) 0) as [H0|H0].
    + rewrite Hst. destruct (Z.ltb_spec 0 (_char_width db tok)); [lia|].
      apply IH; simpl; auto.
    + destruct (Z.ltb_spec 0 (_char_width db tok)); [|lia]. simpl.
      destruct (Z.leb_spec (pos st + _char_width db tok) start_col).
      * destruct (Z.ltb_spec start_col (pos st + _char_width db tok)); [lia|].
        simpl. rewrite IH by auto. reflexivity.
      * destruct (Z.ltb_spec start_col (pos st + _char_width db tok)); [|lia].
        simpl. unfold start_window. rewrite Hst. simpl.
        destruct (width <=? visible st + _char_width db tok)%Z; [reflexivity|].
        apply slice_loop_started. reflexivity.
Qed.

(** The cells of a token list are laid out from the column [p] on. *)
Lemma columns_from_ge (toks : list token) :
  forall p e, In e (columns_from db toks p) -> (p <= snd (fst e))%Z.
Proof.
  induction toks as [|[is_ansi tok] rest IH]; intros p e Hin; simpl in Hin; [tauto|].
  destruct is_ansi; [auto|].
  destruct (Z.ltb_spec 0 (_char_width db tok)); [|auto].
  destruct Hin as [<-|Hin]; simpl; [lia|].
  apply IH in Hin. lia.
Qed.

Lemma window_of_started (toks : list token) :
  forall p, (p <= start_col)%Z -> (0 < width)%Z ->
    existsb (fun e : cell => let '(_, p, w) := e in (start_col <? p + w)%Z)
            (columns_from db toks p) = true ->
    exists e, In e (columns_from db toks p) /\ in_window start_col width e.
Proof.
  induction toks as [|[is_ansi tok] rest IH]; intros p Hp Hw Hex; simpl in *;
    [discriminate|].
  destruct is_ansi; [auto|].
  destruct (Z.ltb_spec 0 (_char_width db tok)); [|auto].
  simpl in Hex.
  destruct (Z.ltb_spec start_col (p + _char_width db tok)).
  - exists (tok, p, _char_width db tok). split; [left; reflexivity|].
    simpl. lia.
  - simpl in Hex. destruct (IH (p + _char_width db tok)%Z) as (e & He & Hwin); auto.
    exists e. split; [right; exact He|exact Hwin].
Qed.

Lemma started_of_window (cells : list cell) (e : cell) :
  In e cells -> in_window start_col width e ->
  existsb (fun e : cell => let '(_, p, w) := e in (start_col <? p + w)%Z) cells = true.
Proof.
  intros Hin Hwin. apply existsb_exists. exists e. split; [exact Hin|].
  destruct e as [[tok p] w]. simpl in Hwin. apply Z.ltb_lt. lia.
Qed.

Lemma slice_ansi_tokens (line : str) :
  slice_ansi db line start_col width = slice_tokens db (_iter_tokens line) start_col width.
Proof. reflexivity. Qed.

End SlicerFacts.

(* ================================================================== *)
(** * The slicer and the widths: claims *)

Section ReferenceTables.
Import Width Columns UnicodeRef.

Lemma unicode_ref_ascii : ascii_db unicode_ref.
Proof.
  unfold ascii_db, printable_ascii. simpl. intros c Hc.
  assert (Hr : in_range 0x20 0x7e c = true).
  { unfold in_range. apply andb_true_iff. split; apply N.leb_le; lia. }
  repeat split.
  - unfold ref_combining. destruct (N.eqb_spec c 0x301); [lia|reflexivity].
  - unfold ref_category.
    repeat match goal with
           | |- (if ?b then _ else _) <> _ => destruct b eqn:?; [discriminate|]
           end.
    exfalso.
    match goal with
    | H1 : (c =? 0x20)%N = false, H2 : in_range 0x21 0x7e c = false |- _ =>
        apply N.eqb_neq in H1; unfold in_range in H2;
        apply andb_false_iff in H2; destruct H2 as [H2|H2];
        [apply N.leb_gt in H2|apply N.leb_gt in H2]; lia
    end.
  - unfold ref_east_asian_width. rewrite Hr. reflexivity.
Qed.

Lemma unicode_ref_wc_ascii : ascii_db unicode_ref_wc.
Proof.
  unfold ascii_db, printable_ascii. simpl. intros c Hc.
  unfold ref_wcwidth, in_range.
  repeat match goal with
         | |- context [(?a <=? ?b)%N] => destruct (N.leb_spec a b)
         | |- context [(?a =? ?b)%N] => destruct (N.eqb_spec a b)
         end; simpl; try reflexivity; lia.
Qed.

End ReferenceTables.

Section AsciiLines.
Import Tokenizer Width Slicer Columns Examples.

(** Two tables that hold the data of printable ASCII slice alike a line
    made of escape sequences and printable ASCII. *)
Lemma slice_loop_ascii_ext (db db' : unicode_db) (start_col width : Z) :
  ascii_db db -> ascii_db db' ->
  forall toks, forallb ascii_token toks = true ->
  forall st, slice_loop db start_col width toks st =
             slice_loop db' start_col width toks st.
Proof.
  intros Hdb Hdb'. induction toks as [|[is_ansi tok] rest IH]; intros Hall st;
    [reflexivity|].
  simpl in Hall. apply andb_true_iff in Hall. destruct Hall as [Ht Hrest].
  simpl. destruct is_ansi.
  - destruct (negb (started st)); apply IH; exact Hrest.
  - unfold ascii_token in Ht. simpl in Ht.
    destruct tok as [|c [|c' tok']]; try discriminate.
    assert (Hc : printable_ascii c).
    { apply andb_true_iff in Ht. destruct Ht as [H1 H2].
      apply N.leb_le in H1, H2. split; assumption. }
    rewrite (char_width_ascii db c Hdb Hc), (char_width_ascii db' c Hdb' Hc).
    simpl.
    destruct (pos st + 1 <=? start_col)%Z; [apply IH; exact Hrest|].
    match goal with |- (if ?b then _ else _) = _ => destruct b end;
      [reflexivity|apply IH; exact Hrest].
Qed.

(** A line without the escape character is one token per character. *)
Lemma iter_tokens_plain (line : str) :
  Forall (fun c => c <> ESC) line ->
  forall fuel i, length line - i <= fuel ->
    iter_tokens_from fuel line i = map (fun c => (false, [c])) (skipn i line).
Proof.
  intros Hno. induction fuel as [|fuel IH]; intros i Hf.
  - rewrite skipn_all2 by lia. reflexivity.
  - simpl. destruct (Nat.ltb_spec i (length line)) as [Hlt|Hge].
    + rewrite (skipn_char_at line i Hlt). simpl.
      assert (Hc : char_at line i <> ESC).
      { rewrite Forall_forall in Hno. apply Hno. apply nth_In. exact Hlt. }
      apply N.eqb_neq in Hc. rewrite Hc. rewrite IH by lia. reflexivity.
    + rewrite skipn_all2 by lia. reflexivity.
Qed.

Lemma visible_width_loop_ascii (db : unicode_db) (l : str) :
  ascii_db db -> Forall printable_ascii l ->
  forall acc, visible_width_loop db (map (fun c => (false, [c])) l) acc =
              (acc + Z.of_nat (length l))%Z.
Proof.
  intros Hdb Hl. induction Hl as [|c l Hc Hl IH]; intros acc; simpl.
  - lia.
  - rewrite IH, (char_width_ascii db c Hdb Hc). lia.
Qed.

End AsciiLines.

Section SlicerClaims.
Import Tokenizer Width Slicer Columns Examples UnicodeRef.

(** C9. A string of printable ASCII characters (so without any escape
    sequence) is as wide as it is long: [visible_width] returns its
    length. The tables are assumed to hold the Unicode data of printable
    ASCII. *)
Theorem visible_width_printable_ascii (db : unicode_db) (line : str) :
  ascii_db db -> Forall printable_ascii line ->
  visible_width db line = Z.of_nat (length line).
Proof.
  intros Hdb Hline. unfold visible_width, _iter_tokens.
  rewrite iter_tokens_plain.
  - simpl. apply (visible_width_loop_ascii db line Hdb Hline 0%Z).
  - eapply Forall_impl; [|exact Hline].
    unfold printable_ascii, ESC. intros c Hc. lia.
  - lia.
Qed.

Lemma visible_width_printable_ascii_witness :
  visible_width unicode_ref hello = 5%Z.
Proof.
  apply (visible_width_printable_ascii unicode_ref hello unicode_ref_ascii).
  unfold hello, printable_ascii. repeat constructor; lia.
Defined.

(** C1 (amended). Of the line ["\x1b[31mHELLO\x1b[0m WORLD"],
    [slice(line, 0, 5)] is ["\x1b[31mHELLO\x1b[0m"], and
    [slice(line, 6, 5)] is ["\x1b[31m\x1b[0mWORLD\x1b[0m"]: the two escape
    sequences met before column 6 are buffered and emitted as they are,
    before [WORLD]. *)
Theorem slice_hello_world (db : unicode_db) :
  ascii_db db ->
  slice_ansi db hello_world 0 5 = sgr_red ++ hello ++ RESET /\
  slice_ansi db hello_world 6 5 = sgr_red ++ RESET ++ world ++ RESET.
Proof.
  intros Hdb. unfold slice_ansi.
  rewrite !(slice_loop_ascii_ext db unicode_ref _ _ Hdb unicode_ref_ascii)
    by reflexivity.
  split; reflexivity.
Qed.

Lemma slice_hello_world_witness :
  slice_ansi unicode_ref_wc hello_world 0 5 = sgr_red ++ hello ++ RESET /\
  slice_ansi unicode_ref_wc hello_world 6 5 = sgr_red ++ RESET ++ world ++ RESET.
Proof.
  exact (slice_hello_world unicode_ref_wc unicode_ref_wc_ascii).
Defined.

(** C1 as stated fails: [slice(line, 6, 5)] is not ["WORLD\x1b[0m"]. *)
Lemma slice_hello_world_no_bare_world :
  ~ (forall db, ascii_db db ->
       slice_ansi db hello_world 0 5 = sgr_red ++ hello ++ RESET /\
       slice_ansi db hello_world 6 5 = world ++ RESET).
Proof.
  intros H. destruct (H unicode_ref unicode_ref_ascii) as [_ H6].
  vm_compute in H6. discriminate H6.
Qed.


(** C3. For every line, start column (a column is a natural number; the
    loop keeps its offset at or above 0) and width: when the width is not
    positive, or no visible character of the line occupies a column of
    [[start_col, start_col + width)], the slice is the empty string,
    without prefix or reset; otherwise the slice ends with the reset
    sequence [ESC [0m], whether or not the line held one. *)
Theorem slice_empty_or_reset (db : unicode_db) (line : str) (start_col : N) (width : Z) :
  ((width <= 0)%Z \/
   ~ (exists e, In e (columns db line) /\ in_window (Z.of_N start_col) width e) ->
   slice_ansi db line (Z.of_N start_col) width = []) /\
  ((0 < width)%Z ->
   (exists e, In e (columns db line) /\ in_window (Z.of_N start_col) width e) ->
   exists body, slice_ansi db line (Z.of_N start_col) width = body ++ RESET).
Proof.
  unfold slice_ansi, columns.
  pose proof (slice_loop_started_iff db (Z.of_N start_col) width
                (_iter_tokens line) slice_init eq_refl) as Hst.
  simpl pos in Hst. split.
  - intros [Hw|Hno].
    + destruct (Z.leb_spec width 0); [reflexivity|lia].
    + destruct (Z.leb_spec width 0); [reflexivity|].
      rewrite Hst.
      destruct (existsb _ _) eqn:Hex; [|reflexivity].
      exfalso. apply Hno.
      apply (window_of_started db (Z.of_N start_col) width); [lia|assumption|exact Hex].
  - intros Hw (e & Hin & Hwin).
    destruct (Z.leb_spec width 0); [lia|].
    rewrite Hst.
    rewrite (started_of_window (Z.of_N start_col) width _ e Hin Hwin). simpl.
    exists (concat (out (slice_loop db (Z.of_N start_col) width
                           (_iter_tokens line) slice_init))).
    rewrite concat_app. reflexivity.
Qed.

Lemma slice_empty_or_reset_witness :
  slice_ansi unicode_ref hello_world 20 5 = [] /\
  exists body, slice_ansi unicode_ref hello_world 6 5 = body ++ RESET.
Proof.
  split.
  - apply (slice_empty_or_reset unicode_ref hello_world 20 5).
    right. intros (e & Hin & Hwin).
    vm_compute in Hin.
    repeat (destruct Hin as [<-|Hin]; [vm_compute in Hwin; destruct Hwin; discriminate|]).
    exact Hin.
  - apply (slice_empty_or_reset unicode_ref hello_world 6 5); [reflexivity|].
    exists ([0x57%N], 6%Z, 1%Z). split.
    + vm_compute. repeat (try (left; reflexivity); right).
    + vm_compute. split; reflexivity.
Defined.

(** C4 (amended). For every line, start column and positive width, the
    first visible character the slice emits is the first one whose
    column [pos] and width [w] give [pos + w > start_col]: every visible
    character before it, ending at or before [start_col], is left out, and
    so is every other character before it; the escape sequences before it
    are emitted together, as the prefix, right before it. After it the
    tokens that follow are emitted in order up to some point, then the
    reset. For a character of width 1, [pos + w > start_col] is
    [pos >= start_col]. *)
Theorem slice_first_emitted (db : unicode_db) (line : str) (start_col width : Z)
    (pre post : list token) (tok : str) :
  (0 < width)%Z ->
  _iter_tokens line = pre ++ (false, tok) :: post ->
  (0 < _char_width db tok)%Z ->
  Forall (left_of start_col) (columns_from db pre 0) ->
  (start_col < visible_width_loop db pre 0 + _char_width db tok)%Z ->
  exists emitted later,
    post = emitted ++ later /\
    slice_ansi db line start_col width =
    escapes pre ++ tok ++ raw_text emitted ++ RESET.
Proof.
  intros Hw Htoks Hwt Hleft Hfirst.
  unfold slice_ansi. destruct (Z.leb_spec width 0); [lia|].
  rewrite Htoks.
  rewrite (slice_loop_skip db start_col width pre _ slice_init eq_refl Hleft).
  simpl. set (p := visible_width_loop db pre 0) in *.
  destruct (Z.leb_spec (_char_width db tok) 0); [lia|].
  destruct (Z.leb_spec (p + _char_width db tok) start_col); [lia|].
  unfold start_window. cbn [started negb pos visible prefix out].
  set (o := match escapes pre with [] => [] | _ :: _ => [escapes pre] end).
  assert (Ho : concat o = escapes pre).
  { unfold o. destruct (escapes pre); simpl; [reflexivity|].
    rewrite app_nil_r. reflexivity. }
  destruct (width <=? _char_width db tok)%Z.
  - exists [], post. split; [reflexivity|]. simpl.
    rewrite !concat_app, Ho. simpl. rewrite ?app_nil_r, <- ?app_assoc. reflexivity.
  - match goal with
    | |- context [slice_loop db start_col width post ?st] =>
        destruct (slice_loop_emit db start_col width post st eq_refl)
          as (em & lt & Hpost & Hout); [simpl; lia|]
    end.
    exists em, lt. split; [exact Hpost|].
    rewrite slice_loop_started by reflexivity. simpl negb. cbv iota.
    rewrite Hout. cbn [out].
    rewrite !concat_app, Ho. simpl. unfold raw_text.
    rewrite ?app_nil_r, <- ?app_assoc. reflexivity.
Qed.

Lemma slice_first_emitted_witness :
  exists emitted later,
    [(false, [0x62%N])] = emitted ++ later /\
    slice_ansi unicode_ref wide_line 1 5 =
    escapes [(false, [0x61%N])] ++ [0x4e2d%N] ++ raw_text emitted ++ RESET.
Proof.
  apply (slice_first_emitted unicode_ref wide_line 1 5
           [(false, [0x61%N])] [(false, [0x62%N])] [0x4e2d%N]).
  - reflexivity.
  - reflexivity.
  - reflexivity.
  - vm_compute. repeat constructor. discriminate.
  - reflexivity.
Defined.

(** C4 as stated fails on a wide character. In ["a中b"] the columns are
    0, 1 and 3; the first character at a column [>= 2] is ["b"], and
    ["中"] is at column 1, below 2; yet [slice(line, 2, 5)] starts with
    ["中"]. *)
Lemma slice_emits_wide_char_below_start :
  columns unicode_ref wide_line =
    [([0x61%N], 0%Z, 1%Z); ([0x4e2d%N], 1%Z, 2%Z); ([0x62%N], 3%Z, 1%Z)] /\
  first_at_or_after 2 (columns unicode_ref wide_line) = Some [0x62%N] /\
  slice_ansi unicode_ref wide_line 2 5 = [0x4e2d; 0x62]%N ++ RESET.
Proof. repeat split. Qed.

(** C10. A zero-width character (a combining mark, a control character)
    that stands before the first visible character of the window is
    dropped: it is neither buffered into the prefix nor emitted, and the
    slice is the slice of the tokens without it. *)
Theorem zero_width_before_window_dropped (db : unicode_db) (line : str)
    (start_col width : Z) (pre post : list token) (z : str) :
  _iter_tokens line = pre ++ (false, z) :: post ->
  (_char_width db z <= 0)%Z ->
  Forall (left_of start_col) (columns_from db pre 0) ->
  slice_ansi db line start_col width = slice_tokens db (pre ++ post) start_col width.
Proof.
  intros Htoks Hz Hleft. unfold slice_ansi, slice_tokens.
  rewrite Htoks.
  rewrite !(slice_loop_skip db start_col width pre _ slice_init eq_refl Hleft).
  simpl. destruct (Z.leb_spec (_char_width db z) 0); [|lia].
  reflexivity.
Qed.

Lemma zero_width_before_window_dropped_witness :
  slice_ansi unicode_ref accent_line 1 5 = [0x62%N] ++ RESET.
Proof.
  apply (zero_width_before_window_dropped unicode_ref accent_line 1 5
           [(false, [0x61%N])] [(false, [0x62%N])] [0x301%N]).
  - reflexivity.
  - vm_compute. discriminate.
  - vm_compute. repeat constructor. discriminate.
Defined.

End SlicerClaims.

(* ================================================================== *)
(** * The key decoder *)

Section KeysFacts.
Import Keys.

Lemma skipn_byte_at (buf : bytes) (i : nat) :
  i < length buf -> skipn i buf = nth i buf x00 :: skipn (i + 1) buf.
Proof.
  revert i; induction buf as [|c l IH]; intros i Hi; simpl in Hi; [lia|].
  destruct i as [|i]; [reflexivity|].
  simpl. apply IH. lia.
Qed.

(** Over parameter bytes only, the inner loop runs to the end of the buffer. *)
Lemma skip_params_all (buf : bytes) :
  forall fuel j, length buf - j <= fuel -> j <= length buf ->
    forallb (fun b => negb (is_final_byte b)) (skipn j buf) = true ->
    skip_params fuel buf j = length buf.
Proof.
  induction fuel as [|fuel IH]; intros j Hf Hj Hall; simpl; [lia|].
  destruct (Nat.ltb_spec j (length buf)) as [Hlt|Hge]; simpl; [|lia].
  rewrite (skipn_byte_at buf j Hlt) in Hall. simpl in Hall.
  apply andb_true_iff in Hall. destruct Hall as [Hb Hrest].
  unfold byte_at. unfold is_final_byte in Hb. rewrite Hb.
  apply IH; [lia|lia|exact Hrest].
Qed.


Lemma param_byte_not_arrow (p : byte) :
  is_final_byte p = false -> Byte.eqb p x43 = false /\ Byte.eqb p x44 = false.
Proof. destruct p; intros H; try discriminate H; split; reflexivity. Qed.

(** A CSI sequence without its final byte is kept whole for the next
    read: the decoder reports no action and returns the buffer. *)
Lemma parse_keys_keeps_partial_csi (params : bytes) :
  forallb (fun b => negb (is_final_byte b)) params = true ->
  parse_keys (x1b :: x5b :: params) = ([], x1b :: x5b :: params).
Proof.
  intros Hall. unfold parse_keys.
  set (buf := x1b :: x5b :: params).
  assert (Hlen : length buf = S (S (length params))) by reflexivity.
  assert (Hj : skip_params (length buf - (0 + 2)) buf (0 + 2) = length buf).
  { apply skip_params_all; [lia|rewrite Hlen; lia|exact Hall]. }
  rewrite Hlen at 1. cbn [parse_loop].
  rewrite Hj.
  assert (Hs : forall c, (c = x43 \/ c = x44) ->
             startswith buf [x1b; x5b; c] 0 = false).
  { intros c Hc. unfold startswith, buf. destruct params as [|p ps]; [reflexivity|].
    simpl in Hall. apply andb_true_iff in Hall. destruct Hall as [Hp _].
    apply negb_true_iff in Hp.
    destruct (param_byte_not_arrow p Hp) as [H43 H44].
    simpl. destruct Hc as [-> | ->]; [rewrite H43|rewrite H44]; reflexivity. }
  rewrite (Hs x43), (Hs x44) by auto.
  rewrite Nat.ltb_irrefl.
  rewrite Hlen. reflexivity.
Qed.

End KeysFacts.

Section KeysClaims.
Import Keys.

(** C2, on the code: a lone [ESC] is consumed, not kept. Decoding [ESC]
    gives no action and an empty remainder, so decoding the remainder
    followed by [[C] gives no action either: the arrow key split after
    its first byte is lost, where the same three bytes in one read give
    one ["right"]. *)
Theorem parse_keys_drops_lone_esc :
  parse_keys [x1b] = ([], []) /\
  parse_keys (snd (parse_keys [x1b]) ++ [x5b; x43]) = ([], []) /\
  parse_keys [x1b; x5b; x43] = (["right"%string], []) /\
  parse_keys [x1b; x5b] = ([], [x1b; x5b]) /\
  parse_keys (snd (parse_keys [x1b; x5b]) ++ [x43]) = (["right"%string], []).
Proof. repeat split. Qed.

End KeysClaims.

(* ================================================================== *)
(** * The line buffer *)

Section DequeFacts.
Variable A : Type.
Implicit Types (d : Deque.deque A) (l : list A).

Lemma lastn_all (n : nat) l : length l <= n -> lastn n l = l.
Proof.
  intros H. unfold lastn. replace (length l - n) with 0 by lia. reflexivity.
Qed.

Lemma lastn_length (n : nat) l : length (lastn n l) = Nat.min n (length l).
Proof. unfold lastn. rewrite length_skipn. lia. Qed.

Lemma lastn_app_r (n : nat) l1 l2 :
  n <= length l2 -> lastn n (l1 ++ l2) = lastn n l2.
Proof.
  intros H. unfold lastn. rewrite length_app, skipn_app.
  rewrite skipn_all2 by lia. simpl. f_equal. lia.
Qed.

Lemma lastn_lastn_app (n : nat) l1 l2 :
  lastn n (lastn n l1 ++ l2) = lastn n (l1 ++ l2).
Proof.
  unfold lastn at 1 3. rewrite !length_app, lastn_length, !skipn_app.
  unfold lastn. rewrite skipn_skipn, length_skipn.
  f_equal; f_equal; lia.
Qed.

Lemma append_items d (x : A) :
  Deque.bounded d ->
  Deque.items (Deque.append d x) = lastn (Z.to_nat (Deque.maxlen d)) (Deque.items d ++ [x]) /\
  Deque.bounded (Deque.append d x).
Proof.
  intros [H0 Hb]. unfold Deque.append, Deque.bounded. simpl.
  rewrite length_app. simpl.
  destruct (Z.ltb_spec (Deque.maxlen d) (Z.of_nat (length (Deque.items d) + 1))) as [Hlt|Hge].
  - assert (Hlen : length (Deque.items d) = Z.to_nat (Deque.maxlen d)) by lia.
    split.
    + unfold lastn. rewrite length_app. simpl.
      replace (length (Deque.items d) + 1 - Z.to_nat (Deque.maxlen d)) with 1 by lia.
      reflexivity.
    + split; [exact H0|].
      destruct (Deque.items d); simpl in *; rewrite ?length_app; simpl; lia.
  - split.
    + rewrite lastn_all; [reflexivity|]. rewrite length_app. simpl. lia.
    + rewrite length_app. simpl. lia.
Qed.

Lemma extend_items l :
  forall d, Deque.bounded d ->
    Deque.items (Deque.extend d l) = lastn (Z.to_nat (Deque.maxlen d)) (Deque.items d ++ l) /\
    Deque.maxlen (Deque.extend d l) = Deque.maxlen d /\
    Deque.bounded (Deque.extend d l).
Proof.
  induction l as [|x l IH]; intros d Hd.
  - simpl. rewrite app_nil_r. repeat split; try apply Hd.
    rewrite lastn_all; [reflexivity|]. destruct Hd. lia.
  - destruct (append_items d x Hd) as [Hi Hb].
    destruct (IH (Deque.append d x) Hb) as (Hi' & Hm' & Hb').
    unfold Deque.extend in *. simpl fold_left.
    repeat split; try apply Hb'.
    + rewrite Hi', Hi. simpl Deque.maxlen.
      rewrite lastn_lastn_app, <- app_assoc. reflexivity.
    + rewrite Hm'. reflexivity.
Qed.

Lemma new_items l (n : Z) :
  (0 <= n)%Z ->
  Deque.new l n = Some {| Deque.items := lastn (Z.to_nat n) l; Deque.maxlen := n |}.
Proof.
  intros Hn. unfold Deque.new. destruct (Z.ltb_spec n 0); [lia|].
  set (d0 := {| Deque.items := []; Deque.maxlen := n |}).
  assert (Hd0 : Deque.bounded d0) by (unfold Deque.bounded; simpl; lia).
  destruct (extend_items l d0 Hd0) as (Hi & Hm & _).
  destruct (Deque.extend d0 l) as [it ml]. simpl in *. subst. reflexivity.
Qed.

End DequeFacts.

Section BufferClaims.
Import Main.

(** C6. Appending more than [c] lines, for a capacity [c > 0], to a line
    buffer of capacity [c] leaves exactly the [c] most recent of them, in
    order, the older ones having been evicted; so [A, B, C, D] appended to
    a buffer of capacity 3 leave [[B, C, D]]. *)
Theorem append_keeps_most_recent (A : Type) (c : Z) (d : Deque.deque A) (ls : list A) :
  (0 < c)%Z -> Deque.maxlen d = c -> Deque.bounded d ->
  (c < Z.of_nat (length ls))%Z ->
  Deque.snapshot (Deque.extend d ls) = lastn (Z.to_nat c) ls /\
  length (Deque.snapshot (Deque.extend d ls)) = Z.to_nat c.
Proof.
  intros Hc Hm Hd Hlen. unfold Deque.snapshot.
  destruct (extend_items A ls d Hd) as (Hi & _ & _).
  rewrite Hi, Hm. rewrite lastn_app_r by lia.
  split; [reflexivity|]. rewrite lastn_length. lia.
Qed.

Lemma append_keeps_most_recent_witness :
  Deque.snapshot
    (Deque.extend {| Deque.items := []; Deque.maxlen := 3 |}
       ["A"; "B"; "C"; "D"]%string)
  = ["B"; "C"; "D"]%string.
Proof.
  apply (append_keeps_most_recent string 3
           {| Deque.items := []; Deque.maxlen := 3 |}
           ["A"; "B"; "C"; "D"]%string).
  - reflexivity.
  - reflexivity.
  - unfold Deque.bounded. simpl. lia.
  - reflexivity.
Defined.

(** C7. The resize of the line buffer never raises, whatever the buffer
    holds and whatever size the terminal reports (the new capacity is the
    reported number of rows, at least 1, or 24 when the query fails): the
    new buffer has the new capacity and holds the most recent entries of
    the old one that fit it, the oldest being dropped first; when the old
    entries all fit, it holds them all. *)
Theorem resize_keeps_most_recent (v : viewer) (os_size : option (Z * Z)) :
  exists v',
    resize v os_size = Some v' /\
    (1 <= snd (get_term_size os_size))%Z /\
    Deque.maxlen (lines v') = snd (get_term_size os_size) /\
    Deque.snapshot (lines v') =
      lastn (Z.to_nat (snd (get_term_size os_size))) (Deque.snapshot (lines v)) /\
    ((Z.of_nat (length (Deque.snapshot (lines v))) <= snd (get_term_size os_size))%Z ->
     Deque.snapshot (lines v') = Deque.snapshot (lines v)).
Proof.
  unfold resize, Deque.snapshot.
  destruct (get_term_size os_size) as [w h] eqn:Hsz. simpl snd.
  assert (Hh : (1 <= h)%Z).
  { unfold get_term_size in Hsz. destruct os_size as [[c r]|];
      injection Hsz as _ <-; lia. }
  rewrite new_items by lia.
  eexists. split; [reflexivity|]. simpl. repeat split; try assumption.
  intros Hfit. apply lastn_all. lia.
Qed.

Lemma resize_keeps_most_recent_witness :
  exists v',
    resize {| term_width := 80; term_height := 3;
              lines := {| Deque.items := [[0x41]; [0x42]; [0x43]]%N; Deque.maxlen := 3 |};
              xoff := 0; inbuf := []; keybuf := []; dirty := false |}
           (Some (80, 2)%Z) = Some v' /\
    Deque.snapshot (lines v') = [[0x42]; [0x43]]%N.
Proof.
  destruct (resize_keeps_most_recent
              {| term_width := 80; term_height := 3;
                 lines := {| Deque.items := [[0x41]; [0x42]; [0x43]]%N; Deque.maxlen := 3 |};
                 xoff := 0; inbuf := []; keybuf := []; dirty := false |}
              (Some (80, 2)%Z)) as (v' & Hr & _ & _ & Hs & _).
  exists v'. split; [exact Hr|exact Hs].
Defined.

End BufferClaims.

(* ================================================================== *)
(** * The input side of the loop *)

Section BytesFacts.
Import Main.

Lemma byte_eqb_neq (c sep : byte) : c <> sep -> Byte.eqb c sep = false.
Proof.
  intros Hne. destruct (Byte.eqb c sep) eqn:E; [|reflexivity].
  apply Byte.byte_dec_bl in E. contradiction.
Qed.

Lemma split_not_nil (sep : byte) (b : bytes) : split sep b <> [].
Proof.
  destruct b as [|c r]; simpl; [discriminate|].
  destruct (Byte.eqb c sep); [discriminate|].
  destruct (split sep r); discriminate.
Qed.

(** The fragment kept after a split is not longer than the text split. *)
Lemma split_last_length (sep : byte) (b : bytes) :
  length (last (split sep b) []) <= length b.
Proof.
  induction b as [|c r IH]; simpl; [lia|].
  pose proof (split_not_nil sep r) as Hne.
  destruct (Byte.eqb c sep).
  - destruct (split sep r) as [|h t]; [contradiction|]. simpl in *. lia.
  - destruct (split sep r) as [|h t]; [contradiction|].
    destruct t; simpl in *; lia.
Qed.

(** Without the separator, a text splits into itself. *)
Lemma split_no_sep (sep : byte) (b : bytes) :
  Forall (fun c => c <> sep) b -> split sep b = [b].
Proof.
  induction 1 as [|c r Hc Hr IH]; simpl; [reflexivity|].
  rewrite (byte_eqb_neq c sep Hc), IH. reflexivity.
Qed.

Lemma rfind_no_sep (sep : byte) (b : bytes) :
  Forall (fun c => c <> sep) b -> rfind sep b = (-1)%Z.
Proof.
  induction 1 as [|c r Hc Hr IH]; simpl; [reflexivity|].
  rewrite IH. simpl.
  rewrite (byte_eqb_neq c sep Hc). reflexivity.
Qed.

Lemma rfind_bound (sep : byte) (b : bytes) :
  (-1 <= rfind sep b < Z.of_nat (length b))%Z.
Proof.
  induction b as [|c r IH]; simpl length; [simpl; lia|].
  simpl rfind. destruct (Z.leb_spec 0 (rfind sep r)).
  - lia.
  - destruct (Byte.eqb c sep); lia.
Qed.

End BytesFacts.

Section FeedFacts.
Import Main.

Variable decode : bytes -> str.
Variable cap : nat.
Hypothesis cap_pos : 0 < cap.

(** The [while] loop ends with a fragment within the cap, given fuel for
    the length of the buffer: every round takes at least one byte. *)
Lemma flush_oversized_length :
  forall fuel buf ls d, length buf <= fuel ->
    length (fst (fst (flush_oversized decode cap fuel buf ls d))) <= cap.
Proof.
  induction fuel as [|fuel IH]; intros buf ls d Hf; simpl.
  - lia.
  - destruct (Nat.ltb_spec cap (length buf)) as [Hlt|Hge]; [|simpl; lia].
    destruct (negb (rfind NL (firstn cap buf) =? -1)%Z) eqn:Hnl.
    + apply IH. rewrite length_skipn. lia.
    + apply IH. rewrite length_skipn. lia.
Qed.

(** More fuel than the length of the buffer changes nothing. *)
Lemma flush_oversized_fuel :
  forall fuel fuel' buf ls d, length buf <= fuel -> length buf <= fuel' ->
    flush_oversized decode cap fuel buf ls d = flush_oversized decode cap fuel' buf ls d.
Proof.
  induction fuel as [|fuel IH]; intros fuel' buf ls d Hf Hf'.
  - destruct fuel'; simpl; [reflexivity|].
    destruct (Nat.ltb_spec cap (length buf)); [lia|reflexivity].
  - destruct fuel' as [|fuel']; simpl.
    + destruct (Nat.ltb_spec cap (length buf)); [lia|reflexivity].
    + destruct (Nat.ltb_spec cap (length buf)) as [Hlt|Hge]; [|reflexivity].
      destruct (negb (rfind NL (firstn cap buf) =? -1)%Z);
        apply IH; rewrite length_skipn; lia.
Qed.

Lemma feed_chunk_inbuf_le (v : viewer) (chunk : bytes) :
  length (inbuf (feed_chunk decode cap v chunk)) <= cap.
Proof.
  unfold feed_chunk.
  pose proof (flush_oversized_length (length (inbuf v ++ chunk)) (inbuf v ++ chunk)
                (lines v) (dirty v) (le_n _)) as Hlen.
  destruct (flush_oversized decode cap _ _ _ _) as [[buf ls] d]. simpl in *.
  pose proof (split_last_length NL buf). lia.
Qed.

Lemma flush_oversized_small (fuel : nat) (buf : bytes) (ls : Deque.deque str) (d : bool) :
  length buf <= cap -> flush_oversized decode cap fuel buf ls d = (buf, ls, d).
Proof.
  intros Hle. destruct fuel; simpl; [reflexivity|].
  destruct (Nat.ltb_spec cap (length buf)); [lia|reflexivity].
Qed.

(** One forced flush: the buffer is over the cap, holds no newline in its
    first [cap] bytes, and what is left fits the cap. *)
Lemma flush_oversized_forced (fuel : nat) (buf : bytes) (ls : Deque.deque str) (d : bool) :
  cap < length buf -> length buf <= fuel ->
  Forall (fun c => c <> NL) (firstn cap buf) ->
  length (skipn cap buf) <= cap ->
  flush_oversized decode cap fuel buf ls d =
  (skipn cap buf, append_raw decode ls (firstn cap buf), true).
Proof.
  intros Hlt Hf Hno Hrest. destruct fuel as [|fuel]; [lia|]. simpl.
  destruct (Nat.ltb_spec cap (length buf)); [|lia].
  rewrite (rfind_no_sep NL _ Hno). simpl.
  apply flush_oversized_small. exact Hrest.
Qed.

(** One chunk of an unterminated input: [b] is the fragment retained so
    far, within the cap, and with the chunk it is not longer than twice
    the cap. *)
Lemma feed_chunk_unterminated (v : viewer) (b chunk : bytes) :
  inbuf v = b ->
  Forall (fun c => c <> NL) (b ++ chunk) ->
  length (b ++ chunk) <= 2 * cap ->
  let v' := feed_chunk decode cap v chunk in
  if length (b ++ chunk) <=? cap then
    lines v' = lines v /\ inbuf v' = b ++ chunk /\ dirty v' = dirty v
  else
    lines v' = append_raw decode (lines v) (firstn cap (b ++ chunk)) /\
    inbuf v' = skipn cap (b ++ chunk) /\ dirty v' = true.
Proof.
  intros Hb Hno Hlen. unfold feed_chunk. rewrite Hb.
  set (buf0 := b ++ chunk) in *.
  destruct (Nat.leb_spec (length buf0) cap) as [Hle|Hgt].
  - rewrite flush_oversized_small by exact Hle.
    rewrite (split_no_sep NL buf0 Hno). simpl. auto.
  - assert (Hpre : Forall (fun c => c <> NL) (firstn cap buf0)).
    { rewrite <- (firstn_skipn cap buf0) in Hno. apply Forall_app in Hno. tauto. }
    assert (Hsuf : Forall (fun c => c <> NL) (skipn cap buf0)).
    { rewrite <- (firstn_skipn cap buf0) in Hno. apply Forall_app in Hno. tauto. }
    rewrite flush_oversized_forced; auto; [|rewrite length_skipn; lia].
    rewrite (split_no_sep NL _ Hsuf). simpl. auto.
Qed.

Lemma feed_chunks_unterminated (v0 : viewer) (chunks : list bytes) :
  forall v seen,
    unterminated decode cap v0 v seen ->
    Forall (fun c => c <> NL) (seen ++ concat chunks) ->
    length (seen ++ concat chunks) <= 2 * cap ->
    unterminated decode cap v0 (feed_chunks decode cap v chunks) (seen ++ concat chunks).
Proof.
  induction chunks as [|c chunks IH]; intros v seen Hv Hno Hlen.
  - simpl. rewrite app_nil_r. exact Hv.
  - simpl concat in *. rewrite app_assoc in Hno, Hlen |- *.
    unfold feed_chunks in *. simpl fold_left.
    apply IH; [|exact Hno|exact Hlen].
    assert (Hno' : Forall (fun x => x <> NL) (seen ++ c)).
    { apply Forall_app in Hno. tauto. }
    assert (Hlen' : length (seen ++ c) <= 2 * cap).
    { rewrite length_app in Hlen. lia. }
    unfold unterminated in Hv |- *.
    destruct (Nat.leb_spec (length seen) cap) as [Hs|Hs]; destruct Hv as [Hl Hi].
    + pose proof (feed_chunk_unterminated v seen c Hi Hno' Hlen') as H.
      cbv zeta in H.
      destruct (Nat.leb_spec (length (seen ++ c)) cap).
      * destruct H as (K1 & K2 & _). rewrite K1, Hl. auto.
      * destruct H as (K1 & K2 & _). rewrite K1, Hl. auto.
    + assert (Hsuf : Forall (fun x => x <> NL) (skipn cap seen ++ c)).
      { rewrite <- (firstn_skipn cap seen), <- app_assoc in Hno'.
        apply Forall_app in Hno'. tauto. }
      assert (Hlsuf : length (skipn cap seen ++ c) <= cap).
      { rewrite length_app, length_skipn. rewrite length_app in Hlen'. lia. }
      assert (Hlsuf2 : length (skipn cap seen ++ c) <= 2 * cap) by lia.
      pose proof (feed_chunk_unterminated v (skipn cap seen) c Hi Hsuf Hlsuf2) as H.
      cbv zeta in H.
      destruct (Nat.leb_spec (length (skipn cap seen ++ c)) cap); [|lia].
      destruct (Nat.leb_spec (length (seen ++ c)) cap);
        [rewrite length_app in *; lia|].
      destruct H as (K1 & K2 & _). rewrite K1, K2, Hl.
      rewrite firstn_app, skipn_app.
      replace (cap - length seen) with 0 by lia. simpl.
      rewrite app_nil_r. auto.
Qed.

End FeedFacts.

(* ================================================================== *)
(** * The loop on small inputs *)

Section LoopExamples.
Import Tokenizer Width Slicer Keys Main Examples UnicodeRef.

(** Four lines in one chunk, into a buffer of three rows. *)
Example feed_four_lines :
  Deque.snapshot
    (lines (feed_chunk (map Byte.to_N) MAX_LINE_BYTES
              {| term_width := 80; term_height := 3;
                 lines := {| Deque.items := []; Deque.maxlen := 3 |};
                 xoff := 0; inbuf := []; keybuf := []; dirty := false |}
              [x41; x0a; x42; x0d; x0a; x43; x0a; x44; x0a; x45]))
  = [[0x42]; [0x43]; [0x44]]%N.
Proof. reflexivity. Qed.

(** The arrow key split after [ESC]: the offset does not move. *)
Example split_arrow_key_lost :
  let v0 := {| term_width := 3; term_height := 3;
               lines := {| Deque.items := [hello]; Deque.maxlen := 3 |};
               xoff := 0; inbuf := []; keybuf := []; dirty := false |} in
  option_map xoff (on_keys unicode_ref v0 [x1b; x5b; x43]) = Some 1%Z /\
  match on_keys unicode_ref v0 [x1b] with
  | Some v1 => option_map xoff (on_keys unicode_ref v1 [x5b; x43])
  | None => None
  end = Some 0%Z.
Proof. split; reflexivity. Qed.

(** Below column 0 there is nothing to skip: a negative start column
    slices from the first character. The loop never asks for one: it
    keeps [xoff] at or above 0. *)
Example slice_negative_start :
  slice_ansi unicode_ref hello (-10) 2 = [0x48; 0x45]%N ++ RESET.
Proof. reflexivity. Qed.

Lemma apply_action_xoff_nonneg (db : unicode_db) (v v' : viewer) (action : string) :
  (0 <= xoff v)%Z -> apply_action db v action = Some v' -> (0 <= xoff v')%Z.
Proof.
  intros Hx. unfold apply_action.
  destruct (String.eqb action "left"); [intros [= <-]; simpl; lia|].
  destruct (String.eqb action "right"); [intros [= <-]; simpl; lia|].
  destruct (String.eqb action "quit"); [discriminate|].
  intros [= <-]. exact Hx.
Qed.

End LoopExamples.

(* ================================================================== *)
(** * More on the tokenizer *)

Section TokenizerSuffixFacts.
Import Tokenizer EscapeForms TokenizerSuffix.

Lemma substr_firstn (line : str) (a n : nat) :
  substr line a (a + n) = firstn n (skipn a line).
Proof. unfold substr. replace (a + n - a) with n by lia. reflexivity. Qed.

(** [_consume_ansi] reads only the text from [start] on. *)
Lemma consume_ansi_suffix (line : str) (start : nat) :
  start < length line ->
  _consume_ansi line start =
  (firstn (consume_suffix (skipn start line)) (skipn start line),
   start + consume_suffix (skipn start line)).
Proof.
  intros Hs. unfold _consume_ansi.
  destruct (Nat.leb_spec (length line) (start + 1)) as [H1|H1].
  - assert (E : skipn start line = [char_at line start]).
    { rewrite (skipn_char_at line start Hs).
      rewrite (skipn_all2 line (n := start + 1)) by lia. reflexivity. }
    rewrite substr_firstn, E. reflexivity.
  - assert (Hsk : skipn start line =
                  char_at line start :: char_at line (start + 1) :: skipn (start + 2) line).
    { rewrite (skipn_char_at line start Hs), (skipn_char_at line (start + 1) H1).
      replace (start + 1 + 1) with (start + 2) by lia. reflexivity. }
    assert (Hlen : length (skipn (start + 2) line) = length line - (start + 2))
      by apply length_skipn.
    assert (Hall : substr_from line start =
                   firstn (2 + length (skipn (start + 2) line)) (skipn start line)).
    { unfold substr_from. symmetry. apply firstn_all2. rewrite length_skipn. lia. }
    assert (Hc : consume_suffix (skipn start line) =
                 consume_suffix (char_at line start :: char_at line (start + 1)
                                   :: skipn (start + 2) line))
      by (rewrite <- Hsk; reflexivity).
    rewrite Hc. cbn [consume_suffix]. clear Hc.
    destruct (char_at line (start + 1) =? 0x5b)%N.
    { rewrite csi_loop_suffix by lia.
      destruct (csi_len (skipn (start + 2) line)) as [n|].
      - rewrite <- substr_firstn. f_equal; [f_equal|]; lia.
      - rewrite Hall. f_equal. lia. }
    destruct (char_at line (start + 1) =? 0x5d)%N.
    { rewrite osc_loop_suffix by lia.
      destruct (osc_len (skipn (start + 2) line)) as [n|].
      - rewrite <- substr_firstn. f_equal; [f_equal|]; lia.
      - rewrite Hall. f_equal. lia. }
    destruct (is_charset_intro (char_at line (start + 1))).
    { destruct (Nat.ltb_spec (start + 2) (length line)) as [H2|H2].
      - destruct (skipn (start + 2) line) eqn:E; [simpl in Hlen; lia|].
        rewrite <- substr_firstn. reflexivity.
      - destruct (skipn (start + 2) line) eqn:E; [|simpl in Hlen; lia].
        rewrite Hall. simpl. f_equal. lia. }
    rewrite <- substr_firstn. reflexivity.
Qed.

Lemma char_at_app_shift (p line : str) (i : nat) :
  char_at (p ++ line) (length p + i) = char_at line i.
Proof. unfold char_at. rewrite app_nth2_plus. reflexivity. Qed.

Lemma skipn_app_shift (p line : str) (i : nat) :
  skipn (length p + i) (p ++ line) = skipn i line.
Proof.
  rewrite skipn_app. rewrite skipn_all2 by lia. simpl. f_equal. lia.
Qed.

(** The tokens from an index on do not depend on the text before it. *)
Lemma iter_tokens_from_shift (p line : str) :
  forall fuel i,
    iter_tokens_from fuel (p ++ line) (length p + i) = iter_tokens_from fuel line i.
Proof.
  induction fuel as [|fuel IH]; intros i; [reflexivity|].
  simpl. rewrite length_app.
  destruct (Nat.ltb_spec i (length line)) as [Hlt|Hge];
    destruct (Nat.ltb_spec (length p + i) (length p + length line)); try lia;
    [|reflexivity].
  rewrite char_at_app_shift.
  destruct (char_at line i =? ESC)%N.
  - rewrite (consume_ansi_suffix line i Hlt).
    rewrite (consume_ansi_suffix (p ++ line) (length p + i))
      by (rewrite length_app; lia).
    rewrite skipn_app_shift.
    rewrite <- Nat.add_assoc. rewrite IH. reflexivity.
  - rewrite <- Nat.add_assoc. rewrite IH. reflexivity.
Qed.

Lemma iter_tokens_suffix (p line : str) :
  iter_tokens_from (length (p ++ line)) (p ++ line) (length p) = _iter_tokens line.
Proof.
  pose proof (iter_tokens_from_shift p line (length (p ++ line)) 0) as H.
  rewrite Nat.add_0_r in H. rewrite H.
  apply iter_tokens_from_fuel; rewrite ?length_app; lia.
Qed.

(** The tokens after any number of tokens are the tokens from some
    index on. *)
Lemma iter_tokens_from_split (line : str) (pre post : list token) :
  forall fuel i, i <= length line -> length line - i <= fuel ->
    iter_tokens_from fuel line i = pre ++ post ->
    exists k fuel', k <= length line /\ length line - k <= fuel' /\
                    post = iter_tokens_from fuel' line k.
Proof.
  induction pre as [|t pre IH]; intros fuel i Hi Hf H.
  - exists i, fuel. auto.
  - destruct fuel as [|fuel]; [discriminate|].
    simpl in H. destruct (Nat.ltb_spec i (length line)) as [Hlt|Hge]; [|discriminate].
    destruct (char_at line i =? ESC)%N.
    + destruct (_consume_ansi line i) as [seq j] eqn:E.
      destruct (consume_ansi_spec line i Hlt _ _ E) as [Hj _].
      injection H as _ H. apply (IH fuel j); [lia|lia|exact H].
    + injection H as _ H. apply (IH fuel (i + 1)); [lia|lia|exact H].
Qed.

(** The tokens after a token boundary are the tokens of the text after
    it: the tokenizer keeps nothing of what it has passed. *)
Lemma tokens_after_boundary (line : str) (pre post : list token) :
  _iter_tokens line = pre ++ post -> post = _iter_tokens (raw_text post).
Proof.
  intros H.
  destruct (iter_tokens_from_split line pre post (length line) 0
              (Nat.le_0_l _) (Nat.le_sub_l _ _) H) as (k & fuel' & Hk & Hf & Hpost).
  assert (Hraw : raw_text post = skipn k line).
  { rewrite Hpost. apply iter_tokens_from_raw. exact Hf. }
  rewrite Hraw. rewrite Hpost at 1.
  assert (Hline : line = firstn k line ++ skipn k line)
    by (symmetry; apply firstn_skipn).
  assert (Hlen : length (firstn k line) = k) by (rewrite length_firstn; lia).
  pose proof (iter_tokens_from_shift (firstn k line) (skipn k line) fuel' 0) as Hs.
  rewrite Hlen, Nat.add_0_r, <- Hline in Hs. rewrite Hs.
  apply iter_tokens_from_fuel; rewrite length_skipn; lia.
Qed.

End TokenizerSuffixFacts.

Section TokenizerExtras.
Import Tokenizer EscapeForms TokenizerSuffix.

Lemma full_escape_head (s : str) :
  full_escape s -> exists tl, s = ESC :: tl.
Proof. intros H; destruct H; eexists; reflexivity. Qed.

Lemma iter_tokens_cons_char (c : char) (rest : str) :
  c <> ESC -> _iter_tokens (c :: rest) = (false, [c]) :: _iter_tokens rest.
Proof.
  intros Hc. unfold _iter_tokens. simpl length.
  cbn [iter_tokens_from].
  change (0 <? length (c :: rest)) with true. cbv iota.
  change (char_at (c :: rest) 0) with c.
  apply N.eqb_neq in Hc. rewrite Hc. f_equal.
  apply (iter_tokens_from_shift [c] rest (length rest) 0).
Qed.

Lemma iter_tokens_app_escape (s rest : str) :
  full_escape s -> _iter_tokens (s ++ rest) = (true, s) :: _iter_tokens rest.
Proof.
  intros Hs. destruct (full_escape_head s Hs) as [tl Htl].
  pose proof (consume_ansi_full (s ++ rest) 0 s rest eq_refl Hs) as Hc.
  unfold _iter_tokens.
  assert (Hlen : length (s ++ rest) = S (length tl + length rest)).
  { rewrite Htl. simpl. rewrite length_app. reflexivity. }
  rewrite Hlen at 1. cbn [iter_tokens_from].
  match goal with |- context [?a <? ?b] => destruct (Nat.ltb_spec a b); [|simpl in *; lia] end.
  assert (H0 : char_at (s ++ rest) 0 = ESC) by (rewrite Htl; reflexivity).
  rewrite H0, N.eqb_refl, Hc. f_equal.
  pose proof (iter_tokens_from_shift s rest (length tl + length rest) 0) as Hsh.
  rewrite Nat.add_0_r in Hsh. simpl (0 + length s). rewrite Hsh.
  apply iter_tokens_from_fuel; lia.
Qed.

Lemma iter_tokens_well_formed (line : str) :
  Forall well_formed_token (_iter_tokens line).
Proof.
  unfold _iter_tokens. generalize (length line) at 1 as fuel. generalize 0 as i.
  intros i fuel. revert i. induction fuel as [|fuel IH]; intros i; [constructor|].
  simpl. destruct (Nat.ltb_spec i (length line)) as [Hlt|Hge]; [|constructor].
  destruct (N.eqb_spec (char_at line i) ESC) as [He|Hne].
  - destruct (_consume_ansi line i) as [seq j] eqn:E.
    destruct (consume_ansi_spec line i Hlt _ _ E) as [Hj ->].
    constructor; [|apply IH].
    unfold well_formed_token, substr. rewrite (skipn_char_at line i Hlt), He.
    destruct (j - i) as [|n] eqn:En; [lia|]. simpl. eexists. reflexivity.
  - constructor; [|apply IH].
    exists (char_at line i). split; [reflexivity|exact Hne].
Qed.

(** C5. The tokenizer consumes the whole line once, left to right: the raw
    texts of its tokens, concatenated in order, are the line; and no token
    is a part of an escape sequence that stands complete in the line.
    Wherever the tokenizer stands after any number of tokens, if the text
    left begins with a complete escape form (CSI, OSC, charset designator
    or two-character form), the next token is an escape token and is
    exactly that form; and every token is either an escape token, which
    starts with [ESC], or one character that is not [ESC], so that no
    escape character is ever given out as displayed text. *)
Theorem tokens_spell_line_whole_escapes (line : str) :
  raw_text (_iter_tokens line) = line /\
  (forall pre post s rest,
      _iter_tokens line = pre ++ post ->
      full_escape s ->
      raw_text post = s ++ rest ->
      exists post', post = (true, s) :: post' /\ raw_text post' = rest) /\
  Forall well_formed_token (_iter_tokens line).
Proof.
  split; [|split].
  - unfold _iter_tokens. rewrite iter_tokens_from_raw by lia. reflexivity.
  - intros pre post s rest Htok Hfull Heq.
    pose proof (tokens_after_boundary line pre post Htok) as Hpost.
    rewrite Heq, (iter_tokens_app_escape s rest Hfull) in Hpost.
    exists (_iter_tokens rest). split; [exact Hpost|].
    unfold _iter_tokens. rewrite iter_tokens_from_raw by lia. reflexivity.
  - apply iter_tokens_well_formed.
Qed.

Lemma tokens_spell_line_whole_escapes_witness :
  raw_text (_iter_tokens Examples.hello_world) = Examples.hello_world /\
  exists post',
    skipn 6 (_iter_tokens Examples.hello_world) = (true, Slicer.RESET) :: post' /\
    raw_text post' = skipn 14 Examples.hello_world.
Proof.
  destruct (tokens_spell_line_whole_escapes Examples.hello_world) as (Hraw & Hwhole & _).
  split; [exact Hraw|].
  apply (Hwhole (firstn 6 (_iter_tokens Examples.hello_world))
           (skipn 6 (_iter_tokens Examples.hello_world))
           Slicer.RESET (skipn 14 Examples.hello_world)).
  - symmetry. apply firstn_skipn.
  - apply (@FE_csi [0x30]%N 0x6d%N).
    + repeat constructor.
    + reflexivity.
  - reflexivity.
Defined.

(** X1. Every token of a line is well formed: an escape token starts with
    the escape character, and any other token is exactly one character,
    which is not the escape character. No token is empty. *)
Theorem tokens_well_formed (line : str) :
  Forall well_formed_token (_iter_tokens line).
Proof. apply iter_tokens_well_formed. Qed.

(** X2. Tokenizing goes token by token from the left: a line that starts
    with a character other than [ESC] gives that character and then the
    tokens of the rest; a line that starts with a complete escape form
    gives that form as one token and then the tokens of the rest. *)
Theorem tokens_compositional (rest : str) :
  (forall c, c <> ESC -> _iter_tokens (c :: rest) = (false, [c]) :: _iter_tokens rest) /\
  (forall s, full_escape s -> _iter_tokens (s ++ rest) = (true, s) :: _iter_tokens rest).
Proof.
  split.
  - intros c Hc. apply iter_tokens_cons_char. exact Hc.
  - intros s Hs. apply iter_tokens_app_escape. exact Hs.
Qed.

Lemma tokens_compositional_witness :
  _iter_tokens (0x48%N :: Examples.sgr_red) = (false, [0x48%N]) :: _iter_tokens Examples.sgr_red /\
  _iter_tokens (Examples.sgr_red ++ Examples.hello) =
    (true, Examples.sgr_red) :: _iter_tokens Examples.hello.
Proof.
  split.
  - apply (tokens_compositional Examples.sgr_red). discriminate.
  - apply (tokens_compositional Examples.hello).
    apply (@FE_csi [0x33; 0x31]%N 0x6d%N); [repeat constructor|reflexivity].
Defined.

Lemma iter_tokens_unfinished_forms :
  (forall params, Forall (fun c => is_csi_final c = false) params ->
     _iter_tokens (ESC :: 0x5b%N :: params) = [(true, ESC :: 0x5b%N :: params)]) /\
  (forall body, osc_body body ->
     _iter_tokens (ESC :: 0x5d%N :: body) = [(true, ESC :: 0x5d%N :: body)]) /\
  (forall d, is_charset_intro d = true ->
     _iter_tokens [ESC; d] = [(true, [ESC; d])]) /\
  _iter_tokens [ESC] = [(true, [ESC])].
Proof.
  assert (Hend : forall line fuel, iter_tokens_from fuel line (length line) = []).
  { intros line [|fuel]; simpl; [reflexivity|]. rewrite Nat.ltb_irrefl. reflexivity. }
  assert (Hwhole : forall line : str,
             firstn (2 + length (skipn 2 line)) line = line).
  { intros line. apply firstn_all2. rewrite length_skipn. lia. }
  repeat split.
  - intros params Hp.
    assert (Hn : csi_len params = None).
    { induction Hp as [|c l Hc Hl IH]; simpl; [reflexivity|]. rewrite Hc, IH. reflexivity. }
    unfold _iter_tokens. simpl length. cbn [iter_tokens_from].
    match goal with |- context [?a <? ?b] => destruct (Nat.ltb_spec a b); [|simpl in *; lia] end.
    change (char_at (ESC :: 0x5b%N :: params) 0) with ESC. rewrite N.eqb_refl.
    rewrite consume_ansi_suffix by (simpl; lia).
    simpl skipn. cbn [consume_suffix]. change (0x5b =? 0x5b)%N with true.
    cbv iota. rewrite Hn.
    pose proof (Hwhole (ESC :: 0x5b%N :: params)) as Hw. simpl skipn in Hw.
    rewrite Hw.
    change (0 + (2 + length params)) with (length (ESC :: 0x5b%N :: params)).
    rewrite ?Hend, ?Nat.ltb_irrefl. reflexivity.
  - intros body [Hb Hs].
    assert (Hn : osc_len body = None).
    { induction body as [|c l IH]; [reflexivity|].
      inversion Hb as [|? ? Hc Hl]; subst. simpl.
      apply N.eqb_neq in Hc. rewrite Hc.
      destruct l as [|d l'].
      - rewrite andb_false_r. reflexivity.
      - destruct (has_st_cons c d l' Hs) as [Hpair Hs'].
        rewrite Hpair, (IH Hl Hs'). reflexivity. }
    unfold _iter_tokens. simpl length. cbn [iter_tokens_from].
    match goal with |- context [?a <? ?b] => destruct (Nat.ltb_spec a b); [|simpl in *; lia] end.
    change (char_at (ESC :: 0x5d%N :: body) 0) with ESC. rewrite N.eqb_refl.
    rewrite consume_ansi_suffix by (simpl; lia).
    simpl skipn. cbn [consume_suffix].
    change (0x5d =? 0x5b)%N with false. change (0x5d =? 0x5d)%N with true.
    cbv iota. rewrite Hn.
    pose proof (Hwhole (ESC :: 0x5d%N :: body)) as Hw. simpl skipn in Hw.
    rewrite Hw.
    change (0 + (2 + length body)) with (length (ESC :: 0x5d%N :: body)).
    rewrite ?Hend, ?Nat.ltb_irrefl. reflexivity.
  - intros d Hd. destruct (charset_intro_not_bracket d Hd) as [H1 H2].
    unfold _iter_tokens. simpl length. cbn [iter_tokens_from].
    match goal with |- context [?a <? ?b] => destruct (Nat.ltb_spec a b); [|simpl in *; lia] end.
    change (char_at [ESC; d] 0) with ESC. rewrite N.eqb_refl.
    rewrite consume_ansi_suffix by (simpl; lia).
    simpl skipn. cbn [consume_suffix]. rewrite H1, H2, Hd. simpl.
    reflexivity.
Qed.

(** A line that is an unfinished escape sequence is one token. *)
Lemma iter_tokens_unfinished (u : str) :
  unfinished_escape u -> _iter_tokens u = [(true, u)].
Proof.
  destruct iter_tokens_unfinished_forms as (Hcsi & Hosc & Hset & Hesc).
  intros Hu. destruct Hu as [params Hp|body Hb|d Hd|].
  - apply Hcsi. exact Hp.
  - apply Hosc. exact Hb.
  - apply Hset. exact Hd.
  - exact Hesc.
Qed.

(** X3. An escape sequence the line ends before finishing is absorbed to
    the end of the line as one token, wherever in the line it starts: at
    any token boundary where the text left is a CSI without final byte, an
    OSC without terminator, a charset designator without its byte, or a
    lone [ESC], the tokens left are that text as one escape token. *)
Theorem unterminated_escape_one_token (line : str) (pre post : list token) :
  _iter_tokens line = pre ++ post ->
  unfinished_escape (raw_text post) ->
  post = [(true, raw_text post)].
Proof.
  intros H Hu. rewrite (tokens_after_boundary line pre post H) at 1.
  apply iter_tokens_unfinished. exact Hu.
Qed.

Lemma unterminated_escape_one_token_witness :
  skipn 1 (_iter_tokens [0x61; ESC; 0x5b; 0x33; 0x31]%N) =
    [(true, [ESC; 0x5b; 0x33; 0x31]%N)] /\
  skipn 2 (_iter_tokens [0x61; 0x62; ESC; 0x5d; 0x30; 0x3b]%N) =
    [(true, [ESC; 0x5d; 0x30; 0x3b]%N)] /\
  skipn 1 (_iter_tokens [0x61; ESC; 0x28]%N) = [(true, [ESC; 0x28]%N)] /\
  skipn 1 (_iter_tokens [0x61; ESC]%N) = [(true, [ESC])].
Proof.
  split; [|split; [|split]].
  - apply (unterminated_escape_one_token [0x61; ESC; 0x5b; 0x33; 0x31]%N
             (firstn 1 (_iter_tokens [0x61; ESC; 0x5b; 0x33; 0x31]%N))).
    + symmetry. apply firstn_skipn.
    + apply (@UE_csi [0x33; 0x31]%N). repeat constructor.
  - apply (unterminated_escape_one_token [0x61; 0x62; ESC; 0x5d; 0x30; 0x3b]%N
             (firstn 2 (_iter_tokens [0x61; 0x62; ESC; 0x5d; 0x30; 0x3b]%N))).
    + symmetry. apply firstn_skipn.
    + apply (@UE_osc [0x30; 0x3b]%N).
      split; [repeat constructor; discriminate|reflexivity].
  - apply (unterminated_escape_one_token [0x61; ESC; 0x28]%N
             (firstn 1 (_iter_tokens [0x61; ESC; 0x28]%N))).
    + symmetry. apply firstn_skipn.
    + apply (@UE_charset 0x28%N). reflexivity.
  - apply (unterminated_escape_one_token [0x61; ESC]%N
             (firstn 1 (_iter_tokens [0x61; ESC]%N))).
    + symmetry. apply firstn_skipn.
    + apply UE_esc.
Defined.

End TokenizerExtras.

(* ================================================================== *)
(** * More on widths *)

Section WidthExtras.
Import Tokenizer Width EscapeForms TokenizerSuffix.

Lemma char_width_fallback_le_2 (db : unicode_db) (ch : str) :
  wcwidth db = None -> (_char_width db ch <= 2)%Z.
Proof.
  intros H. unfold _char_width. rewrite H.
  repeat match goal with |- context [if ?b then _ else _] => destruct b end; lia.
Qed.

Lemma visible_width_loop_acc (db : unicode_db) (toks : list token) :
  forall acc, visible_width_loop db toks acc = (acc + visible_width_loop db toks 0)%Z.
Proof.
  induction toks as [|[is_ansi tok] rest IH]; intros acc; simpl; [lia|].
  destruct is_ansi; [apply IH|].
  rewrite IH, (IH (_char_width db tok)). lia.
Qed.

Lemma visible_width_loop_nonneg (db : unicode_db) (toks : list token) :
  (0 <= visible_width_loop db toks 0)%Z.
Proof.
  induction toks as [|[is_ansi tok] rest IH]; simpl; [lia|].
  destruct is_ansi; [exact IH|].
  rewrite visible_width_loop_acc. pose proof (char_width_nonneg db tok). lia.
Qed.

Lemma visible_width_loop_le (db : unicode_db) (toks : list token) :
  wcwidth db = None -> Forall well_formed_token toks ->
  (visible_width_loop db toks 0 <= 2 * Z.of_nat (length (raw_text toks)))%Z.
Proof.
  intros Hdb Hwf. induction Hwf as [|[is_ansi tok] rest Ht Hrest IH].
  - cbn. lia.
  - unfold raw_text in *. cbn [visible_width_loop map concat snd].
    rewrite length_app.
    destruct is_ansi; [lia|].
    destruct Ht as (c & -> & _).
    rewrite visible_width_loop_acc.
    pose proof (char_width_fallback_le_2 db [c] Hdb). cbn [length]. lia.
Qed.

(** X4. The visible width of a line is never negative, also when
    [wcwidth] answers -1 for a character; and with the built-in tables
    ([wcwidth] not installed) it is at most twice the number of
    characters of the line. *)
Theorem visible_width_bounds (db : unicode_db) (line : str) :
  (0 <= visible_width db line)%Z /\
  (wcwidth db = None -> (visible_width db line <= 2 * Z.of_nat (length line))%Z).
Proof.
  unfold visible_width. split; [apply visible_width_loop_nonneg|].
  intros Hdb.
  pose proof (visible_width_loop_le db (_iter_tokens line) Hdb (iter_tokens_well_formed line)) as H.
  unfold _iter_tokens in H at 2. rewrite iter_tokens_from_raw in H by lia.
  exact H.
Qed.

End WidthExtras.

Section WidthExtras2.
Import Tokenizer Width EscapeForms.

(** X5. The visible width is computed token by token: a leading character
    other than [ESC] adds its own width to the width of the rest, and a
    leading complete escape form adds nothing. *)
Theorem visible_width_compositional (db : unicode_db) (rest : str) :
  (forall c, c <> ESC ->
     visible_width db (c :: rest) = (_char_width db [c] + visible_width db rest)%Z) /\
  (forall s, full_escape s -> visible_width db (s ++ rest) = visible_width db rest).
Proof.
  unfold visible_width. split.
  - intros c Hc. rewrite (iter_tokens_cons_char c rest Hc). simpl.
    apply visible_width_loop_acc.
  - intros s Hs. rewrite (iter_tokens_app_escape s rest Hs). reflexivity.
Qed.

Lemma visible_width_compositional_witness :
  visible_width UnicodeRef.unicode_ref (0x4e2d%N :: Examples.hello) = 7%Z /\
  visible_width UnicodeRef.unicode_ref (Examples.sgr_red ++ Examples.hello) = 5%Z.
Proof.
  destruct (visible_width_compositional UnicodeRef.unicode_ref Examples.hello) as [Hc Hs].
  split.
  - rewrite Hc by discriminate. reflexivity.
  - rewrite Hs; [reflexivity|].
    apply (@FE_csi [0x33; 0x31]%N 0x6d%N); [repeat constructor|reflexivity].
Defined.

End WidthExtras2.

(* ================================================================== *)
(** * More on the slicer *)

Section SlicerInvariants.
Import Tokenizer Width Slicer Columns SlicerState.

Variable db : unicode_db.
Variables start_col width : Z.

Local Abbreviation loop := (slice_loop db start_col width).

Ltac with_rest IH :=
  match goal with
  | |- context [slice_loop _ _ _ _ ?s] =>
      let kept := fresh "kept" in
      destruct (IH s) as (kept & Hs & He & Hv)
  end.

Ltac text_done Hst :=
  unfold emitted_text, raw_text; simpl; rewrite ?Hst; simpl;
  rewrite ?concat_app; simpl; rewrite ?app_nil_r, <- ?app_assoc; reflexivity.

(** The loop keeps whole tokens, in order: the text it holds at its end
    is the text it held plus the raw text of the tokens kept, and
    [visible] has grown by their width. *)
Lemma slice_loop_kept (toks : list token) :
  forall st, exists kept,
    subseq kept toks /\
    emitted_text (loop toks st) = emitted_text st ++ raw_text kept /\
    visible (loop toks st) = (visible st + visible_width_loop db kept 0)%Z.
Proof.
  induction toks as [|[is_ansi tok] rest IH]; intros st.
  - exists []. simpl. unfold raw_text. simpl. rewrite app_nil_r.
    repeat split; [constructor|lia].
  - simpl. pose proof (char_width_nonneg db tok) as Hw.
    destruct is_ansi.
    + destruct (started st) eqn:Hst; simpl; with_rest IH;
        exists ((true, tok) :: kept);
        (split; [constructor 3; exact Hs|]);
        (split; [rewrite He; text_done Hst|rewrite Hv; reflexivity]).
    + destruct (Z.leb_spec (_char_width db tok) 0) as [H0|H0].
      * destruct (started st) eqn:Hst.
        -- with_rest IH. exists ((false, tok) :: kept).
           split; [constructor 3; exact Hs|].
           split; [rewrite He; text_done Hst|].
           rewrite Hv. simpl. rewrite (visible_width_loop_acc db kept (_char_width db tok)).
           lia.
        -- with_rest IH. exists kept.
           split; [constructor 2; exact Hs|].
           split; [exact He|exact Hv].
      * destruct (Z.leb_spec (pos st + _char_width db tok) start_col).
        -- with_rest IH. exists kept.
           split; [constructor 2; exact Hs|].
           split; [rewrite He; text_done idpath|exact Hv].
        -- assert (Et : concat (out (start_window st)) = emitted_text st).
           { unfold start_window, emitted_text.
             destruct (started st) eqn:E; simpl; rewrite ?E.
             - rewrite app_nil_r. reflexivity.
             - destruct (prefix st); simpl; rewrite ?concat_app; simpl;
                 rewrite ?app_nil_r; reflexivity. }
           assert (Es : started (start_window st) = true).
           { unfold start_window. destruct (started st) eqn:E; simpl; auto. }
           assert (Ev : visible (start_window st) = visible st).
           { unfold start_window. destruct (started st); reflexivity. }
           destruct (width <=? visible (start_window st) + _char_width db tok)%Z.
           ++ exists [(false, tok)].
              split; [constructor 3; clear; induction rest; constructor; assumption|].
              split.
              ** unfold emitted_text. simpl. rewrite Es, concat_app, Et.
                 unfold emitted_text, raw_text. simpl.
                 rewrite ?app_nil_r, <- ?app_assoc. reflexivity.
              ** simpl. rewrite Ev. lia.
           ++ with_rest IH. exists ((false, tok) :: kept).
              split; [constructor 3; exact Hs|].
              split.
              ** rewrite He. unfold emitted_text. simpl. rewrite Es, concat_app, Et.
                 unfold emitted_text, raw_text. simpl.
                 rewrite ?app_nil_r, <- ?app_assoc. reflexivity.
              ** rewrite Hv. simpl. rewrite Ev.
                 rewrite (visible_width_loop_acc db kept (_char_width db tok)). lia.
Qed.


Lemma emitted_text_init : emitted_text slice_init = [].
Proof. reflexivity. Qed.

(** The result of [slice_ansi], read off the final state of the loop. *)
Lemma slice_ansi_result (line : str) :
  slice_ansi db line start_col width =
  if (width <=? 0)%Z then []
  else if started (loop (_iter_tokens line) slice_init)
       then emitted_text (loop (_iter_tokens line) slice_init) ++ RESET
       else [].
Proof.
  unfold slice_ansi. destruct (width <=? 0)%Z; [reflexivity|].
  unfold emitted_text.
  destruct (started (loop (_iter_tokens line) slice_init)); simpl; [|reflexivity].
  rewrite concat_app, app_nil_r. reflexivity.
Qed.

(** [visible] stays below [width + m] when no character is wider than [m]. *)
Lemma slice_loop_visible_bound (m : Z) :
  (forall ch, (_char_width db ch <= m)%Z) ->
  forall toks st, (visible st < width)%Z ->
    (visible (loop toks st) < width + m)%Z.
Proof.
  intros Hm. induction toks as [|[is_ansi tok] rest IH]; intros st Hv; simpl.
  - pose proof (char_width_nonneg db []). pose proof (Hm []). lia.
  - destruct is_ansi.
    + destruct (negb (started st)); apply IH; exact Hv.
    + destruct (Z.leb_spec (_char_width db tok) 0).
      * destruct (started st); apply IH; exact Hv.
      * destruct (Z.leb_spec (pos st + _char_width db tok) start_col);
          [apply IH; exact Hv|].
        assert (Ev : visible (start_window st) = visible st).
        { unfold start_window. destruct (started st); reflexivity. }
        destruct (Z.leb_spec width (visible (start_window st) + _char_width db tok)).
        -- simpl. rewrite Ev. pose proof (Hm tok). lia.
        -- apply IH. simpl. lia.
Qed.

(** When the window starts in the loop, [visible] grows. *)
Lemma slice_loop_started_visible (toks : list token) :
  forall st, started st = false -> started (loop toks st) = true ->
    (visible st < visible (loop toks st))%Z.
Proof.
  induction toks as [|[is_ansi tok] rest IH]; intros st Hst Hfin; simpl in *.
  - congruence.
  - destruct is_ansi.
    + rewrite Hst in *. simpl in *.
      match type of Hfin with
      | started (slice_loop _ _ _ rest ?s) = true => exact (IH s eq_refl Hfin)
      end.
    + destruct (Z.leb_spec (_char_width db tok) 0).
      * rewrite Hst in *. apply IH; assumption.
      * destruct (Z.leb_spec (pos st + _char_width db tok) start_col).
        -- match type of Hfin with
           | started (slice_loop _ _ _ rest ?s) = true => exact (IH s Hst Hfin)
           end.
        -- unfold start_window in *. rewrite Hst in *. simpl in *.
           destruct (width <=? visible st + _char_width db tok)%Z.
           ++ simpl. lia.
           ++ match goal with
              | |- context [slice_loop _ _ _ rest ?s] =>
                  destruct (slice_loop_kept rest s) as (kept & _ & _ & Hv)
              end.
              rewrite Hv. simpl.
              pose proof (visible_width_loop_nonneg db kept). lia.
Qed.

(** The cells of a token list end at its visible width. *)
Lemma started_iff_width (toks : list token) :
  forall p, (p <= start_col)%Z ->
    existsb (fun e : cell => let '(_, p, w) := e in (start_col <? p + w)%Z)
            (columns_from db toks p)
    = (start_col <? visible_width_loop db toks p)%Z.
Proof.
  induction toks as [|[is_ansi tok] rest IH]; intros p Hp; simpl.
  - symmetry. apply Z.ltb_ge. exact Hp.
  - pose proof (char_width_nonneg db tok) as Hw.
    destruct is_ansi; [apply IH; exact Hp|].
    destruct (Z.ltb_spec 0 (_char_width db tok)).
    + simpl. destruct (Z.ltb_spec start_col (p + _char_width db tok)).
      * simpl. symmetry. apply Z.ltb_lt.
        rewrite visible_width_loop_acc.
        pose proof (visible_width_loop_nonneg db rest). lia.
      * simpl. apply IH. lia.
    + replace (p + _char_width db tok)%Z with p by lia. apply IH. exact Hp.
Qed.

(** With ample width and no zero-width character, every token is kept. *)
Lemma slice_loop_all (toks : list token) :
  forall st, no_zero_width db toks ->
    (start_col <= pos st)%Z ->
    (visible st + visible_width_loop db toks 0 < width)%Z ->
    emitted_text (loop toks st) = emitted_text st ++ raw_text toks.
Proof.
  induction toks as [|[is_ansi tok] rest IH]; intros st Hnz Hpos Hv.
  - simpl. unfold raw_text. simpl. rewrite app_nil_r. reflexivity.
  - inversion Hnz as [|? ? Ht Hrest]; subst. simpl in Ht, Hv |- *.
    pose proof (visible_width_loop_nonneg db rest) as Hr.
    destruct is_ansi.
    + destruct (started st) eqn:Hst; simpl; rewrite IH by (simpl; auto);
        text_done Hst.
    + destruct Ht as [Ht|Ht]; [discriminate|].
      rewrite visible_width_loop_acc in Hv.
      destruct (Z.leb_spec (_char_width db tok) 0); [lia|].
      destruct (Z.leb_spec (pos st + _char_width db tok) start_col); [lia|].
      assert (Et : concat (out (start_window st)) = emitted_text st).
      { unfold start_window, emitted_text.
        destruct (started st) eqn:E; simpl; rewrite ?E.
        - rewrite app_nil_r. reflexivity.
        - destruct (prefix st); simpl; rewrite ?concat_app; simpl;
            rewrite ?app_nil_r; reflexivity. }
      assert (Es : started (start_window st) = true).
      { unfold start_window. destruct (started st) eqn:E; simpl; auto. }
      assert (Ev : visible (start_window st) = visible st).
      { unfold start_window. destruct (started st); reflexivity. }
      assert (Ep : pos (start_window st) = pos st).
      { unfold start_window. destruct (started st); reflexivity. }
      destruct (Z.leb_spec width (visible (start_window st) + _char_width db tok));
        [lia|].
      rewrite IH; [|exact Hrest|simpl; lia|simpl; lia].
      unfold emitted_text. simpl. rewrite Es, concat_app, Et.
      unfold emitted_text, raw_text. simpl.
      rewrite ?app_nil_r, <- ?app_assoc. reflexivity.
Qed.

End SlicerInvariants.

Section SlicerWidening.
Import Tokenizer Width Slicer.

Lemma slice_loop_out_grows (db : unicode_db) (start_col width : Z) (toks : list token) :
  forall st, exists more, out (slice_loop db start_col width toks st) = out st ++ more.
Proof.
  induction toks as [|[is_ansi tok] rest IH]; intros st; simpl.
  - exists []. rewrite app_nil_r. reflexivity.
  - repeat match goal with
           | |- context [if ?b then _ else _] => destruct b
           end;
    try (exists [tok]; reflexivity);
    match goal with
    | |- context [slice_loop _ _ _ rest ?s] =>
        destruct (IH s) as [more Hm]; rewrite Hm; simpl
    | _ => idtac
    end;
    unfold start_window; simpl;
    try (eexists; rewrite <- ?app_assoc; reflexivity);
    destruct (started st); simpl; try destruct (prefix st); simpl;
    eexists; rewrite <- ?app_assoc; reflexivity.
Qed.

(** A wider window emits what the narrower one emits, and then more. *)
Lemma slice_loop_widen (db : unicode_db) (start_col w w' : Z) (toks : list token) :
  (w <= w')%Z ->
  forall st, exists more,
    out (slice_loop db start_col w' toks st) =
    out (slice_loop db start_col w toks st) ++ more.
Proof.
  intros Hww. induction toks as [|[is_ansi tok] rest IH]; intros st; simpl.
  - exists []. rewrite app_nil_r. reflexivity.
  - destruct is_ansi; [destruct (negb (started st)); apply IH|].
    destruct (_char_width db tok <=? 0)%Z; [destruct (started st); apply IH|].
    destruct (pos st + _char_width db tok <=? start_col)%Z; [apply IH|].
    destruct (Z.leb_spec w (visible (start_window st) + _char_width db tok));
      destruct (Z.leb_spec w' (visible (start_window st) + _char_width db tok));
      try lia.
    + exists []. rewrite app_nil_r. reflexivity.
    + apply slice_loop_out_grows.
    + apply IH.
Qed.

End SlicerWidening.

Section SlicerExtras.
Import Tokenizer Width Slicer Columns SlicerState Examples UnicodeRef.

(** X6. A slice is made of whole tokens: it is empty, or it is the raw
    text of tokens of the line, taken in their order, followed by the
    reset. No escape sequence of the line is cut. *)
Theorem slice_whole_tokens (db : unicode_db) (line : str) (start_col width : Z) :
  slice_ansi db line start_col width = [] \/
  exists kept,
    subseq kept (_iter_tokens line) /\
    slice_ansi db line start_col width = raw_text kept ++ RESET.
Proof.
  rewrite slice_ansi_result.
  destruct (width <=? 0)%Z; [left; reflexivity|].
  destruct (started _); [|left; reflexivity].
  right.
  destruct (slice_loop_kept db start_col width (_iter_tokens line) slice_init)
    as (kept & Hs & He & _).
  exists kept. split; [exact Hs|]. rewrite He. reflexivity.
Qed.

(** X7. A slice that is not empty shows at least one column and fewer
    than [width + m] columns, where no character is wider than [m]: the
    last character shown may reach past the window by less than its own
    width. With the built-in tables [m] is 2. *)
Theorem slice_width_bound (db : unicode_db) (line : str) (start_col width m : Z) :
  (forall ch, (_char_width db ch <= m)%Z) ->
  slice_ansi db line start_col width = [] \/
  exists kept,
    subseq kept (_iter_tokens line) /\
    slice_ansi db line start_col width = raw_text kept ++ RESET /\
    (0 < visible_width_loop db kept 0 < width + m)%Z.
Proof.
  intros Hm. rewrite slice_ansi_result.
  destruct (Z.leb_spec width 0); [left; reflexivity|].
  destruct (started _) eqn:Hst; [|left; reflexivity].
  right.
  destruct (slice_loop_kept db start_col width (_iter_tokens line) slice_init)
    as (kept & Hs & He & Hv).
  exists kept. split; [exact Hs|]. split; [rewrite He; reflexivity|].
  pose proof (slice_loop_visible_bound db start_col width m Hm
                (_iter_tokens line) slice_init) as Hb.
  pose proof (slice_loop_started_visible db start_col width
                (_iter_tokens line) slice_init eq_refl Hst) as Hp.
  simpl in Hv, Hb, Hp. rewrite Hv in Hb, Hp. lia.
Qed.

Lemma slice_width_bound_witness :
  slice_ansi unicode_ref wide_line 0 2 = [] \/
  exists kept,
    subseq kept (_iter_tokens wide_line) /\
    slice_ansi unicode_ref wide_line 0 2 = raw_text kept ++ RESET /\
    (0 < visible_width_loop unicode_ref kept 0 < 2 + 2)%Z.
Proof.
  apply (slice_width_bound unicode_ref wide_line 0 2 2).
  intros ch. apply char_width_fallback_le_2. reflexivity.
Defined.

Lemma slice_ansi_empty_iff (db : unicode_db) (line : str) (start_col width : Z) :
  (0 <= start_col)%Z -> (0 < width)%Z ->
  (slice_ansi db line start_col width = [] <->
   (visible_width db line <= start_col)%Z).
Proof.
  intros Hs Hw. rewrite slice_ansi_result.
  destruct (Z.leb_spec width 0); [lia|].
  rewrite (slice_loop_started_iff db start_col width (_iter_tokens line) slice_init eq_refl).
  simpl pos. rewrite (started_iff_width db start_col (_iter_tokens line) 0%Z Hs).
  unfold visible_width.
  destruct (Z.ltb_spec start_col (visible_width_loop db (_iter_tokens line) 0)).
  - split; [|lia]. intros H1. apply (f_equal (@length _)) in H1.
    rewrite length_app in H1. simpl in H1. lia.
  - split; [intros _; assumption|reflexivity].
Qed.

(** X8. With a start column at or above 0 and a positive width, the
    slice of a line is empty exactly when the visible width of the line
    is at most the start column. *)
Theorem slice_empty_iff (db : unicode_db) (line : str) (start_col width : Z) :
  (0 <= start_col)%Z -> (0 < width)%Z ->
  (slice_ansi db line start_col width = [] <->
   (visible_width db line <= start_col)%Z).
Proof. apply slice_ansi_empty_iff. Qed.

Lemma slice_empty_iff_witness :
  slice_ansi unicode_ref hello_world 11 5 = [] <->
  (visible_width unicode_ref hello_world <= 11)%Z.
Proof.
  apply (slice_empty_iff unicode_ref hello_world 11 5); lia.
Defined.

(** X9. Widening the window only adds to the slice: for widths
    [0 < w <= w'], either both slices are empty, or the slice of width
    [w'] is that of width [w] with more text before the reset. *)
Theorem slice_widen (db : unicode_db) (line : str) (start_col w w' : Z) :
  (0 < w)%Z -> (w <= w')%Z ->
  (slice_ansi db line start_col w = [] /\ slice_ansi db line start_col w' = []) \/
  exists body more,
    slice_ansi db line start_col w = body ++ RESET /\
    slice_ansi db line start_col w' = body ++ more ++ RESET.
Proof.
  intros Hw Hww. unfold slice_ansi.
  destruct (Z.leb_spec w 0); [lia|]. destruct (Z.leb_spec w' 0); [lia|].
  rewrite (slice_loop_started_iff db start_col w (_iter_tokens line) slice_init eq_refl).
  rewrite (slice_loop_started_iff db start_col w' (_iter_tokens line) slice_init eq_refl).
  destruct (existsb _ _); simpl; [|left; split; reflexivity].
  right.
  destruct (slice_loop_widen db start_col w w' (_iter_tokens line) Hww slice_init)
    as [more Hm].
  exists (concat (out (slice_loop db start_col w (_iter_tokens line) slice_init))),
         (concat more).
  split.
  - rewrite concat_app. reflexivity.
  - rewrite Hm, !concat_app, <- app_assoc. reflexivity.
Qed.

Lemma slice_widen_witness :
  (slice_ansi unicode_ref hello_world 6 2 = [] /\
   slice_ansi unicode_ref hello_world 6 5 = []) \/
  exists body more,
    slice_ansi unicode_ref hello_world 6 2 = body ++ RESET /\
    slice_ansi unicode_ref hello_world 6 5 = body ++ more ++ RESET.
Proof.
  apply (slice_widen unicode_ref hello_world 6 2 5); lia.
Defined.

(** X10. Without horizontal offset and with a window wider than the
    line, a line that holds no zero-width character and at least one
    visible one is shown whole: the slice is the line followed by the
    reset. *)
Theorem slice_whole_line (db : unicode_db) (line : str) (width : Z) :
  no_zero_width db (_iter_tokens line) ->
  (0 < visible_width db line < width)%Z ->
  slice_ansi db line 0 width = line ++ RESET.
Proof.
  intros Hnz [Hpos Hlt]. unfold visible_width in *.
  rewrite slice_ansi_result.
  destruct (Z.leb_spec width 0); [lia|].
  rewrite (slice_loop_started_iff db 0 width (_iter_tokens line) slice_init eq_refl).
  simpl pos. rewrite (started_iff_width db 0 (_iter_tokens line) 0%Z (Z.le_refl 0)).
  destruct (Z.ltb_spec 0 (visible_width_loop db (_iter_tokens line) 0)); [|lia].
  rewrite (slice_loop_all db 0 width (_iter_tokens line) slice_init Hnz);
    [|simpl; lia|simpl; lia].
  rewrite emitted_text_init. simpl app.
  unfold _iter_tokens. rewrite iter_tokens_from_raw by lia. reflexivity.
Qed.

Lemma slice_whole_line_witness :
  slice_ansi unicode_ref hello_world 0 80 = hello_world ++ RESET.
Proof.
  apply (slice_whole_line unicode_ref hello_world 80).
  - unfold no_zero_width. vm_compute _iter_tokens.
    repeat constructor; try (left; reflexivity); right; reflexivity.
  - split; reflexivity.
Defined.

End SlicerExtras.

(* ================================================================== *)
(** * More on the key decoder *)

Section KeysSuffixFacts.
Import Keys KeysSuffix.

Lemma skip_params_run (buf : bytes) :
  forall fuel j, length buf - j <= fuel ->
    skip_params fuel buf j = j + param_run (skipn j buf).
Proof.
  induction fuel as [|fuel IH]; intros j Hf; simpl.
  - rewrite skipn_all2 by lia. simpl. lia.
  - destruct (Nat.ltb_spec j (length buf)) as [Hlt|Hge]; simpl.
    + rewrite (skipn_byte_at buf j Hlt). simpl.
      unfold byte_at, is_final_byte.
      destruct ((0x40 <=? Byte.to_N (nth j buf x00))%N
                && (Byte.to_N (nth j buf x00) <=? 0x7e)%N); simpl; [lia|].
      rewrite IH by lia. lia.
    + rewrite skipn_all2 by lia. simpl. lia.
Qed.

Lemma param_run_le (rest : bytes) : param_run rest <= length rest.
Proof.
  induction rest as [|b tl IH]; simpl; [lia|].
  destruct (is_final_byte b); simpl; lia.
Qed.

Lemma param_run_all (rest : bytes) :
  skipn (param_run rest) rest = [] ->
  forallb (fun b => negb (is_final_byte b)) rest = true.
Proof.
  induction rest as [|b tl IH]; simpl; [reflexivity|].
  destruct (is_final_byte b); simpl; [discriminate|]. exact IH.
Qed.

Lemma param_run_final (rest : bytes) (f : byte) (tl : bytes) :
  skipn (param_run rest) rest = f :: tl -> is_final_byte f = true.
Proof.
  induction rest as [|b r IH]; simpl; [discriminate|].
  destruct (is_final_byte b) eqn:E; simpl.
  - intros [= <- _]. exact E.
  - exact IH.
Qed.

Lemma param_run_app (params : bytes) (f : byte) (tl : bytes) :
  forallb (fun b => negb (is_final_byte b)) params = true ->
  is_final_byte f = true ->
  skipn (param_run (params ++ f :: tl)) (params ++ f :: tl) = f :: tl.
Proof.
  intros Hp Hf. induction params as [|b r IH]; simpl.
  - rewrite Hf. reflexivity.
  - simpl in Hp. apply andb_true_iff in Hp. destruct Hp as [Hb Hr].
    apply negb_true_iff in Hb. rewrite Hb. simpl. apply IH. exact Hr.
Qed.

(** The loop of [parse_keys] depends on the bytes from [i] on only. *)
Lemma parse_loop_rest (buf : bytes) :
  forall fuel i actions, length buf - i <= fuel ->
    (fst (parse_loop fuel buf i actions),
     skipn (snd (parse_loop fuel buf i actions)) buf)
    = decode_rest fuel (skipn i buf) actions.
Proof.
  induction fuel as [|fuel IH]; intros i actions Hf.
  - reflexivity.
  - cbn [parse_loop decode_rest].
    destruct (Nat.ltb_spec i (length buf)) as [Hlt|Hge];
      [|cbn [fst snd]; rewrite skipn_all2 by lia; reflexivity].
    assert (Hsk : skipn i buf = nth i buf x00 :: skipn (i + 1) buf)
      by (apply skipn_byte_at; exact Hlt).
    assert (Hsk3 : skipn (i + 3) buf = skipn 3 (skipn i buf)).
    { rewrite skipn_skipn. f_equal. lia. }
    unfold startswith, byte_at. cbn [length].
    rewrite Hsk in Hsk3 |- *. cbv beta iota.
    destruct (negb (Byte.to_N (nth i buf x00) =? 0x1b)%N);
      [apply IH; lia|].
    destruct (bytes_eqb (firstn 3 (nth i buf x00 :: skipn (i + 1) buf)) [x1b; x5b; x43]);
      [rewrite <- Hsk3; apply IH; lia|].
    destruct (bytes_eqb (firstn 3 (nth i buf x00 :: skipn (i + 1) buf)) [x1b; x5b; x44]);
      [rewrite <- Hsk3; apply IH; lia|].
    destruct (bytes_eqb (firstn 3 (nth i buf x00 :: skipn (i + 1) buf)) [x1b; x4f; x43]);
      [rewrite <- Hsk3; apply IH; lia|].
    destruct (bytes_eqb (firstn 3 (nth i buf x00 :: skipn (i + 1) buf)) [x1b; x4f; x44]);
      [rewrite <- Hsk3; apply IH; lia|].
    destruct (Nat.ltb_spec (i + 1) (length buf)) as [H1|H1].
    + assert (Hsk1 : skipn (i + 1) buf = nth (i + 1) buf x00 :: skipn (i + 2) buf).
      { rewrite (skipn_byte_at buf (i + 1) H1). f_equal. f_equal. lia. }
      rewrite Hsk1. cbn [andb].
      destruct (Byte.to_N (nth (i + 1) buf x00) =? 0x5b)%N;
        [|rewrite <- Hsk1; apply IH; lia].
      rewrite skip_params_run by lia.
      pose proof (param_run_le (skipn (i + 2) buf)) as Hle.
      rewrite length_skipn in Hle.
      set (n := param_run (skipn (i + 2) buf)) in *.
      assert (Hskn : skipn n (skipn (i + 2) buf) = skipn (i + 2 + n) buf).
      { rewrite skipn_skipn. f_equal. lia. }
      rewrite Hskn.
      destruct (Nat.ltb_spec (i + 2 + n) (length buf)) as [H2|H2].
      * rewrite (skipn_byte_at buf (i + 2 + n) H2).
        pose proof (IH (i + 2 + n + 1)) as IH'.
        rewrite <- IH' by lia.
        simpl firstn. unfold csi_action.
        destruct (bytes_eqb [nth (i + 2 + n) buf x00] [x43]); [reflexivity|].
        destruct (bytes_eqb [nth (i + 2 + n) buf x00] [x44]);
          [reflexivity|rewrite app_nil_r; reflexivity].
      * rewrite (skipn_all2 buf (n := i + 2 + n)) by lia.
        cbn [fst snd]. rewrite Hsk, Hsk1. reflexivity.
    + pose proof (IH (i + 1) actions ltac:(lia)) as IH1.
      rewrite (skipn_all2 buf (n := i + 1)) in IH1 |- * by lia. simpl.
      exact IH1.
Qed.

Lemma parse_keys_decode_rest (buf : bytes) :
  parse_keys buf = decode_rest (length buf) buf [].
Proof.
  unfold parse_keys.
  pose proof (parse_loop_rest buf (length buf) 0 [] ltac:(lia)) as H.
  destruct (parse_loop (length buf) buf 0 []) as [a j]. exact H.
Qed.

End KeysSuffixFacts.

Section DecodeRestFacts.
Import Keys KeysSuffix.

Lemma byte_is_esc (b : byte) : (Byte.to_N b =? 0x1b)%N = Byte.eqb b x1b.
Proof. destruct b; reflexivity. Qed.

Lemma byte_is_etx (b : byte) : (Byte.to_N b =? 0x03)%N = Byte.eqb b x03.
Proof. destruct b; reflexivity. Qed.

Lemma byte_is_bracket (b : byte) : (Byte.to_N b =? 0x5b)%N = Byte.eqb b x5b.
Proof. destruct b; reflexivity. Qed.

Lemma param_run_tail (rest : bytes) (f : byte) (tl : bytes) :
  skipn (param_run rest) rest = f :: tl -> length tl < length rest.
Proof.
  intros H. apply (f_equal (@length _)) in H.
  rewrite length_skipn in H. simpl in H. lia.
Qed.

(** Any fuel that covers the bytes left gives the same result. *)
Lemma decode_rest_fuel :
  forall fuel fuel' rest actions,
    length rest <= fuel -> length rest <= fuel' ->
    decode_rest fuel rest actions = decode_rest fuel' rest actions.
Proof.
  induction fuel as [|fuel IH]; intros fuel' rest actions Hf Hf'.
  - destruct rest; [|simpl in Hf; lia]. destruct fuel'; reflexivity.
  - destruct fuel' as [|fuel'].
    + destruct rest; [reflexivity|simpl in Hf'; lia].
    + cbn [decode_rest]. destruct rest as [|b tl]; [reflexivity|].
      simpl length in Hf, Hf'.
      assert (H3 : length (skipn 3 (b :: tl)) <= length tl).
      { rewrite length_skipn. simpl. lia. }
      destruct (negb _); [apply IH; lia|].
      do 4 (destruct (bytes_eqb _ _); [apply IH; lia|]).
      destruct tl as [|c tl2]; [apply IH; simpl; lia|].
      destruct (Byte.to_N c =? 0x5b)%N; [|apply IH; simpl in *; lia].
      destruct (skipn (param_run tl2) tl2) as [|f tl3] eqn:E; [reflexivity|].
      apply param_run_tail in E. apply IH; simpl in *; lia.
Qed.

(** The actions found are added after the actions so far. *)
Lemma decode_rest_acc :
  forall fuel rest actions,
    decode_rest fuel rest actions =
    (actions ++ fst (decode_rest fuel rest []), snd (decode_rest fuel rest [])).
Proof.
  induction fuel as [|fuel IH]; intros rest actions.
  - simpl. rewrite app_nil_r. reflexivity.
  - cbn [decode_rest]. destruct rest as [|b tl];
      [simpl; rewrite app_nil_r; reflexivity|].
    assert (Hrec : forall r a x,
               decode_rest fuel r (a ++ x) =
               (a ++ fst (decode_rest fuel r ([] ++ x)),
                snd (decode_rest fuel r ([] ++ x)))).
    { intros r a x. rewrite (IH r (a ++ x)), (IH r ([] ++ x)).
      simpl. rewrite app_assoc. reflexivity. }
    destruct (negb _).
    { destruct (Byte.to_N b =? 3)%N; [apply Hrec|apply IH]. }
    do 4 (destruct (bytes_eqb _ _); [apply Hrec|]).
    destruct tl as [|c tl2]; [apply IH|].
    destruct (Byte.to_N c =? 0x5b)%N; [|apply IH].
    destruct (skipn (param_run tl2) tl2) as [|f tl3];
      [simpl; rewrite app_nil_r; reflexivity|].
    apply Hrec.
Qed.

(** What is left is nothing or an unfinished CSI sequence. *)
Lemma decode_rest_remainder :
  forall fuel rest actions, length rest <= fuel ->
    snd (decode_rest fuel rest actions) = [] \/
    partial_csi (snd (decode_rest fuel rest actions)).
Proof.
  induction fuel as [|fuel IH]; intros rest actions Hf.
  - destruct rest; [left; reflexivity|simpl in Hf; lia].
  - cbn [decode_rest]. destruct rest as [|b tl]; [left; reflexivity|].
    simpl length in Hf.
    assert (H3 : length (skipn 3 (b :: tl)) <= length tl).
    { rewrite length_skipn. simpl. lia. }
    rewrite byte_is_esc.
    destruct (Byte.eqb b x1b) eqn:Eb; simpl negb; cbv iota; [|apply IH; lia].
    apply Byte.byte_dec_bl in Eb. subst b.
    do 4 (destruct (bytes_eqb _ _); [apply IH; lia|]).
    destruct tl as [|c tl2]; [apply IH; simpl; lia|].
    rewrite byte_is_bracket.
    destruct (Byte.eqb c x5b) eqn:Ec; [|apply IH; simpl in *; lia].
    apply Byte.byte_dec_bl in Ec. subst c.
    destruct (skipn (param_run tl2) tl2) as [|f tl3] eqn:E.
    + right. exists tl2. split; [reflexivity|]. apply param_run_all. exact E.
    + apply param_run_tail in E. apply IH; simpl in *; lia.
Qed.

(** Only the three actions are reported, and one byte gives at most one. *)
Lemma decode_rest_actions :
  forall fuel rest actions,
    Forall is_action actions ->
    Forall is_action (fst (decode_rest fuel rest actions)) /\
    length (fst (decode_rest fuel rest actions))
      + length (snd (decode_rest fuel rest actions))
    <= length actions + length rest.
Proof.
  assert (Hq : forall a x, Forall is_action a -> is_action x -> Forall is_action (a ++ [x])).
  { intros a x Ha Hx. apply Forall_app. split; [exact Ha|]. constructor; [exact Hx|constructor]. }
  assert (Hc : forall a f, Forall is_action a -> Forall is_action (a ++ csi_action f)).
  { intros a f Ha. apply Forall_app. split; [exact Ha|]. unfold csi_action.
    destruct (bytes_eqb [f] [x43]);
      [constructor; [right; left; reflexivity|constructor]|].
    destruct (bytes_eqb [f] [x44]);
      [constructor; [left; reflexivity|constructor]|constructor]. }
  assert (Hcl : forall f, length (csi_action f) <= 1).
  { intros f. unfold csi_action.
    destruct (bytes_eqb [f] [x43]); [simpl; lia|].
    destruct (bytes_eqb [f] [x44]); simpl; lia. }
  induction fuel as [|fuel IH]; intros rest actions Ha.
  - simpl. split; [exact Ha|lia].
  - cbn [decode_rest]. destruct rest as [|b tl]; [simpl; split; [exact Ha|lia]|].
    assert (H3 : length (skipn 3 (b :: tl)) <= length tl).
    { rewrite length_skipn. simpl. lia. }
    assert (Hstep : forall r a,
               Forall is_action a -> length a + length r <= length actions + length (b :: tl) ->
               Forall is_action (fst (decode_rest fuel r a)) /\
               length (fst (decode_rest fuel r a)) + length (snd (decode_rest fuel r a))
               <= length actions + length (b :: tl)).
    { intros r a Hfa Hl. destruct (IH r a Hfa) as [H1 H2]. split; [exact H1|lia]. }
    destruct (negb _).
    { destruct (Byte.to_N b =? 3)%N; apply Hstep;
        try (apply Hq; [exact Ha|unfold is_action; auto]); try exact Ha;
        rewrite ?length_app; simpl; lia. }
    do 4 (destruct (bytes_eqb _ _);
          [apply Hstep; [apply Hq; [exact Ha|unfold is_action; auto]
                        |rewrite length_app; simpl in *; lia]|]).
    destruct tl as [|c tl2]; [apply Hstep; [exact Ha|simpl; lia]|].
    destruct (Byte.to_N c =? 0x5b)%N; [|apply Hstep; [exact Ha|simpl; lia]].
    destruct (skipn (param_run tl2) tl2) as [|f tl3] eqn:E.
    + simpl. split; [exact Ha|lia].
    + apply param_run_tail in E. apply Hstep; [apply Hc; exact Ha|].
      rewrite length_app. pose proof (Hcl f). simpl in *. lia.
Qed.

(** Without [ESC] in the buffer, every byte is consumed and each [ETX]
    is a ["quit"]. *)
Lemma decode_rest_no_esc :
  forall fuel rest actions, length rest <= fuel ->
    Forall (fun b => b <> x1b) rest ->
    decode_rest fuel rest actions =
    (actions ++ map (fun _ => "quit"%string) (filter (Byte.eqb x03) rest), []).
Proof.
  induction fuel as [|fuel IH]; intros rest actions Hf Hno.
  - destruct rest; [|simpl in Hf; lia]. simpl. rewrite app_nil_r. reflexivity.
  - destruct rest as [|b tl]; [simpl; rewrite app_nil_r; reflexivity|].
    inversion Hno as [|? ? Hb Htl]; subst. simpl in Hf.
    cbn [decode_rest]. rewrite byte_is_esc, byte_is_etx.
    rewrite (byte_eqb_neq b x1b Hb). simpl negb. cbv iota.
    rewrite IH by (auto; lia). simpl filter.
    destruct b; simpl; rewrite <- ?app_assoc; reflexivity.
Qed.

End DecodeRestFacts.

Section KeysExtras.
Import Keys KeysSuffix.

(** X11. What [parse_keys] returns as remainder is empty or an unfinished
    CSI sequence ([ESC [] followed by bytes none of which is a final
    byte); and decoding that remainder alone reports no action and
    returns it unchanged, so that it waits for the bytes to come. *)
Theorem parse_keys_remainder (buf : bytes) :
  (snd (parse_keys buf) = [] \/ partial_csi (snd (parse_keys buf))) /\
  parse_keys (snd (parse_keys buf)) = ([], snd (parse_keys buf)).
Proof.
  assert (H : snd (parse_keys buf) = [] \/ partial_csi (snd (parse_keys buf))).
  { rewrite parse_keys_decode_rest. apply decode_rest_remainder. lia. }
  split; [exact H|].
  destruct H as [-> | (params & -> & Hp)].
  - reflexivity.
  - apply parse_keys_keeps_partial_csi. exact Hp.
Qed.

(** X12. [parse_keys] reports only ["left"], ["right"] and ["quit"], and
    a byte gives at most one action: the actions and the bytes left are
    together not more than the bytes of the buffer. *)
Theorem parse_keys_actions (buf : bytes) :
  Forall is_action (fst (parse_keys buf)) /\
  length (fst (parse_keys buf)) + length (snd (parse_keys buf)) <= length buf.
Proof.
  rewrite parse_keys_decode_rest.
  apply (decode_rest_actions (length buf) buf []). constructor.
Qed.

(** X13. A buffer without the [ESC] byte is consumed whole: the
    remainder is empty, and the actions are one ["quit"] for each [ETX]
    byte (0x03), every other byte being discarded. *)
Theorem parse_keys_no_esc (buf : bytes) :
  Forall (fun b => b <> x1b) buf ->
  parse_keys buf =
  (map (fun _ => "quit"%string) (filter (Byte.eqb x03) buf), []).
Proof.
  intros Hno. rewrite parse_keys_decode_rest.
  rewrite decode_rest_no_esc by (auto; lia). reflexivity.
Qed.

Lemma parse_keys_no_esc_witness :
  parse_keys [x61; x03; x5b; x43; x03] = (["quit"; "quit"]%string, []).
Proof.
  apply (parse_keys_no_esc [x61; x03; x5b; x43; x03]).
  repeat constructor; discriminate.
Defined.

Lemma parse_keys_step (key rest : bytes) (acts : list string) (fuel : nat) :
  length rest <= fuel ->
  decode_rest (length (key ++ rest)) (key ++ rest) [] =
    decode_rest fuel rest ([] ++ acts) ->
  parse_keys (key ++ rest) = (acts ++ fst (parse_keys rest), snd (parse_keys rest)).
Proof.
  intros Hf H. rewrite !parse_keys_decode_rest, H.
  rewrite decode_rest_acc. simpl app.
  rewrite (decode_rest_fuel fuel (length rest) rest []) by lia.
  reflexivity.
Qed.

(** X14. Decoding goes key by key: when the buffer starts with a
    complete key, the result is the action of that key followed by the
    decoding of the rest. A complete key is [ETX] (["quit"]); a byte
    other than [ESC] and [ETX] (no action); an SS3 arrow [ESC O C] or
    [ESC O D]; a CSI sequence [ESC [], parameter bytes and a final byte,
    whose action is ["right"] for [C], ["left"] for [D] and none
    otherwise. *)
Theorem parse_keys_compositional (rest : bytes) :
  parse_keys (x03 :: rest) = ("quit"%string :: fst (parse_keys rest), snd (parse_keys rest)) /\
  (forall b, b <> x1b -> b <> x03 -> parse_keys (b :: rest) = parse_keys rest) /\
  parse_keys (x1b :: x4f :: x43 :: rest) =
    ("right"%string :: fst (parse_keys rest), snd (parse_keys rest)) /\
  parse_keys (x1b :: x4f :: x44 :: rest) =
    ("left"%string :: fst (parse_keys rest), snd (parse_keys rest)) /\
  (forall params final,
     forallb (fun b => negb (is_final_byte b)) params = true ->
     is_final_byte final = true ->
     parse_keys (x1b :: x5b :: params ++ final :: rest) =
       (csi_action final ++ fst (parse_keys rest), snd (parse_keys rest))).
Proof.
  repeat split.
  - apply (parse_keys_step [x03] rest ["quit"%string] (length rest)); [lia|reflexivity].
  - intros b Hb Hb3.
    change (b :: rest) with ([b] ++ rest).
    rewrite (parse_keys_step [b] rest [] (length rest)); [|lia|].
    + simpl. destruct (parse_keys rest); reflexivity.
    + simpl. rewrite byte_is_esc, byte_is_etx.
      rewrite (byte_eqb_neq b x1b Hb), (byte_eqb_neq b x03 Hb3). reflexivity.
  - apply (parse_keys_step [x1b; x4f; x43] rest ["right"%string] (S (S (length rest))));
      [lia|reflexivity].
  - apply (parse_keys_step [x1b; x4f; x44] rest ["left"%string] (S (S (length rest))));
      [lia|reflexivity].
  - intros params final Hp Hf.
    assert (A1 : forall c l,
               bytes_eqb (firstn 3 (x1b :: x5b :: l)) [x1b; x4f; c] = false)
      by reflexivity.
    assert (A2 : forall f c tl,
               bytes_eqb (firstn 3 (x1b :: x5b :: f :: tl)) [x1b; x5b; c] = Byte.eqb f c).
    { intros f c tl. simpl. destruct (Byte.eqb f c); reflexivity. }
    assert (A3 : forall f c, bytes_eqb [f] [c] = Byte.eqb f c).
    { intros f c. simpl. apply andb_true_r. }
    replace (x1b :: x5b :: params ++ final :: rest)
      with ((x1b :: x5b :: params ++ [final]) ++ rest)
      by (simpl; rewrite <- app_assoc; reflexivity).
    apply (parse_keys_step (x1b :: x5b :: params ++ [final]) rest (csi_action final)
             (length rest + 2)); [lia|].
    replace ((x1b :: x5b :: params ++ [final]) ++ rest)
      with (x1b :: x5b :: params ++ final :: rest)
      by (simpl; rewrite <- app_assoc; reflexivity).
    replace (length (x1b :: x5b :: params ++ final :: rest))
      with (S (length params + length rest + 2))
      by (simpl; rewrite length_app; simpl; lia).
    cbn [decode_rest].
    rewrite byte_is_esc. change (Byte.eqb x1b x1b) with true. cbn [negb].
    rewrite !A1.
    rewrite byte_is_bracket. change (Byte.eqb x5b x5b) with true. cbv iota.
    destruct params as [|p ps].
    + cbn [app]. rewrite !A2. cbn [skipn param_run app].
      unfold csi_action. rewrite !A3.
      destruct (Byte.eqb final x43) eqn:E43; [apply decode_rest_fuel; simpl; lia|].
      destruct (Byte.eqb final x44) eqn:E44; [apply decode_rest_fuel; simpl; lia|].
      rewrite Hf. cbn [skipn]. rewrite !A3, E43, E44.
      apply decode_rest_fuel; simpl; lia.
    + cbn [forallb] in Hp. apply andb_true_iff in Hp. destruct Hp as [Hp1 Hp2].
      apply negb_true_iff in Hp1.
      destruct (param_byte_not_arrow p Hp1) as [H43 H44].
      cbn [app]. rewrite !A2, H43, H44.
      change (p :: ps ++ final :: rest) with ((p :: ps) ++ final :: rest).
      rewrite (param_run_app (p :: ps) final rest);
        [|cbn [forallb]; rewrite Hp1; exact Hp2|exact Hf].
      unfold csi_action. apply decode_rest_fuel; simpl; lia.
Qed.

Lemma parse_keys_compositional_witness :
  parse_keys (x61 :: [x03]) = parse_keys [x03] /\
  parse_keys (x1b :: x5b :: [x31; x3b; x35] ++ x43 :: [x03]) =
    (csi_action x43 ++ fst (parse_keys [x03]), snd (parse_keys [x03])).
Proof.
  destruct (parse_keys_compositional [x03]) as (_ & Hb & _ & _ & Hcsi).
  split.
  - apply Hb; discriminate.
  - apply Hcsi; reflexivity.
Defined.

End KeysExtras.

(* ================================================================== *)
(** * More on the loop *)

Section LoopInvariant.
Import Width Slicer Keys Main Paint.

Variable decode : bytes -> str.
Variable cap : nat.
Variable db : unicode_db.

Lemma append_bounded (A : Type) (d : Deque.deque A) (x : A) :
  Deque.bounded d ->
  Deque.bounded (Deque.append d x) /\
  Deque.maxlen (Deque.append d x) = Deque.maxlen d.
Proof.
  intros Hd. split; [apply (append_items A d x Hd)|reflexivity].
Qed.

Lemma append_raws_bounded (raws : list bytes) :
  forall ls, Deque.bounded ls ->
    Deque.bounded (fold_left (append_raw decode) raws ls) /\
    Deque.maxlen (fold_left (append_raw decode) raws ls) = Deque.maxlen ls.
Proof.
  induction raws as [|r raws IH]; intros ls Hls; simpl; [auto|].
  destruct (append_bounded str ls (decode (rstrip CR r)) Hls) as [Hb Hm].
  destruct (IH (append_raw decode ls r) Hb) as [Hb' Hm'].
  split; [exact Hb'|]. rewrite Hm'. exact Hm.
Qed.

Lemma flush_oversized_bounded :
  forall fuel buf ls d, Deque.bounded ls ->
    Deque.bounded (snd (fst (flush_oversized decode cap fuel buf ls d))) /\
    Deque.maxlen (snd (fst (flush_oversized decode cap fuel buf ls d))) = Deque.maxlen ls.
Proof.
  induction fuel as [|fuel IH]; intros buf ls d Hls; simpl; [auto|].
  destruct (cap <? length buf); [|simpl; auto].
  destruct (negb (rfind NL (firstn cap buf) =? -1)%Z).
  - match goal with
    | |- context [fold_left (append_raw decode) ?raws ls] =>
        destruct (append_raws_bounded raws ls Hls) as [Hb Hm]
    end.
    match goal with
    | |- context [flush_oversized _ _ fuel ?b ?l ?x] =>
        destruct (IH b l x Hb) as [Hb' Hm']
    end.
    split; [exact Hb'|]. rewrite Hm'. exact Hm.
  - destruct (append_bounded str ls (decode (rstrip CR (firstn cap buf))) Hls) as [Hb Hm].
    match goal with
    | |- context [flush_oversized _ _ fuel ?b ?l ?x] =>
        destruct (IH b l x Hb) as [Hb' Hm']
    end.
    split; [exact Hb'|]. rewrite Hm'. exact Hm.
Qed.

Lemma get_term_size_pos (os_size : option (Z * Z)) :
  (1 <= fst (get_term_size os_size))%Z /\ (1 <= snd (get_term_size os_size))%Z.
Proof. destruct os_size as [[c r]|]; simpl; lia. Qed.

Lemma start_ok (os_size : option (Z * Z)) :
  exists v, start os_size = Some v /\ viewer_ok v.
Proof.
  unfold start. pose proof (get_term_size_pos os_size) as [Hw Hh].
  destruct (get_term_size os_size) as [w h]. simpl in Hw, Hh.
  rewrite new_items by lia. eexists. split; [reflexivity|].
  unfold viewer_ok, Deque.bounded. simpl. repeat split; lia.
Qed.

Lemma resize_ok (v : viewer) (os_size : option (Z * Z)) :
  viewer_ok v -> exists v', resize v os_size = Some v' /\ viewer_ok v'.
Proof.
  intros (_ & _ & _ & _ & Hx).
  unfold resize. pose proof (get_term_size_pos os_size) as [Hw Hh].
  destruct (get_term_size os_size) as [w h]. simpl in Hw, Hh.
  rewrite new_items by lia. eexists. split; [reflexivity|].
  unfold viewer_ok, Deque.bounded. simpl. rewrite lastn_length.
  repeat split; lia.
Qed.

Lemma feed_chunk_ok (v : viewer) (chunk : bytes) :
  viewer_ok v -> viewer_ok (feed_chunk decode cap v chunk).
Proof.
  intros (Hb & Hm & Hh & Hw & Hx). unfold feed_chunk.
  pose proof (flush_oversized_bounded (length (inbuf v ++ chunk)) (inbuf v ++ chunk)
                (lines v) (dirty v) Hb) as [Hb1 Hm1].
  destruct (flush_oversized decode cap _ _ _ _) as [[buf ls] d]. simpl in Hb1, Hm1.
  destruct (append_raws_bounded (removelast (split NL buf)) ls Hb1) as [Hb2 Hm2].
  unfold viewer_ok. simpl. repeat split; try assumption; try apply Hb2.
  rewrite Hm2, Hm1. exact Hm.
Qed.

Lemma eof_flush_ok (v : viewer) :
  viewer_ok v -> viewer_ok (eof_flush decode v).
Proof.
  intros Hv. unfold eof_flush. destruct (inbuf v) as [|b0 l0]; [exact Hv|].
  destruct Hv as (Hb & Hm & Hh & Hw & Hx).
  destruct (append_bounded str (lines v) (decode (rstrip CR (b0 :: l0))) Hb) as [Hb' Hm'].
  unfold viewer_ok. simpl. repeat split; try assumption; apply Hb'.
Qed.

Lemma apply_action_ok (v v' : viewer) (action : string) :
  viewer_ok v -> apply_action db v action = Some v' -> viewer_ok v'.
Proof.
  intros (Hb & Hm & Hh & Hw & Hx). unfold apply_action.
  destruct (String.eqb action "left");
    [intros [= <-]; unfold viewer_ok; simpl; repeat split; try assumption; try apply Hb; lia|].
  destruct (String.eqb action "right");
    [intros [= <-]; unfold viewer_ok; simpl; repeat split; try assumption; try apply Hb; lia|].
  destruct (String.eqb action "quit"); [discriminate|].
  intros [= <-]. unfold viewer_ok. auto.
Qed.

Lemma apply_actions_ok (actions : list string) :
  forall v v', viewer_ok v -> apply_actions db v actions = Some v' -> viewer_ok v'.
Proof.
  induction actions as [|a rest IH]; intros v v' Hv; simpl.
  - intros [= <-]. exact Hv.
  - destruct (apply_action db v a) as [v1|] eqn:E; [|discriminate].
    apply IH. apply (apply_action_ok v v1 a Hv E).
Qed.

Lemma on_keys_ok (v v' : viewer) (data : bytes) :
  viewer_ok v -> on_keys db v data = Some v' -> viewer_ok v'.
Proof.
  intros Hv. unfold on_keys. destruct data as [|b data]; [discriminate|].
  destruct (parse_keys (keybuf v ++ b :: data)) as [actions rest].
  apply apply_actions_ok. exact Hv.
Qed.

Lemma repaint_ok (v : viewer) (first : bool) :
  viewer_ok v -> viewer_ok (fst (fst (repaint db v first))).
Proof.
  intros Hv. unfold repaint. destruct (dirty v); [|exact Hv].
  destruct Hv as (Hb & Hm & Hh & Hw & Hx).
  unfold viewer_ok. simpl. repeat split; try assumption; try apply Hb. lia.
Qed.

End LoopInvariant.

Section LoopInvariantClaim.
Import Width Main Paint.

(** X15. The loop keeps its variables well formed. The viewer it starts
    with, and every viewer that a resize, a chunk of input, the end of
    input, a read of keys or a repaint makes of a well-formed one, is
    well formed: the line buffer holds at most as many lines as the
    terminal has rows, its capacity is the number of rows, the terminal
    has at least one row and one column, and the horizontal offset is
    not negative. Starting and resizing never raise. *)
Theorem viewer_invariant (decode : bytes -> str) (cap : nat) (db : unicode_db) :
  (forall os_size, exists v, start os_size = Some v /\ viewer_ok v) /\
  (forall v os_size, viewer_ok v ->
     exists v', resize v os_size = Some v' /\ viewer_ok v') /\
  (forall v chunk, viewer_ok v -> viewer_ok (feed_chunk decode cap v chunk)) /\
  (forall v, viewer_ok v -> viewer_ok (eof_flush decode v)) /\
  (forall v v' data, viewer_ok v -> on_keys db v data = Some v' -> viewer_ok v') /\
  (forall v first, viewer_ok v -> viewer_ok (fst (fst (repaint db v first)))).
Proof.
  split; [|split; [|split; [|split; [|split]]]].
  - apply start_ok.
  - apply resize_ok.
  - apply feed_chunk_ok.
  - apply eof_flush_ok.
  - apply on_keys_ok.
  - apply repaint_ok.
Qed.

Lemma viewer_invariant_witness :
  viewer_ok
    (feed_chunk (map Byte.to_N) 4
       {| term_width := 80; term_height := 2;
          lines := {| Deque.items := [[0x41%N]]; Deque.maxlen := 2 |};
          xoff := 0; inbuf := []; keybuf := []; dirty := false |}
       [x42; x0a; x43; x0a; x44]).
Proof.
  destruct (viewer_invariant (map Byte.to_N) 4 UnicodeRef.unicode_ref)
    as (_ & _ & Hfeed & _).
  apply Hfeed. unfold viewer_ok, Deque.bounded. simpl. lia.
Defined.

End LoopInvariantClaim.

Section ScrollFacts.
Import Width Slicer Main Paint.

Variable db : unicode_db.

Lemma fold_max_ge (ls : list str) :
  forall m, (m <= fold_left (fun m x => Z.max m (visible_width db x)) ls m)%Z /\
            (forall l, In l ls ->
               (visible_width db l <= fold_left (fun m x => Z.max m (visible_width db x)) ls m)%Z).
Proof.
  induction ls as [|x ls IH]; intros m; simpl.
  - split; [lia|tauto].
  - destruct (IH (Z.max m (visible_width db x))) as [H1 H2]. split; [lia|].
    intros l [<-|Hin]; [lia|apply H2; exact Hin].
Qed.

Lemma fold_max_attained (ls : list str) :
  forall m,
    fold_left (fun m x => Z.max m (visible_width db x)) ls m = m \/
    exists l, In l ls /\
      fold_left (fun m x => Z.max m (visible_width db x)) ls m = visible_width db l.
Proof.
  induction ls as [|x ls IH]; intros m; simpl; [left; reflexivity|].
  destruct (IH (Z.max m (visible_width db x))) as [H|(l & Hin & H)].
  - rewrite H. destruct (Z.max_spec m (visible_width db x)) as [[_ E]|[_ E]]; rewrite E.
    + right. exists x. auto.
    + left. reflexivity.
  - right. exists l. auto.
Qed.

(** [max_width] is the width of a widest line, 0 for no line. *)
Lemma max_width_spec (ls : list str) :
  (forall l, In l ls -> (visible_width db l <= max_width db ls)%Z) /\
  (ls = [] /\ max_width db ls = 0%Z \/
   exists l, In l ls /\ max_width db ls = visible_width db l).
Proof.
  destruct ls as [|x ls]; simpl.
  - split; [tauto|left; auto].
  - destruct (fold_max_ge ls (visible_width db x)) as [H1 H2].
    split.
    + intros l [<-|Hin]; [exact H1|apply H2; exact Hin].
    + right. destruct (fold_max_attained ls (visible_width db x)) as [H|(l & Hin & H)].
      * exists x. auto.
      * exists l. auto.
Qed.

End ScrollFacts.

Section ScrollClaim.
Import Width Slicer Main Paint.

(** X16. A repaint keeps the text in view. For a well-formed viewer that
    is dirty, the offset after the repaint lies between 0 and
    [max(0, max_width - term_width)], and is not more than it was; and
    when some line of the buffer has visible text, a widest line still
    shows text at that offset: the screen is never scrolled past the end
    of every line. *)
Theorem repaint_keeps_text_in_view (db : unicode_db) (v : viewer) (first : bool) :
  viewer_ok v -> dirty v = true ->
  let v' := fst (fst (repaint db v first)) in
  (0 <= xoff v' <= Z.max 0 (max_width db (Deque.items (lines v)) - term_width v))%Z /\
  (xoff v' <= xoff v)%Z /\
  dirty v' = false /\
  ((exists l, In l (Deque.items (lines v)) /\ (0 < visible_width db l)%Z) ->
   exists l, In l (Deque.items (lines v')) /\
     slice_ansi db l (xoff v') (term_width v') <> []).
Proof.
  intros (Hb & Hm & Hh & Hw & Hx) Hd. unfold repaint. rewrite Hd. simpl.
  split; [lia|]. split; [lia|]. split; [reflexivity|].
  intros (l0 & Hin0 & Hpos).
  destruct (max_width_spec db (Deque.items (lines v))) as [Hge [[Hnil _]|(l & Hin & Hmax)]].
  - rewrite Hnil in Hin0. destruct Hin0.
  - exists l. split; [exact Hin|].
    pose proof (Hge l0 Hin0) as Hl0.
    intros Hempty.
    apply (slice_ansi_empty_iff db l _ (term_width v)) in Hempty; lia.
Qed.

Lemma repaint_keeps_text_in_view_witness :
  exists l,
    In l [Examples.hello; Examples.hello_world] /\
    slice_ansi UnicodeRef.unicode_ref l 8 3 <> [].
Proof.
  destruct (repaint_keeps_text_in_view UnicodeRef.unicode_ref
              {| term_width := 3; term_height := 2;
                 lines := {| Deque.items := [Examples.hello; Examples.hello_world];
                             Deque.maxlen := 2 |};
                 xoff := 20; inbuf := []; keybuf := []; dirty := true |}
              true) as (_ & _ & _ & H).
  - unfold viewer_ok, Deque.bounded. simpl. lia.
  - reflexivity.
  - apply H. exists Examples.hello. split; [left; reflexivity|reflexivity].
Defined.

End ScrollClaim.

Section ChunkFacts.
Import Main Paint.

Lemma last_app_r (A : Type) (l1 l2 : list A) (d : A) :
  l2 <> [] -> last (l1 ++ l2) d = last l2 d.
Proof.
  intros Hne. induction l1 as [|x l1 IH]; [reflexivity|].
  simpl. rewrite IH. destruct (l1 ++ l2) eqn:E; [|reflexivity].
  apply app_eq_nil in E. destruct E as [_ E]. contradiction.
Qed.

(** Splitting a text in two and splitting the second half after the
    fragment the first half left gives the split of the whole. *)
Lemma split_app (sep : byte) (x y : bytes) :
  split sep (x ++ y) =
  removelast (split sep x) ++ split sep (last (split sep x) [] ++ y).
Proof.
  induction x as [|c r IH]; [reflexivity|].
  simpl app. cbn [split].
  pose proof (split_not_nil sep r) as Hne.
  destruct (Byte.eqb c sep) eqn:Ec.
  - rewrite IH. destruct (split sep r) as [|h t] eqn:Er; [contradiction|].
    reflexivity.
  - rewrite IH. destruct (split sep r) as [|h t] eqn:Er; [contradiction|].
    destruct t as [|h' t'].
    + simpl. rewrite Ec. reflexivity.
    + reflexivity.
Qed.

Variable decode : bytes -> str.
Variable cap : nat.

Lemma flush_oversized_within (fuel : nat) (buf : bytes) (ls : Deque.deque str) (d : bool) :
  length buf <= cap -> flush_oversized decode cap fuel buf ls d = (buf, ls, d).
Proof.
  intros Hle. destruct fuel; simpl; [reflexivity|].
  destruct (Nat.ltb_spec cap (length buf)); [lia|reflexivity].
Qed.

(** A chunk that leaves the buffer within the cap: no forced flush. *)
Lemma feed_chunk_small (v : viewer) (chunk : bytes) :
  length (inbuf v ++ chunk) <= cap ->
  feed_chunk decode cap v chunk =
  {| term_width := term_width v; term_height := term_height v;
     lines := fold_left (append_raw decode)
                (removelast (split NL (inbuf v ++ chunk))) (lines v);
     xoff := xoff v;
     inbuf := last (split NL (inbuf v ++ chunk)) [];
     keybuf := keybuf v;
     dirty := match removelast (split NL (inbuf v ++ chunk)) with
              | [] => dirty v
              | _ :: _ => true
              end |}.
Proof.
  intros Hle. unfold feed_chunk.
  rewrite flush_oversized_within by exact Hle. reflexivity.
Qed.

Lemma feed_chunk_twice (v : viewer) (a b : bytes) :
  length (inbuf v ++ a ++ b) <= cap ->
  feed_chunk decode cap (feed_chunk decode cap v a) b =
  feed_chunk decode cap v (a ++ b).
Proof.
  intros Hle.
  assert (Ha : length (inbuf v ++ a) <= cap).
  { rewrite !length_app in *. lia. }
  rewrite (feed_chunk_small v a Ha).
  pose proof (split_last_length NL (inbuf v ++ a)) as Hlast.
  rewrite feed_chunk_small; cbn [inbuf lines dirty term_width term_height xoff keybuf];
    [|rewrite !length_app in *; lia].
  rewrite (feed_chunk_small v (a ++ b) Hle).
  rewrite (app_assoc (inbuf v) a b).
  rewrite (split_app NL (inbuf v ++ a) b).
  set (P1 := split NL (inbuf v ++ a)).
  set (P2 := split NL (last P1 [] ++ b)).
  assert (Hne : P2 <> []) by apply split_not_nil.
  rewrite (removelast_app (removelast P1) Hne).
  rewrite (last_app_r _ (removelast P1) P2 [] Hne).
  rewrite fold_left_app.
  f_equal.
  destruct (removelast P1); destruct (removelast P2); reflexivity.
Qed.

Lemma feed_chunks_one (chunks : list bytes) :
  forall v a,
    length (inbuf v ++ concat (a :: chunks)) <= cap ->
    feed_chunks decode cap v (a :: chunks) =
    feed_chunk decode cap v (concat (a :: chunks)).
Proof.
  induction chunks as [|b chunks IH]; intros v a Hle.
  - simpl. rewrite app_nil_r. reflexivity.
  - change (feed_chunks decode cap v (a :: b :: chunks))
      with (feed_chunks decode cap (feed_chunk decode cap v a) (b :: chunks)).
    assert (Ha : length (inbuf v ++ a) <= cap).
    { simpl concat in Hle. rewrite !length_app in *. lia. }
    assert (Hin : length (inbuf (feed_chunk decode cap v a)) <= length (inbuf v ++ a)).
    { rewrite (feed_chunk_small v a Ha). simpl. apply split_last_length. }
    rewrite IH.
    + apply feed_chunk_twice. exact Hle.
    + simpl concat in Hle |- *. rewrite !length_app in *. lia.
Qed.

End ChunkFacts.

Section ChunkClaims.
Import Main Paint.

(** X17. The lines do not depend on how the input is cut into chunks:
    while the bytes retained and received stay within the cap, feeding
    chunks one after the other gives the same viewer (same buffer, same
    fragment retained, same dirty flag) as feeding their concatenation
    in one chunk. *)
Theorem chunking_invariant (decode : bytes -> str) (cap : nat)
    (v : viewer) (a : bytes) (chunks : list bytes) :
  length (inbuf v ++ concat (a :: chunks)) <= cap ->
  feed_chunks decode cap v (a :: chunks) =
  feed_chunk decode cap v (concat (a :: chunks)).
Proof. apply feed_chunks_one. Qed.

Lemma chunking_invariant_witness :
  feed_chunks (map Byte.to_N) 16
    {| term_width := 80; term_height := 2;
       lines := {| Deque.items := []; Deque.maxlen := 2 |};
       xoff := 0; inbuf := [x41]; keybuf := []; dirty := false |}
    [[x42; x0d]; [x0a; x43]; [x0a; x44]]
  = feed_chunk (map Byte.to_N) 16
    {| term_width := 80; term_height := 2;
       lines := {| Deque.items := []; Deque.maxlen := 2 |};
       xoff := 0; inbuf := [x41]; keybuf := []; dirty := false |}
    [x42; x0d; x0a; x43; x0a; x44].
Proof.
  apply (chunking_invariant (map Byte.to_N) 16
           {| term_width := 80; term_height := 2;
              lines := {| Deque.items := []; Deque.maxlen := 2 |};
              xoff := 0; inbuf := [x41]; keybuf := []; dirty := false |}
           [x42; x0d] [[x0a; x43]; [x0a; x44]]).
  simpl. lia.
Defined.

(** X18. The buffer receives the records of the stream. For a viewer
    that retains nothing and an input within the cap, cut into chunks in
    any way, after the chunks and the end of input the buffer is the old
    one with one line appended per record of the input, in order: each
    part between newlines, stripped of trailing carriage returns and
    decoded; a final newline adds no empty line. Nothing is retained. *)
Theorem stream_records (decode : bytes -> str) (cap : nat)
    (v : viewer) (a : bytes) (chunks : list bytes) :
  inbuf v = [] ->
  length (concat (a :: chunks)) <= cap ->
  lines (eof_flush decode (feed_chunks decode cap v (a :: chunks))) =
    fold_left (append_raw decode) (records (concat (a :: chunks))) (lines v) /\
  inbuf (eof_flush decode (feed_chunks decode cap v (a :: chunks))) = [].
Proof.
  intros Hin Hle.
  rewrite feed_chunks_one by (rewrite Hin; exact Hle).
  set (data := concat (a :: chunks)) in *.
  rewrite feed_chunk_small by (rewrite Hin; exact Hle).
  rewrite Hin. change ([] ++ data) with data.
  unfold eof_flush, records. cbn [inbuf lines].
  destruct (last (split NL data) []) as [|b0 l0] eqn:E.
  - cbn [lines inbuf]. rewrite app_nil_r. auto.
  - cbn [lines inbuf]. rewrite fold_left_app. auto.
Qed.

Lemma stream_records_witness :
  Deque.snapshot
    (lines (eof_flush (map Byte.to_N)
              (feed_chunks (map Byte.to_N) 16
                 {| term_width := 80; term_height := 4;
                    lines := {| Deque.items := []; Deque.maxlen := 4 |};
                    xoff := 0; inbuf := []; keybuf := []; dirty := false |}
                 [[x41; x0d]; [x0a; x42]; [x0a]])))
  = [[0x41]; [0x42]]%N.
Proof.
  destruct (stream_records (map Byte.to_N) 16
              {| term_width := 80; term_height := 4;
                 lines := {| Deque.items := []; Deque.maxlen := 4 |};
                 xoff := 0; inbuf := []; keybuf := []; dirty := false |}
              [x41; x0d] [[x0a; x42]; [x0a]] eq_refl) as [Hl _].
  - simpl. lia.
  - refine (eq_trans (f_equal (@Deque.snapshot _) Hl) _). reflexivity.
Defined.

End ChunkClaims.

Section CapFacts.
Import Main Paint.

Lemma rfind_spec (sep : byte) (b : bytes) :
  (rfind sep b = (-1)%Z /\ Forall (fun c => c <> sep) b) \/
  (exists p r, b = p ++ sep :: r /\ Forall (fun c => c <> sep) r /\
               rfind sep b = Z.of_nat (length p)).
Proof.
  induction b as [|c r0 IH]; [left; split; [reflexivity|constructor]|].
  cbn [rfind]. destruct IH as [[Hr Hno]|(p & r & -> & Hno & Hr)].
  - rewrite Hr. cbn. destruct (Byte.eqb c sep) eqn:E.
    + apply Byte.byte_dec_bl in E. subst c.
      right. exists [], r0. auto.
    + left. split; [reflexivity|]. constructor; [|exact Hno].
      apply Byte.eqb_false. exact E.
  - rewrite Hr. destruct (Z.leb_spec 0 (Z.of_nat (length p))); [|lia].
    right. exists (c :: p), r. split; [reflexivity|]. split; [exact Hno|].
    simpl length. lia.
Qed.

Lemma split_sep_mid (sep : byte) (p r : bytes) :
  split sep (p ++ sep :: r) = split sep p ++ split sep r.
Proof.
  induction p as [|c p IH]; simpl.
  - assert (E : Byte.eqb sep sep = true) by (apply Byte.byte_dec_lb; reflexivity).
    rewrite E. reflexivity.
  - rewrite IH. destruct (Byte.eqb c sep); [reflexivity|].
    pose proof (split_not_nil sep p). destruct (split sep p); [contradiction|].
    reflexivity.
Qed.

Lemma split_head_prefix (sep : byte) (x y : bytes) :
  Forall (fun c => c <> sep) x ->
  exists h t, split sep (x ++ y) = (x ++ h) :: t.
Proof.
  induction 1 as [|c x Hc Hx IH]; simpl.
  - pose proof (split_not_nil sep y). destruct (split sep y) as [|h t]; [contradiction|].
    exists h, t. reflexivity.
  - rewrite (byte_eqb_neq c sep Hc). destruct IH as (h & t & ->).
    exists h, t. reflexivity.
Qed.

Variable decode : bytes -> str.
Variable cap : nat.

(** With every record shorter than the cap, the loop over the cap cuts
    at newlines only: it appends whole records and leaves the rest. *)
Lemma flush_oversized_records :
  forall fuel buf ls d, length buf <= fuel ->
    Forall (fun part => length part < cap) (split NL buf) ->
    exists P buf' d',
      flush_oversized decode cap fuel buf ls d =
        (buf', fold_left (append_raw decode) P ls, d') /\
      split NL buf = P ++ split NL buf' /\
      (P = [] /\ d' = d \/ P <> [] /\ d' = true).
Proof.
  induction fuel as [|fuel IH]; intros buf ls d Hf Hparts.
  - exists [], buf, d. simpl. auto.
  - cbn [flush_oversized].
    destruct (Nat.ltb_spec cap (length buf)) as [Hlt|Hge];
      [|exists [], buf, d; simpl; auto].
    destruct (rfind_spec NL (firstn cap buf)) as [[Hr Hno]|(p & r & Hpre & Hno & Hr)].
    + exfalso.
      destruct (split_head_prefix NL (firstn cap buf) (skipn cap buf) Hno) as (h & t & Hs).
      rewrite firstn_skipn in Hs. rewrite Hs in Hparts.
      inversion Hparts as [|? ? Hh _]; subst.
      rewrite length_app, length_firstn in Hh. lia.
    + rewrite Hr.
      destruct (Z.eqb_spec (Z.of_nat (length p)) (-1)); [lia|]. cbn [negb].
      rewrite Nat2Z.id.
      assert (Hbuf : buf = p ++ NL :: (r ++ skipn cap buf)).
      { rewrite <- (firstn_skipn cap buf) at 1. rewrite Hpre, <- app_assoc. reflexivity. }
      assert (Hp : firstn (length p) (firstn cap buf) = p).
      { rewrite Hpre. rewrite firstn_app, Nat.sub_diag, firstn_all. simpl.
        apply app_nil_r. }
      assert (Hsk : skipn (length p + 1) buf = r ++ skipn cap buf).
      { rewrite Hbuf at 1. rewrite skipn_app.
        rewrite skipn_all2 by lia.
        replace (length p + 1 - length p) with 1 by lia. reflexivity. }
      rewrite Hp, Hsk.
      assert (Hsplit : split NL buf = split NL p ++ split NL (r ++ skipn cap buf)).
      { rewrite Hbuf at 1. apply split_sep_mid. }
      rewrite Hsplit in Hparts. apply Forall_app in Hparts. destruct Hparts as [_ Hrest].
      destruct (IH (r ++ skipn cap buf)
                  (fold_left (append_raw decode) (split NL p) ls) true)
        as (P & buf' & d' & Hres & Hsp & Hd); [|exact Hrest|].
      { rewrite <- Hsk, length_skipn. lia. }
      exists (split NL p ++ P), buf', d'.
      split; [rewrite Hres, fold_left_app; reflexivity|].
      split; [rewrite Hsplit, Hsp, app_assoc; reflexivity|].
      right. split.
      * pose proof (split_not_nil NL p). destruct (split NL p); [contradiction|discriminate].
      * destruct Hd as [[_ ->]|[_ ->]]; reflexivity.
Qed.

Lemma feed_chunk_records (v : viewer) (chunk : bytes) :
  Forall (fun part => length part < cap) (split NL (inbuf v ++ chunk)) ->
  feed_chunk decode cap v chunk =
  {| term_width := term_width v; term_height := term_height v;
     lines := fold_left (append_raw decode)
                (removelast (split NL (inbuf v ++ chunk))) (lines v);
     xoff := xoff v;
     inbuf := last (split NL (inbuf v ++ chunk)) [];
     keybuf := keybuf v;
     dirty := match removelast (split NL (inbuf v ++ chunk)) with
              | [] => dirty v
              | _ :: _ => true
              end |}.
Proof.
  intros Hparts. unfold feed_chunk.
  destruct (flush_oversized_records (length (inbuf v ++ chunk)) (inbuf v ++ chunk)
              (lines v) (dirty v) (le_n _) Hparts)
    as (P & buf' & d' & -> & Hsp & Hd).
  rewrite Hsp.
  assert (Hne : split NL buf' <> []) by apply split_not_nil.
  rewrite (removelast_app P Hne), (last_app_r _ P (split NL buf') [] Hne).
  rewrite fold_left_app. f_equal.
  destruct Hd as [[-> ->]|[HP ->]]; [reflexivity|].
  destruct P; [contradiction|]. simpl.
  destruct (removelast (split NL buf')); reflexivity.
Qed.

End CapFacts.

Section FlushFacts.
Import Main.

Variable decode : bytes -> str.
Variable cap : nat.

Lemma rfind_app_last (sep : byte) (p r : bytes) :
  Forall (fun c => c <> sep) r ->
  rfind sep (p ++ sep :: r) = Z.of_nat (length p).
Proof.
  intros Hr. induction p as [|c p IH].
  - cbn [app rfind length]. rewrite (rfind_no_sep sep r Hr).
    assert (E : Byte.eqb sep sep = true) by (apply Byte.byte_dec_lb; reflexivity).
    rewrite E. reflexivity.
  - cbn [app rfind]. rewrite IH.
    destruct (Z.leb_spec 0 (Z.of_nat (length p))); [|lia].
    simpl length. lia.
Qed.

(** One round of the loop over the cap that finds no newline in the
    first [cap] bytes: these bytes become a line. *)
Lemma flush_oversized_cut (fuel : nat) (buf : bytes) (ls : Deque.deque str) (d : bool) :
  cap < length buf ->
  Forall (fun c => c <> NL) (firstn cap buf) ->
  flush_oversized decode cap (S fuel) buf ls d =
  flush_oversized decode cap fuel (skipn cap buf)
    (append_raw decode ls (firstn cap buf)) true.
Proof.
  intros Hlt Hno. cbn [flush_oversized].
  destruct (Nat.ltb_spec cap (length buf)); [|lia].
  rewrite (rfind_no_sep NL _ Hno). reflexivity.
Qed.

(** One round that finds a newline in the first [cap] bytes: the records
    up to the last such newline become lines. *)
Lemma flush_oversized_newline (fuel : nat) (buf p r : bytes)
    (ls : Deque.deque str) (d : bool) :
  cap < length buf ->
  firstn cap buf = p ++ NL :: r ->
  Forall (fun c => c <> NL) r ->
  flush_oversized decode cap (S fuel) buf ls d =
  flush_oversized decode cap fuel (r ++ skipn cap buf)
    (fold_left (append_raw decode) (split NL p) ls) true.
Proof.
  intros Hlt Hpre Hno. cbn [flush_oversized].
  destruct (Nat.ltb_spec cap (length buf)); [|lia].
  rewrite Hpre, (rfind_app_last NL p r Hno).
  destruct (Z.eqb_spec (Z.of_nat (length p)) (-1)); [lia|]. cbn [negb].
  rewrite Nat2Z.id.
  assert (Hbuf : buf = p ++ NL :: (r ++ skipn cap buf)).
  { rewrite <- (firstn_skipn cap buf) at 1. rewrite Hpre, <- app_assoc. reflexivity. }
  assert (Hp : firstn (length p) (p ++ NL :: r) = p).
  { rewrite firstn_app, Nat.sub_diag, firstn_all. simpl. apply app_nil_r. }
  assert (Hsk : skipn (length p + 1) buf = r ++ skipn cap buf).
  { rewrite Hbuf at 1. rewrite skipn_app.
    rewrite skipn_all2 by lia.
    replace (length p + 1 - length p) with 1 by lia. reflexivity. }
  rewrite Hp, Hsk. reflexivity.
Qed.

(** A chunk whose first round of the loop over the cap leaves [buf'] and
    the lines [ls'] is processed as [buf'] read with nothing retained. *)
Lemma feed_chunk_restart (v : viewer) (chunk buf' : bytes) (ls' : Deque.deque str) :
  flush_oversized decode cap (length (inbuf v ++ chunk)) (inbuf v ++ chunk)
    (lines v) (dirty v) =
  flush_oversized decode cap (length buf') buf' ls' true ->
  feed_chunk decode cap v chunk =
  feed_chunk decode cap
    {| term_width := term_width v; term_height := term_height v;
       lines := ls'; xoff := xoff v; inbuf := []; keybuf := keybuf v;
       dirty := true |}
    buf'.
Proof.
  intros H. unfold feed_chunk. cbn [inbuf lines dirty term_width term_height xoff keybuf app].
  rewrite H. reflexivity.
Qed.

Lemma feed_chunk_forced (v : viewer) (chunk : bytes) :
  0 < cap ->
  cap < length (inbuf v ++ chunk) ->
  Forall (fun c => c <> NL) (firstn cap (inbuf v ++ chunk)) ->
  feed_chunk decode cap v chunk =
  feed_chunk decode cap
    {| term_width := term_width v; term_height := term_height v;
       lines := Deque.append (lines v)
                  (decode (rstrip CR (firstn cap (inbuf v ++ chunk))));
       xoff := xoff v; inbuf := []; keybuf := keybuf v; dirty := true |}
    (skipn cap (inbuf v ++ chunk)).
Proof.
  intros Hcap Hlt Hno. apply feed_chunk_restart.
  destruct (length (inbuf v ++ chunk)) as [|n] eqn:Hn; [lia|].
  rewrite (flush_oversized_cut n (inbuf v ++ chunk) (lines v) (dirty v) ltac:(lia) Hno).
  apply (flush_oversized_fuel decode cap Hcap); rewrite length_skipn; lia.
Qed.

Lemma feed_chunk_newline (v : viewer) (chunk p r : bytes) :
  0 < cap ->
  cap < length (inbuf v ++ chunk) ->
  firstn cap (inbuf v ++ chunk) = p ++ NL :: r ->
  Forall (fun c => c <> NL) r ->
  feed_chunk decode cap v chunk =
  feed_chunk decode cap
    {| term_width := term_width v; term_height := term_height v;
       lines := fold_left (append_raw decode) (split NL p) (lines v);
       xoff := xoff v; inbuf := []; keybuf := keybuf v; dirty := true |}
    (r ++ skipn cap (inbuf v ++ chunk)).
Proof.
  intros Hcap Hlt Hpre Hno. apply feed_chunk_restart.
  assert (Hlen : length (r ++ skipn cap (inbuf v ++ chunk)) < length (inbuf v ++ chunk)).
  { rewrite <- (firstn_skipn cap (inbuf v ++ chunk)) at 2.
    rewrite Hpre, !length_app. simpl length. lia. }
  destruct (length (inbuf v ++ chunk)) as [|n] eqn:Hn; [lia|].
  rewrite (flush_oversized_newline n (inbuf v ++ chunk) p r (lines v) (dirty v)
             ltac:(lia) Hpre Hno).
  apply (flush_oversized_fuel decode cap Hcap); lia.
Qed.

Lemma feed_chunk_retained (v : viewer) (chunk : bytes) :
  length (inbuf v ++ chunk) <= cap ->
  Forall (fun c => c <> NL) (inbuf v ++ chunk) ->
  feed_chunk decode cap v chunk =
  {| term_width := term_width v; term_height := term_height v;
     lines := lines v; xoff := xoff v; inbuf := inbuf v ++ chunk;
     keybuf := keybuf v; dirty := dirty v |}.
Proof.
  intros Hle Hno. unfold feed_chunk.
  rewrite (flush_oversized_within decode cap _ _ _ _ Hle).
  rewrite (split_no_sep NL _ Hno). reflexivity.
Qed.

End FlushFacts.

Section FeedClaims.
Import Main.

(** C8. With a cap [cap > 0] ([main] runs with [MAX_LINE_BYTES]), after
    every chunk the fragment retained is at most [cap] bytes long, whatever
    was retained before and whatever the chunk holds: what would exceed the
    cap is flushed into the line buffer as a line, the function returning
    the next state and no error. Whenever the fragment retained and the
    chunk together are longer than the cap, with no newline in the first
    [cap] bytes, these [cap] bytes are appended to the line buffer as any
    line is (trailing carriage returns stripped, decoded), and the bytes
    after them are processed as a chunk read with nothing retained,
    whatever they hold. When the first [cap] bytes do hold a newline, the
    records up to the last such newline are appended as lines and the
    bytes after that newline are processed as a chunk read with nothing
    retained. A fragment without a newline that fits the cap is retained
    whole and nothing is flushed. And an input of [2 * cap] bytes without a
    newline, fed in any chunks to a loop that retained nothing, has put one
    line, its first [cap] bytes, into the buffer when the chunks end,
    before the end of the stream, and retains the other [cap] bytes. *)
Theorem fragment_within_cap (decode : bytes -> str) (cap : nat) :
  0 < cap ->
  (forall v chunk, length (inbuf (feed_chunk decode cap v chunk)) <= cap) /\
  (forall v chunk,
      cap < length (inbuf v ++ chunk) ->
      Forall (fun c => c <> NL) (firstn cap (inbuf v ++ chunk)) ->
      feed_chunk decode cap v chunk =
      feed_chunk decode cap
        {| term_width := term_width v; term_height := term_height v;
           lines := Deque.append (lines v)
                      (decode (rstrip CR (firstn cap (inbuf v ++ chunk))));
           xoff := xoff v; inbuf := []; keybuf := keybuf v; dirty := true |}
        (skipn cap (inbuf v ++ chunk))) /\
  (forall v chunk p r,
      cap < length (inbuf v ++ chunk) ->
      firstn cap (inbuf v ++ chunk) = p ++ NL :: r ->
      Forall (fun c => c <> NL) r ->
      feed_chunk decode cap v chunk =
      feed_chunk decode cap
        {| term_width := term_width v; term_height := term_height v;
           lines := fold_left (append_raw decode) (split NL p) (lines v);
           xoff := xoff v; inbuf := []; keybuf := keybuf v; dirty := true |}
        (r ++ skipn cap (inbuf v ++ chunk))) /\
  (forall v chunk,
      length (inbuf v ++ chunk) <= cap ->
      Forall (fun c => c <> NL) (inbuf v ++ chunk) ->
      feed_chunk decode cap v chunk =
      {| term_width := term_width v; term_height := term_height v;
         lines := lines v; xoff := xoff v; inbuf := inbuf v ++ chunk;
         keybuf := keybuf v; dirty := dirty v |}) /\
  (forall v chunks,
      inbuf v = [] ->
      Forall (fun c => c <> NL) (concat chunks) ->
      length (concat chunks) = 2 * cap ->
      lines (feed_chunks decode cap v chunks) =
        Deque.append (lines v) (decode (rstrip CR (firstn cap (concat chunks)))) /\
      inbuf (feed_chunks decode cap v chunks) = skipn cap (concat chunks)).
Proof.
  intros Hcap. split; [|split; [|split; [|split]]].
  - intros v chunk. apply feed_chunk_inbuf_le. exact Hcap.
  - intros v chunk Hlt Hno. apply feed_chunk_forced; assumption.
  - intros v chunk p r Hlt Hpre Hno. apply feed_chunk_newline; assumption.
  - intros v chunk Hle Hno. apply feed_chunk_retained; assumption.
  - intros v chunks Hin Hno Hlen.
    assert (Hv : unterminated decode cap v v []).
    { unfold unterminated. simpl. auto. }
    pose proof (feed_chunks_unterminated decode cap Hcap v chunks v [] Hv Hno) as H.
    simpl app in H. specialize (H ltac:(lia)).
    unfold unterminated in H.
    destruct (Nat.leb_spec (length (concat chunks)) cap); [lia|].
    exact H.
Qed.

Lemma fragment_within_cap_witness :
  let decode := map Byte.to_N in
  let v0 := {| term_width := 80; term_height := 24;
               lines := {| Deque.items := []; Deque.maxlen := 24 |};
               xoff := 0; inbuf := []; keybuf := []; dirty := false |} in
  let v1 := {| term_width := 80; term_height := 24;
               lines := {| Deque.items := []; Deque.maxlen := 24 |};
               xoff := 0; inbuf := [x41; x42]; keybuf := []; dirty := false |} in
  let chunks := [[x41; x42; x43]; [x44; x45]; [x46]] in
  (Deque.snapshot (lines (feed_chunks decode 3 v0 chunks)) = [[0x41; 0x42; 0x43]%N] /\
   inbuf (feed_chunks decode 3 v0 chunks) = [x44; x45; x46]) /\
  (Deque.snapshot (lines (feed_chunk decode 3 v1 [x43; x44; x0a; x45])) =
     [[0x41; 0x42; 0x43]; [0x44]]%N /\
   inbuf (feed_chunk decode 3 v1 [x43; x44; x0a; x45]) = [x45]) /\
  (Deque.snapshot (lines (feed_chunk decode 3 v0 [x41; x0a; x42; x43; x44])) =
     [[0x41]%N] /\
   inbuf (feed_chunk decode 3 v0 [x41; x0a; x42; x43; x44]) = [x42; x43; x44]).
Proof.
  cbv zeta.
  destruct (fragment_within_cap (map Byte.to_N) 3 ltac:(lia))
    as (_ & Hforced & Hnewline & _ & Htwice).
  split; [|split].
  - specialize (Htwice {| term_width := 80; term_height := 24;
                          lines := {| Deque.items := []; Deque.maxlen := 24 |};
                          xoff := 0; inbuf := []; keybuf := []; dirty := false |}
                  [[x41; x42; x43]; [x44; x45]; [x46]]
                  eq_refl).
    destruct Htwice as [Hl Hi].
    + simpl. repeat constructor; discriminate.
    + reflexivity.
    + split; [rewrite Hl; reflexivity|exact Hi].
  - specialize (Hforced {| term_width := 80; term_height := 24;
                           lines := {| Deque.items := []; Deque.maxlen := 24 |};
                           xoff := 0; inbuf := [x41; x42]; keybuf := [];
                           dirty := false |}
                  [x43; x44; x0a; x45]).
    rewrite Hforced.
    + split; reflexivity.
    + simpl. lia.
    + simpl. repeat constructor; discriminate.
  - specialize (Hnewline {| term_width := 80; term_height := 24;
                            lines := {| Deque.items := []; Deque.maxlen := 24 |};
                            xoff := 0; inbuf := []; keybuf := []; dirty := false |}
                  [x41; x0a; x42; x43; x44] [x41] [x42]).
    rewrite Hnewline.
    + split; reflexivity.
    + simpl. lia.
    + reflexivity.
    + repeat constructor; discriminate.
Defined.

(** The same for the loop as [main] runs it, with [MAX_LINE_BYTES]. *)
Corollary fragment_within_max_line_bytes (decode : bytes -> str) (v : viewer)
    (chunk : bytes) :
  length (inbuf (feed_chunk decode MAX_LINE_BYTES v chunk)) <= MAX_LINE_BYTES.
Proof.
  apply feed_chunk_inbuf_le. unfold MAX_LINE_BYTES. lia.
Qed.

End FeedClaims.

Section CapClaim.
Import Main Paint.

(** X19. The cap leaves ordinary input alone. When every part between
    newlines of the bytes retained and received is shorter than the cap,
    a chunk is handled as if there were no cap, however long it is: the
    buffer receives the complete parts in order, the last part is
    retained, and the viewer is dirty when a line was added. *)
Theorem cap_transparent (decode : bytes -> str) (cap : nat) (v : viewer) (chunk : bytes) :
  Forall (fun part => length part < cap) (split NL (inbuf v ++ chunk)) ->
  lines (feed_chunk decode cap v chunk) =
    fold_left (append_raw decode)
      (removelast (split NL (inbuf v ++ chunk))) (lines v) /\
  inbuf (feed_chunk decode cap v chunk) = last (split NL (inbuf v ++ chunk)) [] /\
  dirty (feed_chunk decode cap v chunk) =
    match removelast (split NL (inbuf v ++ chunk)) with
    | [] => dirty v
    | _ :: _ => true
    end.
Proof.
  intros Hparts. rewrite (feed_chunk_records decode cap v chunk Hparts).
  repeat split.
Qed.

Lemma cap_transparent_witness :
  Deque.snapshot
    (lines (feed_chunk (map Byte.to_N) 3
              {| term_width := 80; term_height := 4;
                 lines := {| Deque.items := []; Deque.maxlen := 4 |};
                 xoff := 0; inbuf := [x41]; keybuf := []; dirty := false |}
              [x42; x0a; x43; x0a; x44; x45; x0a; x46]))
  = [[0x41; 0x42]; [0x43]; [0x44; 0x45]]%N.
Proof.
  destruct (cap_transparent (map Byte.to_N) 3
              {| term_width := 80; term_height := 4;
                 lines := {| Deque.items := []; Deque.maxlen := 4 |};
                 xoff := 0; inbuf := [x41]; keybuf := []; dirty := false |}
              [x42; x0a; x43; x0a; x44; x45; x0a; x46]) as (Hl & _ & _).
  - simpl. repeat constructor.
  - refine (eq_trans (f_equal (@Deque.snapshot _) Hl) _). reflexivity.
Defined.

End CapClaim.

Section RenderClaim.
Import Width Slicer Main Paint.

(** X20. [render] paints the rows of the terminal and no more: lines
    beyond the first [term_height] are not written, and a terminal
    without rows gets the cursor home (after the clear of the first
    paint) and nothing else. *)
Theorem render_height_only (db : unicode_db) (lines : list str)
    (term_width term_height xoff : Z) (first : bool) :
  render db lines term_width term_height xoff first =
    render db (firstn (Z.to_nat term_height) lines) term_width term_height xoff first /\
  ((term_height <= 0)%Z ->
   render db lines term_width term_height xoff first =
     (if first then CLEAR_SCREEN else []) ++ HOME).
Proof.
  unfold render. split.
  - do 3 f_equal. apply map_ext_in. intros idx Hin.
    apply in_seq in Hin. unfold render_row.
    rewrite length_firstn.
    assert (Hn : nth idx (firstn (Z.to_nat term_height) lines) [] = nth idx lines []).
    { rewrite <- (firstn_skipn (Z.to_nat term_height) lines) at 2.
      destruct (Nat.ltb_spec idx (length (firstn (Z.to_nat term_height) lines))) as [H|H].
      - rewrite app_nth1 by exact H. reflexivity.
      - rewrite length_firstn in H.
        rewrite (nth_overflow (firstn _ _)) by (rewrite length_firstn; lia).
        rewrite nth_overflow; [reflexivity|].
        rewrite length_app, length_firstn, length_skipn. lia. }
    rewrite Hn.
    destruct (Nat.ltb_spec idx (length lines));
      destruct (Nat.ltb_spec idx (Nat.min (Z.to_nat term_height) (length lines)));
      try lia; reflexivity.
  - intros Hh. replace (Z.to_nat term_height) with 0 by lia.
    destruct first; reflexivity.
Qed.

Lemma render_height_only_witness :
  render UnicodeRef.unicode_ref [Examples.hello] 80 0 0 true = CLEAR_SCREEN ++ HOME.
Proof.
  apply (render_height_only UnicodeRef.unicode_ref [Examples.hello] 80 0 0 true). lia.
Defined.

End RenderClaim.

Section QuitClaim.
Import Width Keys Main Paint.

Lemma apply_actions_quits (db : unicode_db) (n : nat) (v : viewer) :
  apply_actions db v (repeat "quit"%string n) = None <-> 0 < n.
Proof.
  destruct n as [|n]; simpl.
  - split; [discriminate|lia].
  - split; [lia|reflexivity].
Qed.

Lemma on_keys_nonempty (db : unicode_db) (v : viewer) (data : bytes) :
  data <> [] ->
  on_keys db v data =
  apply_actions db
    {| term_width := term_width v; term_height := term_height v;
       lines := lines v; xoff := xoff v; inbuf := inbuf v;
       keybuf := snd (parse_keys (keybuf v ++ data)); dirty := dirty v |}
    (fst (parse_keys (keybuf v ++ data))).
Proof.
  intros Hd. unfold on_keys. destruct data as [|b0 data0]; [contradiction|].
  destruct (parse_keys (keybuf v ++ b0 :: data0)). reflexivity.
Qed.

(** X21. The key handler quits on an empty read and on Ctrl-C. A read
    of the terminal that gave nothing makes the loop leave ([on_keys]
    returns no viewer), whatever the viewer holds. And with no bytes kept
    from an earlier read and no [ESC] among the bytes read, the loop
    leaves exactly when the read gave nothing or the bytes hold an [ETX]
    (0x03); otherwise the bytes are discarded and the viewer is
    unchanged. *)
Theorem on_keys_quit (db : unicode_db) (v : viewer) (data : bytes) :
  on_keys db v [] = None /\
  (keybuf v = [] ->
   Forall (fun b => b <> x1b) data ->
   (on_keys db v data = None <-> data = [] \/ In x03 data) /\
   (data <> [] -> ~ In x03 data -> on_keys db v data = Some v)).
Proof.
  split; [reflexivity|].
  intros Hk Hno.
  assert (Hcase : data = [] \/ data <> []) by (destruct data; [left|right]; congruence).
  destruct Hcase as [->|Hd].
  { split; [split; auto|]. intros H. contradiction. }
  assert (Hne : data = [] \/ In x03 data <-> In x03 data).
  { split; [|auto]. intros [H|H]; [contradiction|exact H]. }
  rewrite (on_keys_nonempty db v data Hd).
  rewrite Hk. simpl app.
  rewrite parse_keys_decode_rest.
  rewrite decode_rest_no_esc by (auto; lia). cbn [fst snd]. simpl app.
  assert (Hrep : forall l : bytes,
             map (fun _ : byte => "quit"%string) l = repeat "quit"%string (length l)).
  { induction l as [|x l IH]; simpl; [reflexivity|]. rewrite IH. reflexivity. }
  rewrite Hrep.
  assert (Hin : In x03 data <-> 0 < length (filter (Byte.eqb x03) data)).
  { split.
    - intros H. assert (Hf : In x03 (filter (Byte.eqb x03) data)).
      { apply filter_In. split; [exact H|]. apply Byte.byte_dec_lb. reflexivity. }
      destruct (filter (Byte.eqb x03) data); [destruct Hf|simpl; lia].
    - intros H. destruct (filter (Byte.eqb x03) data) as [|x l] eqn:E; [simpl in H; lia|].
      assert (Hx : In x (filter (Byte.eqb x03) data)) by (rewrite E; left; reflexivity).
      apply filter_In in Hx. destruct Hx as [Hx Heq].
      apply Byte.byte_dec_bl in Heq. subst x. exact Hx. }
  split.
  - rewrite Hne, Hin. apply apply_actions_quits.
  - intros _ Hnot.
    destruct (filter (Byte.eqb x03) data) eqn:E.
    + simpl. destruct v; simpl in *; subst; reflexivity.
    + exfalso. apply Hnot. apply Hin. simpl. lia.
Qed.

Lemma on_keys_quit_witness :
  on_keys UnicodeRef.unicode_ref
    {| term_width := 80; term_height := 2;
       lines := {| Deque.items := []; Deque.maxlen := 2 |};
       xoff := 0; inbuf := []; keybuf := []; dirty := false |}
    [x61; x03; x62] = None.
Proof.
  destruct (on_keys_quit UnicodeRef.unicode_ref
              {| term_width := 80; term_height := 2;
                 lines := {| Deque.items := []; Deque.maxlen := 2 |};
                 xoff := 0; inbuf := []; keybuf := []; dirty := false |}
              [x61; x03; x62]) as [_ H].
  apply H.
  - reflexivity.
  - repeat constructor; discriminate.
  - right. right. left. reflexivity.
Defined.

End QuitClaim.
